(** * Radial Hartree potentials of numerical atomic orbitals

    A shallow embedding of [pyscf/nao/m_ao_log_hartree.py]: the
    direct-quadrature Laplace solver [ao_log_hartree_lap], the spherical
    Bessel transform solver [ao_log_hartree_sbt], the library-backed
    solver [ao_log_hartree_lap_libnao] and the dispatcher
    [ao_log_hartree].

    The file has two layers.  Module-free definitions at the top give
    the value semantics of the solvers: numpy arrays are lists, Python
    exceptions are an error monad, and the arithmetic of [float64] is an
    interface [FloatOps] without any algebraic law, so that a theorem
    proved for every instance holds for whatever rounding the machine
    performs.  The instance on [R] gives the exact arithmetic the
    formulas of the documentation are written in, the instance
    [binary64] the arithmetic of IEEE 754 doubles.  Module [Heap] then
    puts the arrays in a store of mutable objects to reason on sharing
    between the argument and the result of a solver. *)

From stdpp Require Import base list strings gmap.
From Stdlib Require Import Reals ZArith Lia Lra.
From Stdlib Require PrimFloat SpecFloat FloatOps.

Set Default Proof Using "Type".

(** ** Python exceptions as an error monad *)

(** [TypeError] stands for every exception raised on an object of the
    wrong kind. *)
Inductive exn : Type :=
  | IndexError
  | ValueError
  | TypeError
  | RuntimeError (msg : string).

Inductive result (A : Type) : Type :=
  | Ok (a : A)
  | Raise (e : exn).
Arguments Ok {A} a.
Arguments Raise {A} e.

#[global] Instance result_ret : MRet result := λ A a, Ok a.
#[global] Instance result_bind : MBind result := λ A B f m,
  match m with
  | Ok a => f a
  | Raise e => Raise e
  end.

(** [for i, x in enumerate(l)] with the loop-carried state [s], in any
    monad; the counter starts at [i]. *)
Fixpoint for_enumerate {M : Type → Type} `{!MBind M, !MRet M} {A St : Type}
    (body : nat → A → St → M St) (i : nat) (l : list A) (s : St) : M St :=
  match l with
  | [] => mret s
  | x :: l' => s' ← body i x s; for_enumerate body (S i) l' s'
  end.

(** [for i in range(n)]. *)
Definition for_range {M : Type → Type} `{!MBind M, !MRet M} {St : Type}
    (n : nat) (body : nat → St → M St) (s : St) : M St :=
  for_enumerate (λ i _, body i) 0 (seq 0 n) s.

(** ** Sequences: subscripts that raise [IndexError] *)

(** [a[i]] for a non-negative index. *)
Definition getitem {A : Type} (a : list A) (i : nat) : result A :=
  match a !! i with
  | Some x => Ok x
  | None => Raise IndexError
  end.

(** [a[-1]]. *)
Definition getitem_last {A : Type} (a : list A) : result A :=
  match last a with
  | Some x => Ok x
  | None => Raise IndexError
  end.

(** [a[i] = x] for a non-negative index. *)
Definition setitem {A : Type} (a : list A) (i : nat) (x : A) : result (list A) :=
  if decide (i < length a) then Ok (<[i:=x]> a) else Raise IndexError.

(** ** The arithmetic of [float64] as an interface

    [of_Z] is the conversion of an integer to a float (it also gives the
    literals [0.0] and [1.0]); [fpow] is [x ** n] for a float base and an
    integer exponent; [fltb] is [<].  No law is assumed. *)

Class FloatOps (F : Type) : Type := {
  of_Z : Z → F;
  fadd : F → F → F;
  fmul : F → F → F;
  fdiv : F → F → F;
  fpow : F → Z → F;
  flog : F → F;
  fpi : F;
  fltb : F → F → bool
}.

Declare Scope flt_scope.
Delimit Scope flt_scope with flt.
Infix "+." := fadd (at level 50, left associativity) : flt_scope.
Infix "*." := fmul (at level 40, left associativity) : flt_scope.
Infix "/." := fdiv (at level 40, left associativity) : flt_scope.
Infix "**." := fpow (at level 30, right associativity) : flt_scope.
Open Scope flt_scope.

(** Modelled from the spec: the transform engine [sbt_c] of
    [pyscf.nao.m_sbt], a class of this repository whose source is not in
    this module.  [sbt_init rr pp lmax] is the constructor call
    [sbt_c(rr, pp, lmax=lmax)]; [sbt e ff am direction] is the method call
    [e.sbt(ff, am, direction)], the spherical Bessel transform of order
    [am] of the samples [ff], forward for direction [1] and inverse for
    direction [-1]. *)
Class SbtEngine (F : Type) : Type := {
  sbt_c : Type;
  sbt_init : list F → list F → Z → sbt_c;
  sbt : sbt_c → list F → Z → Z → list F
}.
Arguments sbt_c F {_}.

(** Modelled from the spec: the compiled routine [libnao.ao_hartree_lap]
    of [pyscf.nao.m_libnao], called through [ctypes].
    [ao_hartree_lap rr nmult mu2ff nr mu2j mu2vh] is the content of the
    output buffer [mu2vh(nr,nmult)] after the call. *)
Class Libnao (F : Type) : Type := {
  ao_hartree_lap :
    list F → Z → list (list F) → Z → list Z → list (list F) → list (list F)
}.

(** ** Strings

    A [str] is a sequence of Unicode code points.  [str.upper()] replaces
    every character by its upper case, which may be several characters:
    within ASCII the letters [a] to [z] go to [A] to [Z] and the other
    characters stay; beyond ASCII the mapping is a table of the
    interpreter, the Unicode character database of its version, and is
    taken as a parameter. *)
Class UnicodeData : Type := {
  to_upper : N → list N
}.

(** The [str] of a literal of ASCII characters. *)
Fixpoint literal (s : string) : list N :=
  match s with
  | EmptyString => []
  | String c s' => Ascii.N_of_ascii c :: literal s'
  end.

Section Solvers.
Context {F : Type} `{FloatOps F} `{SbtEngine F} `{Libnao F}.
Context {UD : UnicodeData}.

(** The builtins [min(a, b)] and [max(a, b)]: the second argument wins
    only when it is strictly smaller (greater). *)
Definition py_min (a b : F) : F := if fltb b a then b else a.
Definition py_max (a b : F) : F := if fltb a b then b else a.

(** *** One-dimensional numpy arrays *)

Definition np_zeros (n : nat) : list F := replicate n (of_Z 0).

(** [a.fill(v)]. *)
Definition np_fill (a : list F) (v : F) : list F := replicate (length a) v.

(** [a ** n] with an integer scalar [n]. *)
Definition np_pow (a : list F) (n : Z) : list F := map (λ x, x **. n) a.

(** [c * a] with a scalar [c]. *)
Definition np_scale (c : F) (a : list F) : list F := map (λ x, c *. x) a.

(** An elementwise binary operation on two one-dimensional arrays, with
    numpy's broadcasting: equal lengths, or one operand of length one;
    any other pair of shapes raises [ValueError]. *)
Definition np_binop (op : F → F → F) (a b : list F) : result (list F) :=
  if decide (length a = length b) then Ok (zip_with op a b)
  else match a, b with
       | [x], _ => Ok (map (op x) b)
       | _, [y] => Ok (map (λ x, op x y) a)
       | _, _ => Raise ValueError
       end.

(** The values stored by [dst[:] = src]: [src] broadcast to the shape of
    [dst]. *)
Definition np_assign (dst src : list F) : result (list F) :=
  if decide (length src = length dst) then Ok src
  else match src with
       | [x] => Ok (replicate (length dst) x)
       | _ => Raise ValueError
       end.

(** *** Two-dimensional arrays, one row per multiplet *)

(** [a[mu,:]] *)
Definition getrow (a : list (list F)) (mu : nat) : result (list F) :=
  getitem a mu.

(** [a[mu,:] = src] *)
Definition setrow (a : list (list F)) (mu : nat) (src : list F)
    : result (list (list F)) :=
  row ← getrow a mu;
  row' ← np_assign row src;
  Ok (<[mu:=row']> a).

(** *** The fields of [ao_log] the module reads or writes *)

Record ao_log : Type := mk_ao_log {
  rr : list F;                       (* radial grid *)
  pp : list F;                       (* reciprocal grid *)
  nr : nat;                          (* number of grid points *)
  nspecies : nat;
  jmx : Z;                           (* largest angular momentum *)
  sp2nmult : list Z;                 (* multiplets per species *)
  sp_mu2j : list (list Z);           (* angular momentum per multiplet *)
  psi_log : list (list (list F));    (* radial functions *)
  psi_log_rl : list (list (list F)); (* radial functions divided by r^j *)
  sp_mu2rcut : list (list F);        (* cutoff per multiplet *)
  sp2rcut : list F                   (* cutoff per species *)
}.

Definition with_psi_log (v : list (list (list F))) (ao : ao_log) : ao_log :=
  mk_ao_log (rr ao) (pp ao) (nr ao) (nspecies ao) (jmx ao) (sp2nmult ao)
    (sp_mu2j ao) v (psi_log_rl ao) (sp_mu2rcut ao) (sp2rcut ao).

Definition with_psi_log_rl (v : list (list (list F))) (ao : ao_log) : ao_log :=
  mk_ao_log (rr ao) (pp ao) (nr ao) (nspecies ao) (jmx ao) (sp2nmult ao)
    (sp_mu2j ao) (psi_log ao) v (sp_mu2rcut ao) (sp2rcut ao).

Definition with_sp_mu2rcut (v : list (list F)) (ao : ao_log) : ao_log :=
  mk_ao_log (rr ao) (pp ao) (nr ao) (nspecies ao) (jmx ao) (sp2nmult ao)
    (sp_mu2j ao) (psi_log ao) (psi_log_rl ao) v (sp2rcut ao).

Definition with_sp2rcut (v : list F) (ao : ao_log) : ao_log :=
  mk_ao_log (rr ao) (pp ao) (nr ao) (nspecies ao) (jmx ao) (sp2nmult ao)
    (sp_mu2j ao) (psi_log ao) (psi_log_rl ao) (sp_mu2rcut ao) v.

(** [copy.deepcopy(ao)]: on values a copy is the value itself; the copy
    of the stored objects is [Heap.deepcopy]. *)
Definition deepcopy (ao : ao_log) : ao_log := ao.

(** [ao_pot.psi_log[sp][mu,:] = src] *)
Definition set_psi_log (ao_pot : ao_log) (sp mu : nat) (src : list F)
    : result ao_log :=
  a ← getitem (psi_log ao_pot) sp;
  a' ← setrow a mu src;
  Ok (with_psi_log (<[sp:=a']> (psi_log ao_pot)) ao_pot).

(** [ao_pot.psi_log_rl[sp][mu,:] = src] *)
Definition set_psi_log_rl (ao_pot : ao_log) (sp mu : nat) (src : list F)
    : result ao_log :=
  a ← getitem (psi_log_rl ao_pot) sp;
  a' ← setrow a mu src;
  Ok (with_psi_log_rl (<[sp:=a']> (psi_log_rl ao_pot)) ao_pot).

(** [ao_pot.psi_log_rl[sp][mu,:] = ao_pot.psi_log[sp][mu,:]/(ao.rr**am)]:
    the right-hand side is evaluated before the target is looked up. *)
Definition rescale (ao : ao_log) (ao_pot : ao_log) (sp mu : nat) (am : Z)
    : result ao_log :=
  a ← getitem (psi_log ao_pot) sp;
  row ← getrow a mu;
  q ← np_binop fdiv row (np_pow (rr ao) am);
  set_psi_log_rl ao_pot sp mu q.

(** The two statements that close every solver:
    [for sp in range(ao.nspecies): ao_pot.sp_mu2rcut[sp].fill(ao.rr[-1])]
    and [ao_pot.sp2rcut.fill(ao.rr[-1])]. *)
Definition reset_cutoffs (ao : ao_log) (ao_pot : ao_log) : result ao_log :=
  ao_pot ← for_range (nspecies ao) (λ sp ao_pot,
    mu2rcut ← getitem (sp_mu2rcut ao_pot) sp;
    rmax ← getitem_last (rr ao);
    Ok (with_sp_mu2rcut (<[sp:=np_fill mu2rcut rmax]> (sp_mu2rcut ao_pot)) ao_pot))
    ao_pot;
  rmax ← getitem_last (rr ao);
  Ok (with_sp2rcut (np_fill (sp2rcut ao_pot) rmax) ao_pot).

(** *** [ao_log_hartree_lap]: the double quadrature *)

(** The body of the innermost loop:
    [rrl = min(ao.rr[ir], ao.rr[irp])**am],
    [rrg = max(ao.rr[ir], ao.rr[irp])**(am+1)],
    [vff[ir] = vff[ir] + rrl/rrg * ffrr3[irp]]. *)
Definition lap_accumulate (rr : list F) (ffrr3 : list F) (am : Z)
    (ir irp : nat) (vff : list F) : result (list F) :=
  a ← getitem rr ir;
  b ← getitem rr irp;
  let rrl := py_min a b **. am in
  a' ← getitem rr ir;
  b' ← getitem rr irp;
  let rrg := py_max a' b' **. (am + 1) in
  v ← getitem vff ir;
  f3 ← getitem ffrr3 irp;
  setitem vff ir (v +. rrl /. rrg *. f3).

(** The two nested [for ... in range(ao.nr)] loops, on the grid [rr] of
    [ao] and its number of points [nr]. *)
Definition lap_quadrature (rr : list F) (nr : nat) (ffrr3 : list F) (am : Z)
    (vff : list F) : result (list F) :=
  for_range nr (λ ir vff,
    for_range nr (λ irp vff, lap_accumulate rr ffrr3 am ir irp vff) vff)
    vff.

(** The body of [for mu,[ff,am] in enumerate(zip(mu2ff, ao.sp_mu2j[sp]))]. *)
Definition lap_multiplet (ao : ao_log) (dr : F) (sp mu : nat) (ff : list F)
    (am : Z) (st : ao_log * list F) : result (ao_log * list F) :=
  let '(ao_pot, vff) := st in
  ffrr3 ← np_binop fmul ff (np_pow (rr ao) 3);
  let vff := np_fill vff (of_Z 0) in
  vff ← lap_quadrature (rr ao) (nr ao) ffrr3 am vff;
  ao_pot ← set_psi_log ao_pot sp mu
    (np_scale (of_Z 4 *. fpi *. dr /. (of_Z (2 * am) +. of_Z 1)) vff);
  ao_pot ← rescale ao ao_pot sp mu am;
  Ok (ao_pot, vff).

Definition ao_log_hartree_lap (ao : ao_log) : result ao_log :=
  let ao_pot := deepcopy ao in
  r1 ← getitem (rr ao) 1;
  r0 ← getitem (rr ao) 0;
  let dr := flog (r1 /. r0) in
  let vff := np_zeros (nr ao) in
  '(ao_pot, vff) ← for_enumerate (λ sp mu2ff st,
      mu2j ← getitem (sp_mu2j ao) sp;
      for_enumerate (λ mu '(ff, am) st, lap_multiplet ao dr sp mu ff am st)
        0 (zip mu2ff mu2j) st)
    0 (psi_log ao) (ao_pot, vff);
  reset_cutoffs ao ao_pot.

(** *** [ao_log_hartree_sbt]: the spherical Bessel transform *)

(** The body of [for mu,[ff,am] in enumerate(zip(mu2ff, ao.sp_mu2j[sp]))]:
    [ao_pot.psi_log[sp][mu,:] =
       (4*np.pi) * sbt.sbt( sbt.sbt( ff, am, 1)/ao.pp**2, am, -1)]
    and the rescaled copy. *)
Definition sbt_multiplet (ao : ao_log) (e : sbt_c F) (sp mu : nat)
    (ff : list F) (am : Z) (ao_pot : ao_log) : result ao_log :=
  q ← np_binop fdiv (sbt e ff am 1) (np_pow (pp ao) 2);
  ao_pot ← set_psi_log ao_pot sp mu
    (np_scale (of_Z 4 *. fpi) (sbt e q am (-1)));
  rescale ao ao_pot sp mu am.

Definition ao_log_hartree_sbt (ao : ao_log) : result ao_log :=
  let e := sbt_init (rr ao) (pp ao) (jmx ao) in
  let ao_pot := deepcopy ao in
  ao_pot ← for_enumerate (λ sp mu2ff ao_pot,
      mu2j ← getitem (sp_mu2j ao) sp;
      for_enumerate (λ mu '(ff, am) ao_pot, sbt_multiplet ao e sp mu ff am ao_pot)
        0 (zip mu2ff mu2j) ao_pot)
    0 (psi_log ao) ao_pot;
  reset_cutoffs ao ao_pot.

(** *** [ao_log_hartree_lap_libnao]: the call into the compiled library *)

(** Modelled from the spec: the constructor call [ao_log(ao_log=ao)] of
    [pyscf.nao.ao_log], a class of this repository whose source is not
    in this module; the potential set is created as a deep, independent
    copy of the argument. *)
Definition ao_log_init (ao : ao_log) : ao_log := deepcopy ao.

(** The body of [for sp in range(ao.nspecies)]. *)
Definition libnao_species (ao : ao_log) (sp : nat) (ao_pot : ao_log)
    : result ao_log :=
  mu2j ← getitem (sp_mu2j ao) sp;
  ff_rad ← getitem (psi_log ao) sp;
  ff_pot ← getitem (psi_log ao_pot) sp;
  nmult ← getitem (sp2nmult ao) sp;
  let ff_pot :=
    ao_hartree_lap (rr ao) nmult ff_rad (Z.of_nat (nr ao)) mu2j ff_pot in
  psi ← setitem (psi_log ao_pot) sp ff_pot;
  let ao_pot := with_psi_log psi ao_pot in
  mu2j ← getitem (sp_mu2j ao) sp;
  for_enumerate (λ mu am ao_pot, rescale ao ao_pot sp mu am) 0 mu2j ao_pot.

Definition ao_log_hartree_lap_libnao (ao : ao_log) : result ao_log :=
  let ao_pot := ao_log_init ao in
  ao_pot ← for_range (nspecies ao) (libnao_species ao) ao_pot;
  reset_cutoffs ao ao_pot.

(** *** [ao_log_hartree]: the dispatcher *)

(** The solver calls a run of the dispatcher performs. *)
Inductive call : Type :=
  | Call_ao_log_hartree_lap_libnao
  | Call_ao_log_hartree_sbt
  | Call_ao_log_hartree_lap.

(** The upper case of one character. *)
Definition upper_char (c : N) : list N :=
  if (c <? 128)%N
  then [if (97 <=? c)%N && (c <=? 122)%N then (c - 32)%N else c]
  else to_upper c.

(** [s.upper()] *)
Definition upper (s : list N) : list N := c ← s; upper_char c.

(** The dispatcher returns the calls it made together with its outcome. *)
Definition ao_log_hartree (ao : ao_log) (ao_log_hartree_method : list N)
    : list call * result ao_log :=
  if decide (upper ao_log_hartree_method = literal "LAP")
  then ([Call_ao_log_hartree_lap_libnao], ao_log_hartree_lap_libnao ao)
  else if decide (upper ao_log_hartree_method = literal "SBT")
  then ([Call_ao_log_hartree_sbt], ao_log_hartree_sbt ao)
  else ([], Raise (RuntimeError "!method")).

End Solvers.

Arguments ao_log F : clear implicits.

(** * Closed forms and well-formed inputs *)

Section Closed.
Context {F : Type} `{FloatOps F} `{SbtEngine F} `{Libnao F}.

(** The sum [x0 + g 0 + g 1 + ... + g (n-1)], added from left to right as
    an accumulation loop does. *)
Fixpoint fsum_from (x0 : F) (n : nat) (g : nat → F) : F :=
  match n with
  | O => x0
  | S n' => fsum_from x0 n' g +. g n'
  end.

Definition fsum (n : nat) (g : nat → F) : F := fsum_from (of_Z 0) n g.

(** [a[i]] in a statement, where the index is known to be in range. *)
Definition at_ (a : list F) (i : nat) : F := nth i a (of_Z 0).

(** [x] is not above [y]: the two are the same float, or [x < y] holds
    and [y < x] fails. *)
Definition not_above (x y : F) : Prop :=
  x = y ∨ fltb x y = true ∧ fltb y x = false.

(** The term the quadrature adds to [vff[ir]] at [irp]. *)
Definition lap_term (rr ffrr3 : list F) (am : Z) (ir irp : nat) : F :=
  py_min (at_ rr ir) (at_ rr irp) **. am
    /. py_max (at_ rr ir) (at_ rr irp) **. (am + 1) *. at_ ffrr3 irp.

Definition lap_dr (rr : list F) : F := flog (at_ rr 1 /. at_ rr 0).

Definition lap_prefactor (dr : F) (am : Z) : F :=
  of_Z 4 *. fpi *. dr /. (of_Z (2 * am) +. of_Z 1).

(** The row [ao_log_hartree_lap] stores for the radial function [ff] of
    angular momentum [am]. *)
Definition lap_row (ao : ao_log F) (ff : list F) (am : Z) : list F :=
  np_scale (lap_prefactor (lap_dr (rr ao)) am)
    (map (λ ir, fsum (nr ao)
                  (lap_term (rr ao) (zip_with fmul ff (np_pow (rr ao) 3)) am ir))
       (seq 0 (nr ao))).

(** The row [ao_log_hartree_sbt] stores. *)
Definition sbt_row (ao : ao_log F) (ff : list F) (am : Z) : list F :=
  let e := sbt_init (rr ao) (pp ao) (jmx ao) in
  np_scale (of_Z 4 *. fpi)
    (sbt e (zip_with fdiv (sbt e ff am 1) (np_pow (pp ao) 2)) am (-1)).

(** The rescaled copy of a row. *)
Definition rl_row (rr : list F) (row : list F) (am : Z) : list F :=
  zip_with fdiv row (np_pow rr am).

Definition potential_rows (rowf : list F → Z → list F) (ao : ao_log F)
    : list (list (list F)) :=
  zip_with (zip_with rowf) (psi_log ao) (sp_mu2j ao).

Definition potential_rows_rl (rowf : list F → Z → list F) (ao : ao_log F)
    : list (list (list F)) :=
  zip_with (zip_with (λ ff am, rl_row (rr ao) (rowf ff am) am))
    (psi_log ao) (sp_mu2j ao).

Definition cutoffs_reset (ao : ao_log F) (ao_pot : ao_log F) : ao_log F :=
  let rmax := at_ (rr ao) (length (rr ao) - 1) in
  with_sp2rcut (np_fill (sp2rcut ao_pot) rmax)
    (with_sp_mu2rcut (map (λ a, np_fill a rmax) (sp_mu2rcut ao_pot)) ao_pot).

(** The potential set whose row for the radial function [ff] of angular
    momentum [am] is [rowf ff am]: the rows, their rescaled copies and
    the cutoffs at the last grid point, in a copy of [ao]. *)
Definition potential_set (rowf : list F → Z → list F) (ao : ao_log F)
    : ao_log F :=
  cutoffs_reset ao
    (with_psi_log_rl (potential_rows_rl rowf ao)
       (with_psi_log (potential_rows rowf ao) ao)).

(** The arrays [ao_log_hartree_lap_libnao] receives from the library,
    species by species; the output buffer starts as a copy of the radial
    functions. *)
Definition libnao_rows (ao : ao_log F) : list (list (list F)) :=
  zip_with (λ '(ff_rad, mu2j) nmult,
      ao_hartree_lap (rr ao) nmult ff_rad (Z.of_nat (nr ao)) mu2j ff_rad)
    (zip (psi_log ao) (sp_mu2j ao)) (sp2nmult ao).

Definition libnao_set (ao : ao_log F) : ao_log F :=
  cutoffs_reset ao
    (with_psi_log_rl
       (zip_with (zip_with (rl_row (rr ao))) (libnao_rows ao) (sp_mu2j ao))
       (with_psi_log (libnao_rows ao) ao)).

(** Every row of a two-dimensional array has [n] columns. *)
Definition rows_of (n : nat) (a : list (list F)) : bool :=
  forallb (λ row, length row =? n) a.

(** Species by species: the arrays of radial functions have [n] columns
    and one row per angular momentum. *)
Fixpoint wf_species (n : nat) (P Q : list (list (list F)))
    (J : list (list Z)) : bool :=
  match P, Q, J with
  | [], [], [] => true
  | a :: P', b :: Q', mu2j :: J' =>
      rows_of n a && rows_of n b && (length b =? length a)
      && (length mu2j =? length a) && wf_species n P' Q' J'
  | _, _, _ => false
  end.

(** The shape of a well-formed orbital set: at least two grid points,
    both grids of [nr] points, [nspecies] entries in every per-species
    sequence, and radial functions sampled on the grid. *)
Definition wf_ao (ao : ao_log F) : bool :=
  (2 <=? nr ao) && (length (rr ao) =? nr ao) && (length (pp ao) =? nr ao)
  && (length (psi_log ao) =? nspecies ao)
  && (length (sp_mu2rcut ao) =? nspecies ao)
  && (length (sp2rcut ao) =? nspecies ao)
  && (length (sp2nmult ao) =? nspecies ao)
  && wf_species (nr ao) (psi_log ao) (psi_log_rl ao) (sp_mu2j ao).

(** The largest angular momentum of the orbital set (angular momenta
    are not negative). *)
Definition max_angular_momentum (ao : ao_log F) : Z :=
  foldr Z.max 0%Z (concat (sp_mu2j ao)).

(** [ao_pot] has the shape of [ao]: the same grids, counts and angular
    momenta, and arrays of the same dimensions. *)
Definition same_shape (ao ao_pot : ao_log F) : Prop :=
  nspecies ao_pot = nspecies ao ∧ nr ao_pot = nr ao ∧
  rr ao_pot = rr ao ∧ pp ao_pot = pp ao ∧ jmx ao_pot = jmx ao ∧
  sp2nmult ao_pot = sp2nmult ao ∧ sp_mu2j ao_pot = sp_mu2j ao ∧
  map (map length) (psi_log ao_pot) = map (map length) (psi_log ao) ∧
  map (map length) (psi_log_rl ao_pot) = map (map length) (psi_log_rl ao) ∧
  map length (sp_mu2rcut ao_pot) = map length (sp_mu2rcut ao) ∧
  length (sp2rcut ao_pot) = length (sp2rcut ao).

(** [a[mu][ir]] and [a[sp][mu][ir]] in a statement. *)
Definition get2 (a : list (list F)) (mu ir : nat) : option F :=
  match a !! mu with
  | Some row => row !! ir
  | None => None
  end.

Definition get3 (a : list (list (list F))) (sp mu ir : nat) : option F :=
  match a !! sp with
  | Some rows => get2 rows mu ir
  | None => None
  end.

(** What [wf_ao] says, as propositions. *)
Record wf_facts (ao : ao_log F) : Prop := {
  wf_nr : 2 ≤ nr ao;
  wf_rr : length (rr ao) = nr ao;
  wf_pp : length (pp ao) = nr ao;
  wf_psi_log : length (psi_log ao) = nspecies ao;
  wf_psi_log_rl : length (psi_log_rl ao) = nspecies ao;
  wf_sp_mu2j : length (sp_mu2j ao) = nspecies ao;
  wf_sp_mu2rcut : length (sp_mu2rcut ao) = nspecies ao;
  wf_sp2rcut : length (sp2rcut ao) = nspecies ao;
  wf_sp2nmult : length (sp2nmult ao) = nspecies ao;
  wf_lookup : ∀ sp a, psi_log ao !! sp = Some a →
    ∃ b mu2j, psi_log_rl ao !! sp = Some b ∧ sp_mu2j ao !! sp = Some mu2j ∧
      Forall (λ row, length row = nr ao) a ∧
      Forall (λ row, length row = nr ao) b ∧
      length b = length a ∧ length mu2j = length a
}.

(** The body of a solver's inner loop, on a state [st] that holds the
    potential set [proj st], stores the row [rowf ff am] and its rescaled
    copy, and keeps the invariant [Inv] of the state. *)
Definition stores {St : Type} (proj : St → ao_log F) (Inv : St → Prop)
    (body : nat → nat → list F → Z → St → result St)
    (rowf : list F → Z → list F) (ao : ao_log F)
    (sp mu : nat) (ff : list F) (am : Z) : Prop :=
  ∀ st X, Inv st →
    set_psi_log (proj st) sp mu (rowf ff am)
      ≫= (λ x, rescale ao x sp mu am) = Ok X →
    ∃ st', body sp mu ff am st = Ok st' ∧ Inv st' ∧ proj st' = X.

End Closed.

(** * The solvers on a store of mutable objects

    The values of the first layer cannot tell a copy from an alias.
    Here the arrays, the lists and the [ao_log] instances are objects in
    a store, referred to by their locations; a solver takes the location
    of its argument and returns the location of its result.  The store
    only grows: an allocation appends an object. *)

Module Heap.

Definition loc : Type := nat.

(** The memo of [deepcopy]: the copies made so far. *)
Abbreviation memo := (gmap loc loc).

(** An [ao_log] instance: the references its attributes hold (and the
    integers, which are immutable). *)
Record ao_obj : Type := mk_ao_obj {
  rr_ref : loc;
  pp_ref : loc;
  nr : nat;
  nspecies : nat;
  jmx : Z;
  sp2nmult_ref : loc;
  sp_mu2j_ref : loc;
  psi_log_ref : loc;
  psi_log_rl_ref : loc;
  sp_mu2rcut_ref : loc;
  sp2rcut_ref : loc
}.

Section Defs.
Context {F : Type} `{FloatOps F} `{SbtEngine F}.

Inductive obj : Type :=
  | Floats (a : list F)           (* ndarray of float64, one dimension *)
  | Ints (a : list Z)             (* ndarray of integers, one dimension *)
  | Floats2 (a : list (list F))   (* ndarray of float64, two dimensions *)
  | PyList (items : list loc)     (* list of references *)
  | AoLog (o : ao_obj).

(** The store is the list of the objects allocated so far; a location
    is an index in it. *)
Abbreviation store := (list obj).

(** Computations on the store; the store survives an exception. *)
Definition hm (A : Type) : Type := store → result A * store.

#[global] Instance hm_ret : MRet hm := λ A a h, (Ok a, h).
#[global] Instance hm_bind : MBind hm := λ A B f m h,
  match m h with
  | (Ok a, h') => f a h'
  | (Raise e, h') => (Raise e, h')
  end.

Definition lift {A : Type} (r : result A) : hm A := λ h, (r, h).

Definition alloc (o : obj) : hm loc := λ h, (Ok (length h), h ++ [o]).

Definition load (l : loc) : hm obj := λ h,
  match h !! l with
  | Some o => (Ok o, h)
  | None => (Raise TypeError, h)
  end.

Definition load_floats (l : loc) : hm (list F) :=
  o ← load l;
  match o with Floats a => mret a | _ => lift (Raise TypeError) end.

Definition load_ints (l : loc) : hm (list Z) :=
  o ← load l;
  match o with Ints a => mret a | _ => lift (Raise TypeError) end.

Definition load_floats2 (l : loc) : hm (list (list F)) :=
  o ← load l;
  match o with Floats2 a => mret a | _ => lift (Raise TypeError) end.

Definition load_list (l : loc) : hm (list loc) :=
  o ← load l;
  match o with PyList items => mret items | _ => lift (Raise TypeError) end.

Definition load_ao (l : loc) : hm ao_obj :=
  o ← load l;
  match o with AoLog o => mret o | _ => lift (Raise TypeError) end.

(** The data of the array at [l] becomes [o]. *)
Definition write (l : loc) (o : obj) : hm unit := λ h, (Ok (), <[l:=o]> h).

(** *** [copy.deepcopy] *)

(** The deep copy of an array: a new array with the same data, unless
    the memo has a copy already. *)
Definition copy_array (m : memo) (l : loc) : hm (loc * memo) :=
  match m !! l with
  | Some l' => mret (l', m)
  | None =>
      o ← load l;
      match o with
      | Floats _ | Ints _ | Floats2 _ => l' ← alloc o; mret (l', <[l:=l']> m)
      | _ => lift (Raise TypeError)
      end
  end.

(** The deep copy of a list of arrays. *)
Definition copy_list (m : memo) (l : loc) : hm (loc * memo) :=
  match m !! l with
  | Some l' => mret (l', m)
  | None =>
      items ← load_list l;
      '(items', m) ← for_enumerate (λ _ x '(items', m),
          '(x', m) ← copy_array m x; mret (items' ++ [x'], m))
        0 items ([], m);
      l' ← alloc (PyList items');
      mret (l', <[l:=l']> m)
  end.

(** The deep copy of an [ao_log] instance, attribute by attribute with
    one memo. *)
Definition deepcopy (ao : loc) : hm loc :=
  o ← load_ao ao;
  '(rr', m) ← copy_array ∅ (rr_ref o);
  '(pp', m) ← copy_array m (pp_ref o);
  '(sp2nmult', m) ← copy_array m (sp2nmult_ref o);
  '(sp_mu2j', m) ← copy_list m (sp_mu2j_ref o);
  '(psi_log', m) ← copy_list m (psi_log_ref o);
  '(psi_log_rl', m) ← copy_list m (psi_log_rl_ref o);
  '(sp_mu2rcut', m) ← copy_list m (sp_mu2rcut_ref o);
  '(sp2rcut', m) ← copy_array m (sp2rcut_ref o);
  alloc (AoLog (mk_ao_obj rr' pp' (nr o) (nspecies o) (jmx o) sp2nmult'
                  sp_mu2j' psi_log' psi_log_rl' sp_mu2rcut' sp2rcut')).

(** *** Attribute and subscript reads and writes *)

(** [ao.rr] *)
Definition get_rr (ao : loc) : hm (list F) :=
  o ← load_ao ao; load_floats (rr_ref o).

(** [ao.pp] *)
Definition get_pp (ao : loc) : hm (list F) :=
  o ← load_ao ao; load_floats (pp_ref o).

(** [lst[i]] for a list of references *)
Definition item (lst : loc) (i : nat) : hm loc :=
  items ← load_list lst; lift (getitem items i).

(** [a[mu,:]] *)
Definition load_row (a : loc) (mu : nat) : hm (list F) :=
  rows ← load_floats2 a; lift (getrow rows mu).

(** [a[mu,:] = src] *)
Definition store_row (a : loc) (mu : nat) (src : list F) : hm unit :=
  rows ← load_floats2 a;
  rows' ← lift (setrow rows mu src);
  write a (Floats2 rows').

(** [a.fill(v)] *)
Definition fill (a : loc) (v : F) : hm unit :=
  data ← load_floats a; write a (Floats (np_fill data v)).

(** [ao_pot.psi_log[sp][mu,:] = src] *)
Definition set_psi_log (ao_pot : loc) (sp mu : nat) (src : list F) : hm unit :=
  o ← load_ao ao_pot;
  a ← item (psi_log_ref o) sp;
  store_row a mu src.

(** [ao_pot.psi_log_rl[sp][mu,:] = src] *)
Definition set_psi_log_rl (ao_pot : loc) (sp mu : nat) (src : list F)
    : hm unit :=
  o ← load_ao ao_pot;
  a ← item (psi_log_rl_ref o) sp;
  store_row a mu src.

(** [ao_pot.psi_log_rl[sp][mu,:] = ao_pot.psi_log[sp][mu,:]/(ao.rr**am)] *)
Definition rescale (ao ao_pot : loc) (sp mu : nat) (am : Z) : hm unit :=
  o ← load_ao ao_pot;
  a ← item (psi_log_ref o) sp;
  row ← load_row a mu;
  rr ← get_rr ao;
  q ← lift (np_binop fdiv row (np_pow rr am));
  set_psi_log_rl ao_pot sp mu q.

(** [ao.rr[-1]] *)
Definition rr_last (ao : loc) : hm F :=
  rr ← get_rr ao; lift (getitem_last rr).

Definition reset_cutoffs (ao ao_pot : loc) : hm unit :=
  o ← load_ao ao;
  _ ← for_range (nspecies o) (λ sp _,
        op ← load_ao ao_pot;
        mu2rcut ← item (sp_mu2rcut_ref op) sp;
        rmax ← rr_last ao;
        fill mu2rcut rmax) ();
  op ← load_ao ao_pot;
  rmax ← rr_last ao;
  fill (sp2rcut_ref op) rmax.

(** The iteration [enumerate(zip(mu2ff, ao.sp_mu2j[sp]))] on the arrays
    at [mu2ff] and [mu2j]: as many steps as the shorter has entries; a
    step reads the row and the angular momentum it is at. *)
Definition zip_steps (mu2ff mu2j : loc) : hm nat :=
  rows ← load_floats2 mu2ff;
  js ← load_ints mu2j;
  mret (length rows `min` length js).

Definition zip_step (mu2ff mu2j : loc) (mu : nat) : hm (list F * Z) :=
  ff ← load_row mu2ff mu;
  js ← load_ints mu2j;
  am ← lift (getitem js mu);
  mret (ff, am).

(** *** [ao_log_hartree_lap] *)

(** The array [vff] and the temporaries are local to the solver: no
    other object refers to them, and they are values here. *)
Definition lap_multiplet (ao ao_pot : loc) (dr : F) (sp mu : nat)
    (mu2ff mu2j : loc) (vff : list F) : hm (list F) :=
  '(ff, am) ← zip_step mu2ff mu2j mu;
  rr ← get_rr ao;
  ffrr3 ← lift (np_binop fmul ff (np_pow rr 3));
  let vff := np_fill vff (of_Z 0) in
  o ← load_ao ao;
  rr ← get_rr ao;
  vff ← lift (lap_quadrature rr (nr o) ffrr3 am vff);
  _ ← set_psi_log ao_pot sp mu
        (np_scale (of_Z 4 *. fpi *. dr /. (of_Z (2 * am) +. of_Z 1)) vff);
  _ ← rescale ao ao_pot sp mu am;
  mret vff.

Definition ao_log_hartree_lap (ao : loc) : hm loc :=
  ao_pot ← deepcopy ao;
  rr ← get_rr ao;
  r1 ← lift (getitem rr 1);
  rr ← get_rr ao;
  r0 ← lift (getitem rr 0);
  let dr := flog (r1 /. r0) in
  o ← load_ao ao;
  let vff := np_zeros (nr o) in
  psi ← load_list (psi_log_ref o);
  _ ← for_enumerate (λ sp mu2ff vff,
        o ← load_ao ao;
        mu2j ← item (sp_mu2j_ref o) sp;
        n ← zip_steps mu2ff mu2j;
        for_range n (λ mu vff,
          lap_multiplet ao ao_pot dr sp mu mu2ff mu2j vff) vff)
      0 psi vff;
  _ ← reset_cutoffs ao ao_pot;
  mret ao_pot.

(** *** [ao_log_hartree_sbt] *)

Definition sbt_multiplet (ao ao_pot : loc) (e : sbt_c F) (sp mu : nat)
    (mu2ff mu2j : loc) : hm unit :=
  '(ff, am) ← zip_step mu2ff mu2j mu;
  pp ← get_pp ao;
  q ← lift (np_binop fdiv (sbt e ff am 1) (np_pow pp 2));
  _ ← set_psi_log ao_pot sp mu (np_scale (of_Z 4 *. fpi) (sbt e q am (-1)));
  rescale ao ao_pot sp mu am.

Definition ao_log_hartree_sbt (ao : loc) : hm loc :=
  o ← load_ao ao;
  rr ← get_rr ao;
  pp ← get_pp ao;
  let e := sbt_init rr pp (jmx o) in
  ao_pot ← deepcopy ao;
  o ← load_ao ao;
  psi ← load_list (psi_log_ref o);
  _ ← for_enumerate (λ sp mu2ff _,
        o ← load_ao ao;
        mu2j ← item (sp_mu2j_ref o) sp;
        n ← zip_steps mu2ff mu2j;
        for_range n (λ mu _,
          sbt_multiplet ao ao_pot e sp mu mu2ff mu2j) ())
      0 psi ();
  _ ← reset_cutoffs ao ao_pot;
  mret ao_pot.

(** *** What a reference reaches *)

Definition items_of (h : store) (l : loc) : list loc :=
  match h !! l with
  | Some (PyList items) => items
  | _ => []
  end.

(** The locations of the objects of the instance at [ao], in the order
    [deepcopy] visits them: the arrays and the lists its attributes refer
    to, the arrays in these lists, and the instance. *)
Definition reach (h : store) (ao : loc) : list loc :=
  match h !! ao with
  | Some (AoLog o) =>
      [rr_ref o; pp_ref o; sp2nmult_ref o; sp_mu2j_ref o]
      ++ items_of h (sp_mu2j_ref o)
      ++ [psi_log_ref o] ++ items_of h (psi_log_ref o)
      ++ [psi_log_rl_ref o] ++ items_of h (psi_log_rl_ref o)
      ++ [sp_mu2rcut_ref o] ++ items_of h (sp_mu2rcut_ref o)
      ++ [sp2rcut_ref o; ao]
  | _ => [ao]
  end.

(** *** Invariants of a run *)

(** The references an object holds. *)
Definition refs_of (o : obj) : list loc :=
  match o with
  | PyList items => items
  | AoLog o =>
      [rr_ref o; pp_ref o; sp2nmult_ref o; sp_mu2j_ref o; psi_log_ref o;
       psi_log_rl_ref o; sp_mu2rcut_ref o; sp2rcut_ref o]
  | _ => []
  end.

(** [h] extends the store [h0] a call started in: the objects of [h0]
    are as they were, and no object allocated since refers to one of
    them. *)
Definition extends (h0 h : store) : Prop :=
  h0 `prefix_of` h ∧
  ∀ l o x, length h0 ≤ l → h !! l = Some o → x ∈ refs_of o → length h0 ≤ x.

(** From a store that extends [h0], the computation [m] ends in a store
    that extends [h0], whether it returns or raises; what it returns
    satisfies [post]. *)
Definition keeps {A : Type} (h0 : store) (m : hm A) (post : A → Prop) : Prop :=
  ∀ h, extends h0 h →
    extends h0 (m h).2 ∧ ∀ a, (m h).1 = Ok a → post a.

(** The copies a memo holds were allocated since [h0]. *)
Definition memo_fresh (h0 : store) (m : memo) : Prop :=
  ∀ l l', m !! l = Some l' → length h0 ≤ l'.

(** A computation that leaves the store as it is. *)
Definition reads {A : Type} (m : hm A) : Prop := ∀ h, (m h).2 = h.

End Defs.

Arguments obj F : clear implicits.
Arguments hm F A : clear implicits.

Abbreviation store F := (list (obj F)).

End Heap.

(** * Stored orbital sets and their values *)

Section Repr.
Context {F : Type}.

(** Where the parts of a stored [ao_log] instance are: the instance
    itself, and the arrays its four lists refer to. *)
Record layout : Type := mk_layout {
  lo_obj : Heap.ao_obj;
  lo_sp_mu2j : list Heap.loc;
  lo_psi_log : list Heap.loc;
  lo_psi_log_rl : list Heap.loc;
  lo_sp_mu2rcut : list Heap.loc
}.

(** The locations of a stored instance at [p], in the order of
    [Heap.reach]. *)
Definition layout_locs (p : Heap.loc) (L : layout) : list Heap.loc :=
  [Heap.rr_ref (lo_obj L); Heap.pp_ref (lo_obj L);
   Heap.sp2nmult_ref (lo_obj L); Heap.sp_mu2j_ref (lo_obj L)]
  ++ lo_sp_mu2j L
  ++ [Heap.psi_log_ref (lo_obj L)] ++ lo_psi_log L
  ++ [Heap.psi_log_rl_ref (lo_obj L)] ++ lo_psi_log_rl L
  ++ [Heap.sp_mu2rcut_ref (lo_obj L)] ++ lo_sp_mu2rcut L
  ++ [Heap.sp2rcut_ref (lo_obj L); p].

(** The arrays at [ls] hold the values [vs], one by one. *)
Definition arrays {A : Type} (mk : A → Heap.obj F) (h : Heap.store F)
    (ls : list Heap.loc) (vs : list A) : Prop :=
  Forall2 (λ l a, h !! l = Some (mk a)) ls vs.

(** In the store [h] the instance at [p], laid out as [L], has the value
    [X]. *)
Record holds (h : Heap.store F) (p : Heap.loc) (L : layout) (X : ao_log F)
    : Prop := mk_holds {
  holds_obj : h !! p = Some (Heap.AoLog (lo_obj L));
  holds_nr : Heap.nr (lo_obj L) = nr X;
  holds_nspecies : Heap.nspecies (lo_obj L) = nspecies X;
  holds_jmx : Heap.jmx (lo_obj L) = jmx X;
  holds_rr : h !! Heap.rr_ref (lo_obj L) = Some (Heap.Floats (rr X));
  holds_pp : h !! Heap.pp_ref (lo_obj L) = Some (Heap.Floats (pp X));
  holds_sp2nmult :
    h !! Heap.sp2nmult_ref (lo_obj L) = Some (Heap.Ints (sp2nmult X));
  holds_sp_mu2j_list :
    h !! Heap.sp_mu2j_ref (lo_obj L) = Some (Heap.PyList (lo_sp_mu2j L));
  holds_psi_log_list :
    h !! Heap.psi_log_ref (lo_obj L) = Some (Heap.PyList (lo_psi_log L));
  holds_psi_log_rl_list :
    h !! Heap.psi_log_rl_ref (lo_obj L) = Some (Heap.PyList (lo_psi_log_rl L));
  holds_sp_mu2rcut_list :
    h !! Heap.sp_mu2rcut_ref (lo_obj L) = Some (Heap.PyList (lo_sp_mu2rcut L));
  holds_sp2rcut :
    h !! Heap.sp2rcut_ref (lo_obj L) = Some (Heap.Floats (sp2rcut X));
  holds_sp_mu2j : arrays Heap.Ints h (lo_sp_mu2j L) (sp_mu2j X);
  holds_psi_log : arrays Heap.Floats2 h (lo_psi_log L) (psi_log X);
  holds_psi_log_rl : arrays Heap.Floats2 h (lo_psi_log_rl L) (psi_log_rl X);
  holds_sp_mu2rcut : arrays Heap.Floats h (lo_sp_mu2rcut L) (sp_mu2rcut X)
}.

(** During a call that started in [h0]: the store extends [h0] and the
    result under construction at [p] has the value [X]. *)
Definition tracks (h0 : Heap.store F) (p : Heap.loc) (L : layout)
    (h : Heap.store F) (X : ao_log F) : Prop :=
  h0 `prefix_of` h ∧ holds h p L X.

(** The objects [copy.deepcopy] copies as a whole. *)
Definition is_array (o : Heap.obj F) : Prop :=
  match o with
  | Heap.Floats _ | Heap.Ints _ | Heap.Floats2 _ => True
  | _ => False
  end.

(** The keys of a memo are among [K]. *)
Definition memo_keys (m : gmap Heap.loc Heap.loc) (K : list Heap.loc) : Prop :=
  ∀ x, is_Some (m !! x) → In x K.

End Repr.

Arguments layout : clear implicits.

(** * Exact arithmetic

    The operations on [R]: the arithmetic in which the formulas of the
    documentation are written.  It is not the arithmetic of the machine,
    which is [binary64] below: nothing is rounded, there is no infinity,
    and the quotient by zero and the logarithm of a number that is not
    positive are the conventional values of the library.  It gives the
    statements proved for every arithmetic an instance to be applied
    to. *)

#[global] Instance R_ops : FloatOps R := {|
  of_Z := IZR;
  fadd := Rplus;
  fmul := Rmult;
  fdiv := Rdiv;
  fpow := powerRZ;
  flog := ln;
  fpi := PI;
  fltb := λ x y, if Rlt_dec x y then true else false
|}.

(** An engine and a library routine that return their argument; they
    give the statements on every engine an instance to be applied to. *)
Definition unit_engine : SbtEngine R := {|
  sbt_c := unit;
  sbt_init := λ _ _ _, tt;
  sbt := λ _ ff _ _, ff
|}.

Definition unit_libnao : Libnao R := {|
  ao_hartree_lap := λ _ _ _ _ _ mu2vh, mu2vh
|}.

(** The grid [rr = [1, 2, 4, 8]] with one species and the single
    multiplet [j = 0], [f = [1, 1, 1, 1]]. *)
Definition ao_4pt : ao_log R :=
  mk_ao_log [1; 2; 4; 8]%R [1; 2; 4; 8]%R 4 1 0 [1%Z] [[0%Z]]
    [[[1; 1; 1; 1]%R]] [[[1; 1; 1; 1]%R]] [[3%R]] [5%R].

(** The same orbital on a grid that is not logarithmic beyond its first
    two points. *)
Definition ao_4pt_uneven : ao_log R :=
  mk_ao_log [1; 2; 16; 17]%R [1; 2; 4; 8]%R 4 1 0 [1%Z] [[0%Z]]
    [[[1; 1; 1; 1]%R]] [[[1; 1; 1; 1]%R]] [[3%R]] [5%R].

(** A store that holds [ao_4pt], at location 12: its arrays, the lists
    of its per-species arrays, and the instance. *)
Definition obj_4pt : Heap.ao_obj :=
  Heap.mk_ao_obj 0 1 4 1 0 2 4 6 8 10 11.

Definition store_4pt : Heap.store R :=
  [ Heap.Floats [1; 2; 4; 8]%R; Heap.Floats [1; 2; 4; 8]%R;
    Heap.Ints [1%Z];
    Heap.Ints [0%Z]; Heap.PyList [3];
    Heap.Floats2 [[1; 1; 1; 1]%R]; Heap.PyList [5];
    Heap.Floats2 [[1; 1; 1; 1]%R]; Heap.PyList [7];
    Heap.Floats [3%R]; Heap.PyList [9];
    Heap.Floats [5%R];
    Heap.AoLog obj_4pt ].

Definition layout_4pt : layout := mk_layout obj_4pt [3] [5] [7] [9].

(** A library routine that computes the rows of the double quadrature
    into a buffer of their shape (and leaves any other buffer). *)
Definition quadrature_libnao : Libnao R := {|
  ao_hartree_lap := λ rr nmult mu2ff n mu2j mu2vh,
    let rows :=
      zip_with (lap_row (mk_ao_log rr [] (Z.to_nat n) 0 0 [] [] [] [] [] []))
        mu2ff mu2j in
    if decide (length <$> rows = length <$> mu2vh) then rows else mu2vh
|}.

(** A transform engine whose inverse transform returns the rows of the
    double quadrature over [4 pi] (for arguments on the grid), and whose
    forward transform returns its argument. *)
Definition quadrature_engine : SbtEngine R := {|
  sbt_c := list R;
  sbt_init := λ rr _ _, rr;
  sbt := λ e ff am d,
    if decide (d = 1%Z) then ff
    else
      let y := map (λ x, (x / (4 * PI))%R)
                 (lap_row (mk_ao_log e [] (length e) 0 0 [] [] [] [] [] [])
                    ff am) in
      if decide (length y = length ff) then y else ff
|}.

(** [ao_4pt] with a reciprocal grid of ones. *)
Definition ao_4pt_unit_pp : ao_log R :=
  mk_ao_log [1; 2; 4; 8]%R [1; 1; 1; 1]%R 4 1 0 [1%Z] [[0%Z]]
    [[[1; 1; 1; 1]%R]] [[[1; 1; 1; 1]%R]] [[3%R]] [5%R].

(** The table of an interpreter for which no character beyond ASCII has
    an upper case, as for byte strings. *)
Definition ascii_only : UnicodeData := {| to_upper := λ c, [c] |}.

(** * The arithmetic of the machine: IEEE 754 binary64 *)

Module Binary64.
Import PrimFloat SpecFloat.
#[local] Open Scope Z_scope.

(** The float nearest to [m * 2^e], ties to even. *)
Definition round (m e : Z) : float :=
  FloatOps.SF2Prim (binary_normalize FloatOps.prec FloatOps.emax m e false).

(** The conversion of an integer. *)
Definition float_of_Z (n : Z) : float := round n 0.

(** [x ** n] for an integer [n] other than zero: the power of C's [pow],
    taken as the exact power rounded to the nearest float; the special
    values are those of Annex F of the C standard. *)
Definition pown (x : float) (n : Z) : float :=
  match FloatOps.Prim2SF x with
  | S754_nan => nan
  | S754_zero s =>
      FloatOps.SF2Prim (if 0 <? n then S754_zero (s && Z.odd n)
                        else S754_infinity (s && Z.odd n))
  | S754_infinity s =>
      FloatOps.SF2Prim (if 0 <? n then S754_infinity (s && Z.odd n)
                        else S754_zero (s && Z.odd n))
  | S754_finite s m e =>
      let p := Z.to_pos (Z.abs n) in
      FloatOps.SF2Prim
        (if 0 <? n
         then binary_round FloatOps.prec FloatOps.emax
                (s && Z.odd n) (m ^ p) (e * Z.abs n)
         else SFdiv FloatOps.prec FloatOps.emax
                (S754_finite (s && Z.odd n) 1 0)
                (S754_finite false (m ^ p) (e * Z.abs n)))
  end.

(** [x ** y] for an infinite [y], of sign [s]. *)
Definition pow_inf (x : float) (s : bool) : float :=
  if is_nan x then nan
  else if (abs x =? one)%float then one
  else if Bool.eqb (abs x <? one)%float s then infinity
  else zero.

(** [x ** n] for a float [x] and an integer [n], as numpy evaluates it:
    the exponent is converted to a float and the two go to [pow]. *)
Definition pow (x : float) (n : Z) : float :=
  match FloatOps.Prim2SF (float_of_Z n) with
  | S754_zero _ => one
  | S754_finite s m e => pown x (cond_Zopp s (Z.shiftl (Zpos m) e))
  | S754_infinity s => pow_inf x s
  | S754_nan => nan
  end.

(** The binary digits the logarithm is evaluated to before it is
    rounded. *)
Definition digits : Z := 300.

(** [z + z^3/3 + z^5/5 + ...] in fixed point, for [0 <= z < 1/3]:
    [t] is the current odd power of [z] and [k] its exponent. *)
Fixpoint atanh_series (fuel : nat) (k t z2 acc : Z) : Z :=
  match fuel with
  | O => acc
  | S fuel' =>
      atanh_series fuel' (k + 2) (t * z2 / 2 ^ digits) z2 (acc + t / k)
  end.

Definition atanh_fix (z : Z) : Z :=
  atanh_series 110 1 z (z * z / 2 ^ digits) 0.

(** [log(2) = 2 * atanh(1/3)] *)
Definition ln2_fix : Z := 2 * atanh_fix (2 ^ digits / 3).

(** [np.log]: the natural logarithm, taken as its value to 300 binary
    digits rounded to the nearest float.  For [x = y * 2^k] with
    [1 <= y < 2] it is [k * log(2) + 2 * atanh((y-1)/(y+1))]. *)
Definition log (x : float) : float :=
  match FloatOps.Prim2SF x with
  | S754_nan => nan
  | S754_zero _ => neg_infinity
  | S754_infinity s => if s then nan else infinity
  | S754_finite true _ _ => nan
  | S754_finite false m e =>
      let d := Z.log2 (Zpos m) in
      let z := (Zpos m - 2 ^ d) * 2 ^ digits / (Zpos m + 2 ^ d) in
      round ((e + d) * ln2_fix + 2 * atanh_fix z) (- digits)
  end.

(** [np.pi] *)
Definition pi : float := 0x1.921fb54442d18p+1%float.

(** A grid whose radii are [2^-600] and its next doubles: positive,
    and so small that their squares underflow. *)
Definition ao_tiny : ao_log float :=
  mk_ao_log
    [0x1p-600; 0x1p-599; 0x1p-598; 0x1p-597]%float
    [1; 2; 4; 8]%float 4 1 1 [1] [[1]]
    [[[1; 1; 1; 1]%float]] [[[1; 1; 1; 1]%float]] [[3%float]] [5%float].

(** The grid [[1, 2, 4, 8]], one multiplet with [j = 1]. *)
Definition ao_4pt : ao_log float :=
  mk_ao_log [1; 2; 4; 8]%float [1; 2; 4; 8]%float 4 1 1 [1] [[1]]
    [[[1; 1; 1; 1]%float]] [[[1; 0.5; 0.25; 0.125]%float]] [[3%float]]
    [5%float].

End Binary64.

(** The sums, products, quotients and comparisons of binary64 are the
    primitive operations of IEEE 754; the power and the logarithm are
    those of the C library, taken as correctly rounded. *)
Definition binary64 : FloatOps PrimFloat.float := {|
  of_Z := Binary64.float_of_Z;
  fadd := PrimFloat.add;
  fmul := PrimFloat.mul;
  fdiv := PrimFloat.div;
  fpow := Binary64.pow;
  flog := Binary64.log;
  fpi := Binary64.pi;
  fltb := PrimFloat.ltb
|}.

(** * The loops of the solvers in closed form *)

(** Membership in a list written out, and its use to tell locations
    apart. *)
Ltac in_list :=
  repeat (progress (simpl; rewrite ?in_app_iff));
  repeat match goal with
         | |- _ ∨ _ => first [left; reflexivity|left; assumption|right]
         end;
  first [reflexivity|assumption].

Ltac elem_list := apply list_elem_of_In; in_list.

Ltac apart Hpre Hpost :=
  let Hx := fresh in
  first
    [ intros Hx; apply list_elem_of_In in Hx;
      first [apply Hpre; in_list|apply Hpost; in_list]
    | intros Hx; first [apply Hpre; rewrite Hx; in_list
                       |apply Hpre; rewrite <-Hx; in_list
                       |apply Hpost; rewrite Hx; in_list
                       |apply Hpost; rewrite <-Hx; in_list] ].

Section LoopRules.
Context {A St : Type}.
Implicit Types (body : nat → A → St → result St) (l : list A).

Lemma bind_Ok {X Y} (m : result X) (f : X → result Y) y :
  m ≫= f = Ok y ↔ ∃ x, m = Ok x ∧ f x = Ok y.
Proof.
  destruct m as [x|e]; simpl; split.
  - intros Hf. exists x. done.
  - intros (x' & [= <-] & Hf). done.
  - done.
  - intros (x' & [=] & _).
Qed.

Lemma for_enumerate_app body i l1 l2 s :
  for_enumerate body i (l1 ++ l2) s =
  for_enumerate body i l1 s ≫= for_enumerate body (i + length l1) l2.
Proof.
  revert i s. induction l1 as [|x l1 IH]; intros i s; simpl.
  - by rewrite Nat.add_0_r.
  - destruct (body i x s) as [s'|e]; simpl; [|done].
    rewrite IH. by replace (S i + length l1) with (i + S (length l1)) by lia.
Qed.

Lemma for_enumerate_inv (I : nat → St → Prop) body l i0 s :
  I 0 s →
  (∀ k x s, l !! k = Some x → I k s →
     ∃ s', body (i0 + k) x s = Ok s' ∧ I (S k) s') →
  ∃ s', for_enumerate body i0 l s = Ok s' ∧ I (length l) s'.
Proof.
  revert I i0 s. induction l as [|x l IH]; intros I i0 s H0 Hstep; simpl.
  - eauto.
  - destruct (Hstep 0 x s eq_refl H0) as (s1 & Hb & H1).
    rewrite Nat.add_0_r in Hb. rewrite Hb. simpl.
    apply (IH (λ k, I (S k))); [done|].
    intros k y s2 Hk HI. replace (S i0 + k) with (i0 + S k) by lia.
    by apply Hstep.
Qed.
End LoopRules.

Lemma for_range_inv {St} (I : nat → St → Prop) n (body : nat → St → result St) s :
  I 0 s →
  (∀ k s, k < n → I k s → ∃ s', body k s = Ok s' ∧ I (S k) s') →
  ∃ s', for_range n body s = Ok s' ∧ I n s'.
Proof.
  intros H0 Hstep. unfold for_range.
  destruct (for_enumerate_inv I (λ i _, body i) (seq 0 n) 0 s H0) as (s' & Hs' & HI).
  - intros k x s1 Hk HI. apply lookup_seq in Hk as [-> Hk]. by apply Hstep.
  - exists s'. by rewrite length_seq in HI.
Qed.

Section Quadrature.
Context {F : Type} `{FloatOps F}.
Implicit Types (vff : list F).

Lemma getitem_Ok {A} (a : list A) i x : a !! i = Some x → getitem a i = Ok x.
Proof. unfold getitem. by intros ->. Qed.

Lemma getitem_Ok_inv {A} (a : list A) i x : getitem a i = Ok x → a !! i = Some x.
Proof. unfold getitem. by destruct (a !! i); intros [=->]. Qed.

Lemma at_lookup (a : list F) i x : a !! i = Some x → at_ a i = x.
Proof. apply nth_lookup_Some. Qed.

Lemma lookup_at (a : list F) i : i < length a → a !! i = Some (at_ a i).
Proof.
  intros Hi. destruct (lookup_lt_is_Some_2 a i Hi) as [x Hx].
  by rewrite (at_lookup _ _ _ Hx).
Qed.

Lemma lap_accumulate_eq (rr ffrr3 : list F) am ir irp vff :
  ir < length rr → irp < length rr →
  ir < length vff → irp < length ffrr3 →
  lap_accumulate rr ffrr3 am ir irp vff =
  Ok (<[ir := at_ vff ir +. lap_term rr ffrr3 am ir irp]> vff).
Proof.
  intros H1 H2 H3 H4. unfold lap_accumulate.
  rewrite (getitem_Ok _ _ _ (lookup_at _ _ H1)),
    (getitem_Ok _ _ _ (lookup_at _ _ H2)),
    (getitem_Ok _ _ _ (lookup_at _ _ H3)),
    (getitem_Ok _ _ _ (lookup_at _ _ H4)). simpl.
  unfold setitem. by rewrite decide_True.
Qed.

Lemma lap_inner_eq (rr ffrr3 : list F) am ir n vff :
  ir < length rr → n ≤ length rr →
  ir < length vff → n ≤ length ffrr3 →
  for_range n (λ irp vff, lap_accumulate rr ffrr3 am ir irp vff) vff =
  Ok (<[ir := fsum_from (at_ vff ir) n (lap_term rr ffrr3 am ir)]> vff).
Proof.
  intros H1 H2 H3 H4.
  destruct (for_range_inv
    (λ k s, s = <[ir := fsum_from (at_ vff ir) k (lap_term rr ffrr3 am ir)]> vff)
    n (λ irp vff, lap_accumulate rr ffrr3 am ir irp vff) vff) as (s & -> & ->);
    [| |done].
  - simpl. symmetry. apply list_insert_id. by apply lookup_at.
  - intros k s Hk ->. eexists. split; [|reflexivity].
    rewrite lap_accumulate_eq; [|lia|lia|by rewrite length_insert|lia].
    rewrite list_insert_insert_eq. simpl. do 3 f_equal.
    apply at_lookup. by apply list_lookup_insert_eq.
Qed.

Lemma lap_quadrature_eq (rr : list F) n (ffrr3 : list F) am vff :
  n ≤ length rr → n ≤ length ffrr3 → length vff = n →
  lap_quadrature rr n ffrr3 am vff =
  Ok (map (λ ir, fsum_from (at_ vff ir) n (lap_term rr ffrr3 am ir))
        (seq 0 n)).
Proof.
  intros H1 H2 H3. unfold lap_quadrature.
  set (g := λ ir, fsum_from (at_ vff ir) n (lap_term rr ffrr3 am ir)).
  destruct (for_range_inv
    (λ k s, s = map g (seq 0 k) ++ drop k vff) n
    (λ ir vff, for_range n
       (λ irp vff, lap_accumulate rr ffrr3 am ir irp vff) vff) vff)
    as (s & -> & ->); [done| |].
  - intros k s Hk ->. eexists. split; [|reflexivity].
    assert (Hlen : length (map g (seq 0 k)) = k)
      by by rewrite length_map, length_seq.
    rewrite lap_inner_eq; [|lia|lia| |lia].
    2:{ rewrite length_app, length_drop, Hlen. lia. }
    assert (Hk' : vff !! k = Some (at_ vff k)) by (apply lookup_at; lia).
    assert (Hat : at_ (map g (seq 0 k) ++ drop k vff) k = at_ vff k).
    { apply at_lookup. rewrite lookup_app_r by lia.
      rewrite Hlen, Nat.sub_diag, lookup_drop, Nat.add_0_r. done. }
    rewrite Hat. f_equal. rewrite seq_S, map_app. simpl.
    rewrite <-assoc by apply _.
    rewrite insert_app_r_alt by lia. rewrite Hlen, Nat.sub_diag.
    by rewrite (drop_S vff (at_ vff k) k).
  - by rewrite drop_ge, app_nil_r by lia.
Qed.
End Quadrature.

Section Arrays.
Context {F : Type} `{FloatOps F}.
Implicit Types (ao : ao_log F) (a b : list (list F)).

Lemma np_binop_same op (x y : list F) :
  length x = length y → np_binop op x y = Ok (zip_with op x y).
Proof. intros Hl. unfold np_binop. by rewrite decide_True. Qed.

Lemma np_assign_same (dst src : list F) :
  length src = length dst → np_assign dst src = Ok src.
Proof. intros Hl. unfold np_assign. by rewrite decide_True. Qed.

Lemma length_np_pow (x : list F) n : length (np_pow x n) = length x.
Proof. apply length_map. Qed.

Lemma length_np_scale c (x : list F) : length (np_scale c x) = length x.
Proof. apply length_map. Qed.

Lemma length_rl_row (rr row : list F) am :
  length rr = length row → length (rl_row rr row am) = length row.
Proof.
  intros Hl. unfold rl_row. rewrite length_zip_with, length_np_pow. lia.
Qed.

Lemma setrow_same a mu (row src : list F) :
  a !! mu = Some row → length src = length row →
  setrow a mu src = Ok (<[mu:=src]> a).
Proof.
  intros Ha Hl. unfold setrow, getrow. rewrite (getitem_Ok _ _ _ Ha). simpl.
  by rewrite np_assign_same.
Qed.

Lemma set_psi_log_same ao sp mu a (row src : list F) :
  psi_log ao !! sp = Some a → a !! mu = Some row → length src = length row →
  set_psi_log ao sp mu src =
  Ok (with_psi_log (<[sp:=<[mu:=src]> a]> (psi_log ao)) ao).
Proof.
  intros Hsp Hmu Hl. unfold set_psi_log. rewrite (getitem_Ok _ _ _ Hsp). simpl.
  by rewrite (setrow_same _ _ _ _ Hmu Hl).
Qed.

Lemma set_psi_log_rl_same ao sp mu a (row src : list F) :
  psi_log_rl ao !! sp = Some a → a !! mu = Some row → length src = length row →
  set_psi_log_rl ao sp mu src =
  Ok (with_psi_log_rl (<[sp:=<[mu:=src]> a]> (psi_log_rl ao)) ao).
Proof.
  intros Hsp Hmu Hl. unfold set_psi_log_rl. rewrite (getitem_Ok _ _ _ Hsp). simpl.
  by rewrite (setrow_same _ _ _ _ Hmu Hl).
Qed.

Lemma rescale_same ao ao_pot sp mu am a b (row row_rl : list F) :
  psi_log ao_pot !! sp = Some a → a !! mu = Some row →
  psi_log_rl ao_pot !! sp = Some b → b !! mu = Some row_rl →
  length (rr ao) = length row → length row_rl = length row →
  rescale ao ao_pot sp mu am =
  Ok (with_psi_log_rl
        (<[sp:=<[mu:=rl_row (rr ao) row am]> b]> (psi_log_rl ao_pot)) ao_pot).
Proof.
  intros Ha Hrow Hb Hrl Hlen1 Hlen2. unfold rescale, getrow.
  rewrite (getitem_Ok _ _ _ Ha). simpl. rewrite (getitem_Ok _ _ _ Hrow). simpl.
  rewrite np_binop_same by (by rewrite length_np_pow). simpl.
  apply (set_psi_log_rl_same _ _ _ _ row_rl); [done..|].
  rewrite length_rl_row; lia.
Qed.

(** One multiplet: the potential row, then its rescaled copy. *)
Lemma store_multiplet ao ao_pot sp mu am a b (row row_rl src : list F) :
  psi_log ao_pot !! sp = Some a → a !! mu = Some row →
  psi_log_rl ao_pot !! sp = Some b → b !! mu = Some row_rl →
  length row = length (rr ao) → length row_rl = length (rr ao) →
  length src = length (rr ao) →
  set_psi_log ao_pot sp mu src ≫= (λ ao_pot, rescale ao ao_pot sp mu am) =
  Ok (with_psi_log_rl
        (<[sp:=<[mu:=rl_row (rr ao) src am]> b]> (psi_log_rl ao_pot))
        (with_psi_log (<[sp:=<[mu:=src]> a]> (psi_log ao_pot)) ao_pot)).
Proof.
  intros Ha Hrow Hb Hrl Hl1 Hl2 Hl3.
  rewrite (set_psi_log_same _ _ _ _ row) by (done || lia). simpl.
  apply lookup_lt_Some in Ha as Hsp. apply lookup_lt_Some in Hrow as Hmu.
  rewrite (rescale_same _ _ sp mu am (<[mu:=src]> a) b src row_rl); simpl;
    [done| | |done..| |].
  - by apply list_lookup_insert_eq.
  - by apply list_lookup_insert_eq.
  - lia.
  - lia.
Qed.
End Arrays.

Section WFLemmas.
Context {F : Type}.
Implicit Types (ao : ao_log F).

Lemma rows_of_Forall n (a : list (list F)) :
  rows_of n a = true ↔ Forall (λ row, length row = n) a.
Proof.
  unfold rows_of. rewrite forallb_forall, Forall_forall.
  split; intros Hx x Hin.
  - apply Nat.eqb_eq, Hx. by apply list_elem_of_In.
  - apply Nat.eqb_eq, Hx. by apply list_elem_of_In.
Qed.

Lemma wf_species_length n (P Q : list (list (list F))) J :
  wf_species n P Q J = true → length Q = length P ∧ length J = length P.
Proof.
  revert Q J. induction P as [|a P IH]; intros [|b Q] [|j J]; simpl; try done.
  rewrite !andb_true_iff. intros [_ HPQ]. destruct (IH _ _ HPQ). lia.
Qed.

Lemma wf_species_lookup n (P Q : list (list (list F))) J sp a :
  wf_species n P Q J = true → P !! sp = Some a →
  ∃ b mu2j, Q !! sp = Some b ∧ J !! sp = Some mu2j ∧
    Forall (λ row, length row = n) a ∧ Forall (λ row, length row = n) b ∧
    length b = length a ∧ length mu2j = length a.
Proof.
  revert Q J sp. induction P as [|a' P IH]; intros [|b Q] [|j J] sp; simpl;
    try done.
  rewrite !andb_true_iff, !Nat.eqb_eq, !rows_of_Forall.
  intros [[[[Ha Hb] Hba] Hja] HPQ]. destruct sp as [|sp]; simpl.
  - intros [= <-]. by exists b, j.
  - intros Hsp. by apply IH.
Qed.

Lemma wf_ao_facts ao : wf_ao ao = true → wf_facts ao.
Proof.
  unfold wf_ao. rewrite !andb_true_iff, !Nat.eqb_eq, Nat.leb_le.
  intros [[[[[[[? ?] ?] ?] ?] ?] ?] Hsp].
  destruct (wf_species_length _ _ _ _ Hsp).
  split; try lia. intros sp a. by apply wf_species_lookup.
Qed.
End WFLemmas.

Section SpeciesLoop.
Context {F : Type} `{FloatOps F}.
Implicit Types (ao : ao_log F).

Lemma insert_take_drop_step {A} (X Y : list A) m x :
  X !! m = Some x → m < length Y →
  <[m:=x]> (take m X ++ drop m Y) = take (S m) X ++ drop (S m) Y.
Proof.
  intros HX HY. apply lookup_lt_Some in HX as Hm.
  destruct (lookup_lt_is_Some_2 Y m HY) as [y Hy].
  rewrite insert_app_r_alt by (rewrite length_take; lia).
  rewrite length_take, Nat.min_l, Nat.sub_diag by lia.
  rewrite (drop_S Y y m Hy). simpl.
  rewrite (take_S_r X m x HX). by rewrite <-assoc by apply _.
Qed.

Lemma lookup_take_drop {A} (X Y : list A) m :
  m ≤ length X → (take m X ++ drop m Y) !! m = Y !! m.
Proof.
  intros Hm. rewrite lookup_app_r by (rewrite length_take; lia).
  rewrite length_take, Nat.min_l, Nat.sub_diag by lia.
  by rewrite lookup_drop, Nat.add_0_r.
Qed.

Lemma with_psi_log_id ao : with_psi_log (psi_log ao) ao = ao.
Proof. by destruct ao. Qed.

Lemma with_psi_log_rl_id ao : with_psi_log_rl (psi_log_rl ao) ao = ao.
Proof. by destruct ao. Qed.

Section Species.
Context {St : Type} (proj : St → ao_log F) (Inv : St → Prop).
Context (body : nat → nat → list F → Z → St → result St).
Context (rowf : list F → Z → list F) (ao : ao_log F).

Lemma species_loop sp (mu2ff b : list (list F)) (mu2j : list Z) st0 X0 :
  Inv st0 → proj st0 = X0 →
  psi_log X0 !! sp = Some mu2ff → psi_log_rl X0 !! sp = Some b →
  Forall (λ row, length row = length (rr ao)) mu2ff →
  Forall (λ row, length row = length (rr ao)) b →
  length b = length mu2ff → length mu2j = length mu2ff →
  (∀ ff am, length ff = length (rr ao) → length (rowf ff am) = length (rr ao)) →
  (∀ mu ff am, mu2ff !! mu = Some ff → mu2j !! mu = Some am →
     stores proj Inv body rowf ao sp mu ff am) →
  ∃ st', for_enumerate (λ mu '(ff, am) st, body sp mu ff am st)
           0 (zip mu2ff mu2j) st0 = Ok st' ∧ Inv st' ∧
    proj st' =
      with_psi_log_rl
        (<[sp:=zip_with (λ ff am, rl_row (rr ao) (rowf ff am) am) mu2ff mu2j]>
           (psi_log_rl X0))
        (with_psi_log (<[sp:=zip_with rowf mu2ff mu2j]> (psi_log X0)) X0).
Proof.
  intros HI0 Hp0 HP HQ Hrows Hrows_rl Hlb Hlj Hrowf Hbody.
  set (Psp := zip_with rowf mu2ff mu2j).
  set (Qsp := zip_with (λ ff am, rl_row (rr ao) (rowf ff am) am) mu2ff mu2j).
  assert (HlP : length Psp = length mu2ff)
    by (unfold Psp; rewrite length_zip_with; lia).
  assert (HlQ : length Qsp = length mu2ff)
    by (unfold Qsp; rewrite length_zip_with; lia).
  destruct (for_enumerate_inv
    (λ m st, Inv st ∧ proj st =
       with_psi_log_rl (<[sp:=take m Qsp ++ drop m b]> (psi_log_rl X0))
         (with_psi_log (<[sp:=take m Psp ++ drop m mu2ff]> (psi_log X0)) X0))
    (λ mu '(ff, am) st, body sp mu ff am st) (zip mu2ff mu2j) 0 st0)
    as (st' & Hst' & HI' & Hp').
  - split; [done|]. simpl. rewrite !drop_0, !list_insert_id by done.
    by rewrite with_psi_log_id, with_psi_log_rl_id.
  - intros m [ff am] st Hm [HI Hp]. simpl.
    apply lookup_zip_with_Some in Hm as (ff' & am' & [= <- <-] & Hff & Ham).
    apply lookup_lt_Some in Hff as Hmlt.
    apply lookup_lt_Some in HP as Hsp1. apply lookup_lt_Some in HQ as Hsp2.
    destruct (lookup_lt_is_Some_2 b m ltac:(lia)) as [row_rl Hrl].
    assert (Hlff : length ff = length (rr ao))
      by (by apply (Forall_lookup_1 _ _ _ _ Hrows Hff)).
    assert (Hlrl : length row_rl = length (rr ao))
      by (by apply (Forall_lookup_1 _ _ _ _ Hrows_rl Hrl)).
    edestruct (Hbody m ff am Hff Ham st) as (st1 & Hb1 & HI1 & Hp1); [done| |].
    { rewrite Hp.
      apply (store_multiplet ao _ sp m am
               (take m Psp ++ drop m mu2ff) (take m Qsp ++ drop m b)
               ff row_rl); simpl.
      - by apply list_lookup_insert_eq.
      - rewrite lookup_take_drop by lia. done.
      - by apply list_lookup_insert_eq.
      - rewrite lookup_take_drop by lia. done.
      - done.
      - done.
      - by apply Hrowf. }
    exists st1. split; [done|]. split; [done|]. rewrite Hp1. simpl.
    rewrite !list_insert_insert_eq.
    rewrite (insert_take_drop_step Psp mu2ff m (rowf ff am)); [|
      unfold Psp; apply lookup_zip_with_Some; eauto |lia].
    rewrite (insert_take_drop_step Qsp b m (rl_row (rr ao) (rowf ff am) am)); [|
      unfold Qsp; apply lookup_zip_with_Some; eauto |lia].
    done.
  - exists st'. split; [done|]. split; [done|]. rewrite Hp'.
    rewrite length_zip_with, Hlj, Nat.min_id.
    rewrite !take_ge, !drop_ge, !app_nil_r by lia. done.
Qed.
End Species.
End SpeciesLoop.

Section Loops.
Context {F : Type} `{FloatOps F}.
Implicit Types (ao : ao_log F).

Lemma potential_loops {St} (proj : St → ao_log F) (Inv : St → Prop)
    (body : nat → nat → list F → Z → St → result St)
    (rowf : list F → Z → list F) ao st0 :
  wf_facts ao → Inv st0 → proj st0 = ao →
  (∀ ff am, length ff = length (rr ao) → length (rowf ff am) = length (rr ao)) →
  (∀ sp mu mu2ff mu2j ff am,
     psi_log ao !! sp = Some mu2ff → sp_mu2j ao !! sp = Some mu2j →
     mu2ff !! mu = Some ff → mu2j !! mu = Some am →
     stores proj Inv body rowf ao sp mu ff am) →
  ∃ st', for_enumerate (λ sp mu2ff st,
             mu2j ← getitem (sp_mu2j ao) sp;
             for_enumerate (λ mu '(ff, am) st, body sp mu ff am st)
               0 (zip mu2ff mu2j) st)
           0 (psi_log ao) st0 = Ok st' ∧ Inv st' ∧
    proj st' = with_psi_log_rl (potential_rows_rl rowf ao)
                 (with_psi_log (potential_rows rowf ao) ao).
Proof.
  intros Hwf HI0 Hp0 Hrowf Hbody.
  set (Pf := potential_rows rowf ao). set (Qf := potential_rows_rl rowf ao).
  assert (HlP : length Pf = length (psi_log ao)).
  { unfold Pf, potential_rows. rewrite length_zip_with.
    rewrite (wf_sp_mu2j _ Hwf), (wf_psi_log _ Hwf). lia. }
  assert (HlQ : length Qf = length (psi_log ao)).
  { unfold Qf, potential_rows_rl. rewrite length_zip_with.
    rewrite (wf_sp_mu2j _ Hwf), (wf_psi_log _ Hwf). lia. }
  pose proof (wf_psi_log_rl _ Hwf) as Hlrl. pose proof (wf_psi_log _ Hwf) as Hl.
  destruct (for_enumerate_inv
    (λ k st, Inv st ∧ proj st =
       with_psi_log_rl (take k Qf ++ drop k (psi_log_rl ao))
         (with_psi_log (take k Pf ++ drop k (psi_log ao)) ao))
    (λ sp mu2ff st,
       mu2j ← getitem (sp_mu2j ao) sp;
       for_enumerate (λ mu '(ff, am) st, body sp mu ff am st)
         0 (zip mu2ff mu2j) st) (psi_log ao) 0 st0)
    as (st' & Hst' & HI' & Hp').
  - split; [done|]. simpl. rewrite !drop_0.
    by rewrite with_psi_log_id, with_psi_log_rl_id.
  - intros k mu2ff st Hk [HI Hp]. simpl.
    destruct (wf_lookup _ Hwf k mu2ff Hk)
      as (b & mu2j & Hb & Hj & Hrows & Hrows_rl & Hlb & Hlj).
    apply lookup_lt_Some in Hk as Hklt.
    rewrite (getitem_Ok _ _ _ Hj). simpl.
    rewrite <-(wf_rr _ Hwf) in Hrows, Hrows_rl.
    destruct (species_loop proj Inv body rowf ao k mu2ff b mu2j st (proj st))
      as (st1 & Hst1 & HI1 & Hp1); try done.
    + rewrite Hp. simpl. rewrite lookup_take_drop by lia. done.
    + rewrite Hp. simpl. rewrite lookup_take_drop by lia. done.
    + intros mu ff am Hff Ham. by apply (Hbody k mu mu2ff mu2j).
    + exists st1. split; [done|]. split; [done|]. rewrite Hp1, Hp. simpl.
      rewrite (insert_take_drop_step Pf (psi_log ao) k); [| |lia].
      2:{ unfold Pf, potential_rows. apply lookup_zip_with_Some. eauto. }
      rewrite (insert_take_drop_step Qf (psi_log_rl ao) k); [| |lia].
      2:{ unfold Qf, potential_rows_rl. apply lookup_zip_with_Some. eauto. }
      done.
  - exists st'. split; [done|]. split; [done|]. rewrite Hp'.
    rewrite !take_ge, !drop_ge, !app_nil_r by lia. done.
Qed.

Lemma getitem_last_eq (a : list F) :
  0 < length a → getitem_last a = Ok (at_ a (length a - 1)).
Proof.
  intros Hl. unfold getitem_last. rewrite last_lookup.
  replace (pred (length a)) with (length a - 1) by lia.
  by rewrite lookup_at by lia.
Qed.

Lemma with_sp_mu2rcut_id ao : with_sp_mu2rcut (sp_mu2rcut ao) ao = ao.
Proof. by destruct ao. Qed.

Lemma reset_cutoffs_eq ao (X : ao_log F) :
  length (sp_mu2rcut X) = nspecies ao → 0 < length (rr ao) →
  reset_cutoffs ao X = Ok (cutoffs_reset ao X).
Proof.
  intros Hl Hrr. unfold reset_cutoffs, cutoffs_reset.
  set (rmax := at_ (rr ao) (length (rr ao) - 1)).
  set (C := map (λ a, np_fill a rmax) (sp_mu2rcut X)).
  assert (HlC : length C = length (sp_mu2rcut X)) by apply length_map.
  destruct (for_range_inv
    (λ k Y, Y = with_sp_mu2rcut (take k C ++ drop k (sp_mu2rcut X)) X)
    (nspecies ao)
    (λ sp ao_pot,
       mu2rcut ← getitem (sp_mu2rcut ao_pot) sp;
       rmax ← getitem_last (rr ao);
       Ok (with_sp_mu2rcut
             (<[sp:=np_fill mu2rcut rmax]> (sp_mu2rcut ao_pot)) ao_pot)) X)
    as (Y & -> & ->).
  - simpl. by rewrite drop_0, with_sp_mu2rcut_id.
  - intros k Y Hk ->. simpl.
    destruct (lookup_lt_is_Some_2 (sp_mu2rcut X) k ltac:(lia)) as [c Hc].
    rewrite (getitem_Ok _ k c) by (rewrite lookup_take_drop by lia; done).
    simpl. rewrite getitem_last_eq by done. simpl.
    eexists. split; [reflexivity|]. unfold with_sp_mu2rcut. simpl. f_equal.
    apply insert_take_drop_step; [|lia].
    unfold C. rewrite list_lookup_fmap, Hc. done.
  - simpl. rewrite getitem_last_eq by done. simpl.
    rewrite take_ge, drop_ge, app_nil_r by lia. done.
Qed.
End Loops.

Section Solved.
Context {F : Type} `{FloatOps F} `{SbtEngine F}.
Implicit Types (ao : ao_log F).

Lemma length_lap_row ao ff am : length (lap_row ao ff am) = nr ao.
Proof. unfold lap_row. by rewrite length_np_scale, length_map, length_seq. Qed.

Lemma wf_row_length ao sp mu mu2ff ff :
  wf_facts ao → psi_log ao !! sp = Some mu2ff → mu2ff !! mu = Some ff →
  length ff = nr ao.
Proof.
  intros Hwf Hsp Hmu.
  destruct (wf_lookup _ Hwf sp mu2ff Hsp) as (_ & _ & _ & _ & Hrows & _).
  by apply (Forall_lookup_1 _ _ _ _ Hrows Hmu).
Qed.

Lemma at_replicate n (x : F) i : i < n → at_ (replicate n x) i = x.
Proof. intros Hi. apply at_lookup. by apply lookup_replicate_2. Qed.

Theorem ao_log_hartree_lap_eq ao :
  wf_ao ao = true →
  ao_log_hartree_lap ao = Ok (potential_set (lap_row ao) ao).
Proof.
  intros Hwf%wf_ao_facts. unfold ao_log_hartree_lap, deepcopy.
  pose proof (wf_nr _ Hwf) as Hnr. pose proof (wf_rr _ Hwf) as Hrr.
  rewrite (getitem_Ok (rr ao) 1 (at_ (rr ao) 1)) by (apply lookup_at; lia).
  simpl.
  rewrite (getitem_Ok (rr ao) 0 (at_ (rr ao) 0)) by (apply lookup_at; lia).
  simpl.
  destruct (potential_loops fst (λ st, length st.2 = nr ao)
    (λ sp mu ff am st,
       lap_multiplet ao (flog (at_ (rr ao) 1 /. at_ (rr ao) 0)) sp mu ff am st)
    (lap_row ao) ao (ao, np_zeros (nr ao))) as ([X vff] & Hl & _ & HX);
    try done.
  - simpl. apply length_replicate.
  - intros ff am _. rewrite length_lap_row. lia.
  - intros sp mu mu2ff mu2j ff am Hsp Hj Hmu Ham [Y vff] X HI Hst.
    simpl in HI, Hst.
    pose proof (wf_row_length _ _ _ _ _ Hwf Hsp Hmu) as Hlff.
    unfold lap_multiplet.
    rewrite np_binop_same by (rewrite length_np_pow; lia). simpl.
    rewrite lap_quadrature_eq;
      [|lia|rewrite length_zip_with, length_np_pow; lia
       |unfold np_fill; rewrite length_replicate; lia]. simpl.
    assert (Hrow : np_scale (of_Z 4 *. fpi *. flog (at_ (rr ao) 1 /. at_ (rr ao) 0)
                      /. (of_Z (2 * am) +. of_Z 1))
        (map (λ ir, fsum_from (at_ (np_fill vff (of_Z 0)) ir) (nr ao)
                      (lap_term (rr ao) (zip_with fmul ff (np_pow (rr ao) 3)) am ir))
           (seq 0 (nr ao))) = lap_row ao ff am).
    { unfold lap_row, lap_prefactor, lap_dr. f_equal.
      apply map_ext_in. intros ir Hir%in_seq. unfold fsum, np_fill.
      rewrite at_replicate by lia. done. }
    rewrite Hrow. apply bind_Ok in Hst as (Y1 & HY1 & HY2).
    rewrite HY1. simpl. rewrite HY2. simpl.
    eexists. split; [reflexivity|]. split; [|done]. simpl.
    by rewrite length_map, length_seq.
  - simpl in HX. rewrite Hl. simpl. subst X. apply reset_cutoffs_eq.
    + simpl. apply (wf_sp_mu2rcut _ Hwf).
    + lia.
Qed.

Theorem ao_log_hartree_sbt_eq ao :
  (∀ e ff am d, length (sbt e ff am d) = length ff) →
  wf_ao ao = true →
  ao_log_hartree_sbt ao = Ok (potential_set (sbt_row ao) ao).
Proof.
  intros Hsbt Hwf%wf_ao_facts. unfold ao_log_hartree_sbt, deepcopy.
  pose proof (wf_nr _ Hwf) as Hnr. pose proof (wf_rr _ Hwf) as Hrr.
  pose proof (wf_pp _ Hwf) as Hpp.
  destruct (potential_loops (λ x, x) (λ _, True)
    (λ sp mu ff am st,
       sbt_multiplet ao (sbt_init (rr ao) (pp ao) (jmx ao)) sp mu ff am st)
    (sbt_row ao) ao ao) as (X & Hl & _ & HX); try done.
  - intros ff am Hff. unfold sbt_row. simpl.
    rewrite length_np_scale, Hsbt, length_zip_with, Hsbt, length_np_pow. lia.
  - intros sp mu mu2ff mu2j ff am Hsp Hj Hmu Ham Y X _ Hst. simpl in Hst.
    pose proof (wf_row_length _ _ _ _ _ Hwf Hsp Hmu) as Hlff.
    unfold sbt_multiplet.
    rewrite np_binop_same by (rewrite Hsbt, length_np_pow; lia). simpl.
    exists X. split; [|done]. exact Hst.
  - simpl in HX. rewrite Hl. simpl. subst X. apply reset_cutoffs_eq.
    + simpl. apply (wf_sp_mu2rcut _ Hwf).
    + lia.
Qed.
End Solved.

Section LibnaoSolved.
Context {F : Type} `{FloatOps F} `{Libnao F}.
Implicit Types (ao : ao_log F).

Lemma rescale_loop ao (Y0 : ao_log F) sp (a b : list (list F)) (mu2j : list Z) :
  psi_log Y0 !! sp = Some a → psi_log_rl Y0 !! sp = Some b →
  Forall (λ row, length row = length (rr ao)) a →
  Forall (λ row, length row = length (rr ao)) b →
  length b = length a → length mu2j = length a →
  for_enumerate (λ mu am Y, rescale ao Y sp mu am) 0 mu2j Y0 =
  Ok (with_psi_log_rl
        (<[sp:=zip_with (rl_row (rr ao)) a mu2j]> (psi_log_rl Y0)) Y0).
Proof.
  intros Ha Hb Hrows Hrows_rl Hlb Hlj.
  set (Qsp := zip_with (rl_row (rr ao)) a mu2j).
  assert (HlQ : length Qsp = length a)
    by (unfold Qsp; rewrite length_zip_with; lia).
  destruct (for_enumerate_inv
    (λ m Y, Y = with_psi_log_rl
                  (<[sp:=take m Qsp ++ drop m b]> (psi_log_rl Y0)) Y0)
    (λ mu am Y, rescale ao Y sp mu am) mu2j 0 Y0) as (Y & -> & ->).
  - simpl. by rewrite drop_0, list_insert_id, with_psi_log_rl_id.
  - intros m am Y Ham ->. simpl.
    apply lookup_lt_Some in Ham as Hm. apply lookup_lt_Some in Hb as Hsp.
    destruct (lookup_lt_is_Some_2 a m ltac:(lia)) as [row Hrow].
    destruct (lookup_lt_is_Some_2 b m ltac:(lia)) as [row_rl Hrl].
    pose proof (Forall_lookup_1 _ _ _ _ Hrows Hrow) as Hlrow.
    pose proof (Forall_lookup_1 _ _ _ _ Hrows_rl Hrl) as Hlrl.
    simpl in Hlrow, Hlrl.
    rewrite (rescale_same ao _ sp m am a (take m Qsp ++ drop m b) row row_rl);
      simpl; [|done|done| | |lia|lia].
    + eexists. split; [reflexivity|]. unfold with_psi_log_rl. simpl.
      rewrite list_insert_insert_eq. do 2 f_equal.
      apply insert_take_drop_step; [|lia].
      unfold Qsp. apply lookup_zip_with_Some. eauto.
    + by apply list_lookup_insert_eq.
    + rewrite lookup_take_drop by lia. done.
  - rewrite Hlj, take_ge, drop_ge, app_nil_r by lia. done.
Qed.

Theorem ao_log_hartree_lap_libnao_eq ao :
  (∀ rr nmult mu2ff n mu2j mu2vh,
     length <$> ao_hartree_lap rr nmult mu2ff n mu2j mu2vh = length <$> mu2vh) →
  wf_ao ao = true →
  ao_log_hartree_lap_libnao ao = Ok (libnao_set ao).
Proof.
  intros Hshape Hwf%wf_ao_facts.
  unfold ao_log_hartree_lap_libnao, ao_log_init, deepcopy.
  pose proof (wf_nr _ Hwf) as Hnr. pose proof (wf_rr _ Hwf) as Hrr.
  pose proof (wf_psi_log _ Hwf) as Hl. pose proof (wf_psi_log_rl _ Hwf) as Hlrl.
  pose proof (wf_sp_mu2j _ Hwf) as Hlj. pose proof (wf_sp2nmult _ Hwf) as Hln.
  set (Pf := libnao_rows ao).
  set (Qf := zip_with (zip_with (rl_row (rr ao))) Pf (sp_mu2j ao)).
  assert (HlP : length Pf = nspecies ao).
  { unfold Pf, libnao_rows. rewrite !length_zip_with. lia. }
  assert (HlQ : length Qf = nspecies ao).
  { unfold Qf. rewrite !length_zip_with. lia. }
  destruct (for_range_inv
    (λ k Y, Y = with_psi_log_rl (take k Qf ++ drop k (psi_log_rl ao))
                  (with_psi_log (take k Pf ++ drop k (psi_log ao)) ao))
    (nspecies ao) (libnao_species ao) ao) as (Y & -> & ->).
  - simpl. by rewrite !drop_0, with_psi_log_id, with_psi_log_rl_id.
  - intros k Y Hk ->. unfold libnao_species. simpl.
    destruct (lookup_lt_is_Some_2 (psi_log ao) k ltac:(lia)) as [a Ha].
    destruct (lookup_lt_is_Some_2 (sp2nmult ao) k ltac:(lia)) as [nmult Hn].
    destruct (wf_lookup _ Hwf k a Ha)
      as (b & mu2j & Hb & Hj & Hrows & Hrows_rl & Hlb & Hlja).
    rewrite (getitem_Ok _ _ _ Hj). simpl. rewrite (getitem_Ok _ _ _ Ha). simpl.
    rewrite (getitem_Ok _ k a) by (rewrite lookup_take_drop by lia; done).
    simpl. rewrite (getitem_Ok _ _ _ Hn). simpl.
    unfold setitem. rewrite decide_True
      by (rewrite length_app, length_take, length_drop; lia).
    simpl.
    set (a' := ao_hartree_lap (rr ao) nmult a (Z.of_nat (nr ao)) mu2j a).
    assert (HPk : Pf !! k = Some a').
    { unfold Pf, libnao_rows. apply lookup_zip_with_Some.
      exists (a, mu2j), nmult. split; [done|]. split; [|done].
      apply lookup_zip_with_Some. eauto. }
    specialize (Hshape (rr ao) nmult a (Z.of_nat (nr ao)) mu2j a).
    fold a' in Hshape.
    assert (Hla' : length a' = length a).
    { by rewrite <-(length_fmap length a'), Hshape, length_fmap. }
    assert (Hrows' : Forall (λ row, length row = length (rr ao)) a').
    { apply Forall_lookup. intros i row Hi.
      assert (Hi' : (length <$> a') !! i = Some (length row))
        by (by rewrite list_lookup_fmap, Hi).
      rewrite Hshape, list_lookup_fmap in Hi'.
      destruct (a !! i) as [row0|] eqn:Hrow0; [|done].
      injection Hi' as <-.
      rewrite (Forall_lookup_1 _ _ _ _ Hrows Hrow0). lia. }
    rewrite (rescale_loop ao _ k a' b mu2j); simpl; try done.
    + eexists. split; [reflexivity|]. unfold with_psi_log_rl, with_psi_log.
      simpl.
      rewrite (insert_take_drop_step Pf (psi_log ao) k a' HPk) by lia.
      rewrite (insert_take_drop_step Qf (psi_log_rl ao) k); [done| |lia].
      unfold Qf. apply lookup_zip_with_Some. eauto.
    + apply list_lookup_insert_eq. rewrite length_app, length_take, length_drop. lia.
    + rewrite lookup_take_drop by lia. done.
    + rewrite <-(wf_rr _ Hwf) in Hrows_rl. done.
    + lia.
    + lia.
  - simpl. rewrite !take_ge, !drop_ge, !app_nil_r by lia.
    apply reset_cutoffs_eq.
    + simpl. apply (wf_sp_mu2rcut _ Hwf).
    + lia.
Qed.
End LibnaoSolved.

(** * Properties of the solvers *)

Section Properties.
Context {F : Type} `{FloatOps F} `{SbtEngine F} `{Libnao F}.
Context {UD : UnicodeData}.
Implicit Types (ao : ao_log F).

Lemma fsum_from_ext (x0 : F) n (g g' : nat → F) :
  (∀ i, i < n → g i = g' i) → fsum_from x0 n g = fsum_from x0 n g'.
Proof.
  induction n as [|n IH]; intros Hg; simpl; [done|].
  rewrite IH by (intros; apply Hg; lia). by rewrite Hg by lia.
Qed.

Lemma at_zip_with (op : F → F → F) (x y : list F) i :
  i < length x → i < length y →
  at_ (zip_with op x y) i = op (at_ x i) (at_ y i).
Proof.
  intros Hx Hy. apply at_lookup. apply lookup_zip_with_Some.
  exists (at_ x i), (at_ y i). by rewrite !lookup_at.
Qed.

Lemma at_map (f : F → F) (x : list F) i :
  i < length x → at_ (map f x) i = f (at_ x i).
Proof.
  intros Hx. apply at_lookup.
  change (map f x) with (f <$> x). by rewrite list_lookup_fmap, lookup_at.
Qed.

Lemma lookup_zip_with_both {A B C} (f : A → B → C) (x : list A) (y : list B)
    i a b :
  x !! i = Some a → y !! i = Some b → zip_with f x y !! i = Some (f a b).
Proof. intros Hx Hy. apply lookup_zip_with_Some. eauto. Qed.

Lemma get3_potential_rows (rowf : list F → Z → list F) ao sp mu ir mu2ff ff
    mu2j am :
  psi_log ao !! sp = Some mu2ff → mu2ff !! mu = Some ff →
  sp_mu2j ao !! sp = Some mu2j → mu2j !! mu = Some am →
  get3 (potential_rows rowf ao) sp mu ir = rowf ff am !! ir.
Proof.
  intros Hsp Hmu Hj Ham. unfold get3, get2, potential_rows.
  rewrite (lookup_zip_with_both _ _ _ _ _ _ Hsp Hj).
  by rewrite (lookup_zip_with_both _ _ _ _ _ _ Hmu Ham).
Qed.

Lemma get3_potential_rows_rl (rowf : list F → Z → list F) ao sp mu ir mu2ff ff
    mu2j am :
  psi_log ao !! sp = Some mu2ff → mu2ff !! mu = Some ff →
  sp_mu2j ao !! sp = Some mu2j → mu2j !! mu = Some am →
  get3 (potential_rows_rl rowf ao) sp mu ir =
  rl_row (rr ao) (rowf ff am) am !! ir.
Proof.
  intros Hsp Hmu Hj Ham. unfold get3, get2, potential_rows_rl.
  rewrite (lookup_zip_with_both _ _ _ _ _ _ Hsp Hj).
  by rewrite (lookup_zip_with_both _ _ _ _ _ _ Hmu Ham).
Qed.

Lemma lap_row_lookup ao ff am ir :
  length (rr ao) = nr ao → length ff = nr ao → ir < nr ao →
  lap_row ao ff am !! ir =
  Some (of_Z 4 *. fpi *. flog (at_ (rr ao) 1 /. at_ (rr ao) 0)
          /. (of_Z (2 * am) +. of_Z 1)
        *. fsum (nr ao) (λ irp,
             py_min (at_ (rr ao) ir) (at_ (rr ao) irp) **. am
               /. py_max (at_ (rr ao) ir) (at_ (rr ao) irp) **. (am + 1)
               *. (at_ ff irp *. at_ (rr ao) irp **. 3))).
Proof.
  intros Hrr Hff Hir. unfold lap_row, np_scale.
  change (map ?f ?l) with (f <$> l). rewrite !list_lookup_fmap.
  rewrite lookup_seq_lt by done. simpl. do 2 f_equal.
  apply fsum_from_ext. intros irp Hirp. unfold lap_term. f_equal.
  rewrite at_zip_with by (rewrite ?length_np_pow; lia).
  unfold np_pow. by rewrite at_map by lia.
Qed.

Lemma lap_entry ao sp mu ir mu2ff ff mu2j am :
  wf_ao ao = true →
  psi_log ao !! sp = Some mu2ff → mu2ff !! mu = Some ff →
  sp_mu2j ao !! sp = Some mu2j → mu2j !! mu = Some am →
  ir < nr ao →
  get3 (psi_log (potential_set (lap_row ao) ao)) sp mu ir =
  Some (of_Z 4 *. fpi *. flog (at_ (rr ao) 1 /. at_ (rr ao) 0)
          /. (of_Z (2 * am) +. of_Z 1)
        *. fsum (nr ao) (λ irp,
             py_min (at_ (rr ao) ir) (at_ (rr ao) irp) **. am
               /. py_max (at_ (rr ao) ir) (at_ (rr ao) irp) **. (am + 1)
               *. (at_ ff irp *. at_ (rr ao) irp **. 3))).
Proof.
  intros Hwf Hsp Hmu Hj Ham Hir. apply wf_ao_facts in Hwf.
  change (psi_log (potential_set (lap_row ao) ao))
    with (potential_rows (lap_row ao) ao).
  rewrite (get3_potential_rows _ _ _ _ _ _ _ _ _ Hsp Hmu Hj Ham).
  apply lap_row_lookup; [apply (wf_rr _ Hwf)| |done].
  by apply (wf_row_length ao sp mu mu2ff).
Qed.

(** C1.  On a well-formed orbital set [ao_log_hartree_lap] returns, and the
    potential of the multiplet [mu] of the species [sp], of radial
    function [ff] and angular momentum [am], is at the grid index [ir]
    [(4 pi dr)/(2 am + 1) * sum_{irp < nr}
       min(rr[ir], rr[irp])^am / max(rr[ir], rr[irp])^(am+1)
       * (ff[irp] * rr[irp]^3)]
    with [dr = log(rr[1]/rr[0])], the sum taken from [0.0] upwards in the
    order of [irp].  The statement holds for every arithmetic, that of
    [float64] and the exact one of the four-point scenario alike. *)
Theorem lap_formula ao sp mu ir mu2ff ff mu2j am :
  wf_ao ao = true →
  psi_log ao !! sp = Some mu2ff → mu2ff !! mu = Some ff →
  sp_mu2j ao !! sp = Some mu2j → mu2j !! mu = Some am →
  ir < nr ao →
  ∃ ao_pot, ao_log_hartree_lap ao = Ok ao_pot ∧
    get3 (psi_log ao_pot) sp mu ir =
    Some (of_Z 4 *. fpi *. flog (at_ (rr ao) 1 /. at_ (rr ao) 0)
            /. (of_Z (2 * am) +. of_Z 1)
          *. fsum (nr ao) (λ irp,
               py_min (at_ (rr ao) ir) (at_ (rr ao) irp) **. am
                 /. py_max (at_ (rr ao) ir) (at_ (rr ao) irp) **. (am + 1)
                 *. (at_ ff irp *. at_ (rr ao) irp **. 3))).
Proof.
  intros Hwf Hsp Hmu Hj Ham Hir.
  exists (potential_set (lap_row ao) ao). split.
  - by apply ao_log_hartree_lap_eq.
  - by apply (lap_entry ao sp mu ir mu2ff ff mu2j am).
Qed.


(** *** Cutoffs *)

Lemma get2_fill (C : list (list F)) (v : F) sp mu :
  get2 (map (λ a, np_fill a v) C) sp mu =
  match get2 C sp mu with Some _ => Some v | None => None end.
Proof.
  unfold get2. change (map ?f ?l) with (f <$> l). rewrite list_lookup_fmap.
  destruct (C !! sp) as [c|]; simpl; [|done]. unfold np_fill.
  destruct (c !! mu) as [x|] eqn:Hmu.
  - apply lookup_replicate_2. by apply lookup_lt_Some in Hmu.
  - apply lookup_ge_None_2. rewrite length_replicate.
    by apply lookup_ge_None_1.
Qed.

Lemma lookup_fill (c : list F) (v : F) sp :
  np_fill c v !! sp = match c !! sp with Some _ => Some v | None => None end.
Proof.
  unfold np_fill. destruct (c !! sp) as [x|] eqn:Hsp.
  - apply lookup_replicate_2. by apply lookup_lt_Some in Hsp.
  - apply lookup_ge_None_2. rewrite length_replicate.
    by apply lookup_ge_None_1.
Qed.

Lemma cutoffs_reset_cutoffs ao (X : ao_log F) :
  length (rr ao) = nr ao →
  sp_mu2rcut X = sp_mu2rcut ao → sp2rcut X = sp2rcut ao →
  let rmax := at_ (rr ao) (nr ao - 1) in
  (∀ sp mu c, get2 (sp_mu2rcut ao) sp mu = Some c →
     get2 (sp_mu2rcut (cutoffs_reset ao X)) sp mu = Some rmax) ∧
  (∀ sp mu c, get2 (sp_mu2rcut (cutoffs_reset ao X)) sp mu = Some c →
     c = rmax) ∧
  (∀ sp c, sp2rcut ao !! sp = Some c →
     sp2rcut (cutoffs_reset ao X) !! sp = Some rmax) ∧
  (∀ sp c, sp2rcut (cutoffs_reset ao X) !! sp = Some c → c = rmax).
Proof.
  intros Hrr HC Hc rmax. unfold cutoffs_reset. simpl. rewrite HC, Hc, Hrr.
  fold rmax. repeat split.
  - intros sp mu c Hin. by rewrite get2_fill, Hin.
  - intros sp mu c. rewrite get2_fill.
    destruct (get2 (sp_mu2rcut ao) sp mu); by intros [=].
  - intros sp c Hin. by rewrite lookup_fill, Hin.
  - intros sp c. rewrite lookup_fill.
    destruct (sp2rcut ao !! sp); by intros [=].
Qed.

(** C4.  Whatever solver runs on a well-formed orbital set (the double
    quadrature, the transform, or the library), it returns, and in its
    result every cutoff of a multiplet and every cutoff of a species is
    the last grid point [rr[nr-1]], whatever the cutoffs of the argument
    were: each cutoff slot of the argument is a slot of the result, and
    each slot of the result holds [rr[nr-1]]. *)
Theorem cutoffs_normalized ao (solver : ao_log F → result (ao_log F)) :
  (∀ e ff am d, length (sbt e ff am d) = length ff) →
  (∀ rr nmult mu2ff n mu2j mu2vh,
     length <$> ao_hartree_lap rr nmult mu2ff n mu2j mu2vh = length <$> mu2vh) →
  wf_ao ao = true →
  solver = ao_log_hartree_lap ∨ solver = ao_log_hartree_sbt
    ∨ solver = ao_log_hartree_lap_libnao →
  ∃ ao_pot, solver ao = Ok ao_pot ∧
    (∀ sp mu c, get2 (sp_mu2rcut ao) sp mu = Some c →
       get2 (sp_mu2rcut ao_pot) sp mu = Some (at_ (rr ao) (nr ao - 1))) ∧
    (∀ sp mu c, get2 (sp_mu2rcut ao_pot) sp mu = Some c →
       c = at_ (rr ao) (nr ao - 1)) ∧
    (∀ sp c, sp2rcut ao !! sp = Some c →
       sp2rcut ao_pot !! sp = Some (at_ (rr ao) (nr ao - 1))) ∧
    (∀ sp c, sp2rcut ao_pot !! sp = Some c → c = at_ (rr ao) (nr ao - 1)).
Proof.
  intros Hsbt Hlib Hwf Hsolver.
  pose proof (wf_rr _ (wf_ao_facts _ Hwf)) as Hrr.
  destruct Hsolver as [->|[->| ->]].
  - exists (potential_set (lap_row ao) ao).
    split; [by apply ao_log_hartree_lap_eq|].
    by apply cutoffs_reset_cutoffs.
  - exists (potential_set (sbt_row ao) ao).
    split; [by apply ao_log_hartree_sbt_eq|].
    by apply cutoffs_reset_cutoffs.
  - exists (libnao_set ao).
    split; [by apply ao_log_hartree_lap_libnao_eq|].
    by apply cutoffs_reset_cutoffs.
Qed.


(** *** The rescaled copies *)

Lemma zip_with_zip_with_l {A B C D} (f : C → B → D) (g : A → B → C)
    (x : list A) (y : list B) :
  zip_with f (zip_with g x y) y = zip_with (λ a b, f (g a b) b) x y.
Proof.
  revert y. induction x as [|a x IH]; intros [|b y]; simpl; [done..|].
  by rewrite IH.
Qed.

Lemma potential_rows_rl_alt (rowf : list F → Z → list F) ao :
  potential_rows_rl rowf ao =
  zip_with (zip_with (rl_row (rr ao))) (potential_rows rowf ao) (sp_mu2j ao).
Proof.
  unfold potential_rows_rl, potential_rows. rewrite zip_with_zip_with_l.
  apply zip_with_ext; [|done..]. intros mu2ff mu2j.
  by rewrite zip_with_zip_with_l.
Qed.

Lemma rl_row_lookup (rr row : list F) am ir v :
  row !! ir = Some v → ir < length rr →
  rl_row rr row am !! ir = Some (v /. at_ rr ir **. am).
Proof.
  intros Hv Hir. unfold rl_row, np_pow. apply lookup_zip_with_both; [done|].
  change (map ?f ?l) with (f <$> l). by rewrite list_lookup_fmap, lookup_at.
Qed.

(** The rows [P] and their rescaled copies, for angular momenta [J] on
    the grid [rr]. *)
Lemma rescaled_rows (rr : list F) (P : list (list (list F)))
    (J : list (list Z)) n sp mu ir mu2j am :
  length rr = n → length P = length J →
  (∀ sp a mu2j, P !! sp = Some a → J !! sp = Some mu2j →
     length a = length mu2j ∧ Forall (λ row, length row = n) a) →
  J !! sp = Some mu2j → mu2j !! mu = Some am → ir < n →
  ∃ v, get3 P sp mu ir = Some v ∧
    get3 (zip_with (zip_with (rl_row rr)) P J) sp mu ir =
    Some (v /. at_ rr ir **. am).
Proof.
  intros Hrr Hl Hshape Hj Ham Hir.
  apply lookup_lt_Some in Hj as Hsp. apply lookup_lt_Some in Ham as Hmu.
  destruct (lookup_lt_is_Some_2 P sp ltac:(lia)) as [a Ha].
  destruct (Hshape sp a mu2j Ha Hj) as [Hla Hrows].
  destruct (lookup_lt_is_Some_2 a mu ltac:(lia)) as [row Hrow].
  pose proof (Forall_lookup_1 _ _ _ _ Hrows Hrow) as Hlrow. simpl in Hlrow.
  destruct (lookup_lt_is_Some_2 row ir ltac:(lia)) as [v Hv].
  exists v. unfold get3, get2. rewrite Ha, Hrow. split; [done|].
  rewrite (lookup_zip_with_both _ _ _ _ _ _ Ha Hj).
  rewrite (lookup_zip_with_both _ _ _ _ _ _ Hrow Ham).
  apply rl_row_lookup; [done|lia].
Qed.

Lemma potential_rows_shape (rowf : list F → Z → list F) ao :
  wf_facts ao →
  (∀ ff am, length ff = nr ao → length (rowf ff am) = nr ao) →
  length (potential_rows rowf ao) = length (sp_mu2j ao) ∧
  ∀ sp a mu2j, potential_rows rowf ao !! sp = Some a →
    sp_mu2j ao !! sp = Some mu2j →
    length a = length mu2j ∧ Forall (λ row, length row = nr ao) a.
Proof.
  intros Hwf Hrowf. unfold potential_rows. split.
  - rewrite length_zip_with, (wf_psi_log _ Hwf), (wf_sp_mu2j _ Hwf). lia.
  - intros sp a mu2j Ha Hj.
    apply lookup_zip_with_Some in Ha as (mu2ff & mu2j' & -> & Hsp & Hj').
    rewrite Hj in Hj'. injection Hj' as <-.
    destruct (wf_lookup _ Hwf sp mu2ff Hsp)
      as (b & mu2j' & _ & Hj' & Hrows & _ & _ & Hlj).
    rewrite Hj in Hj'. injection Hj' as <-.
    split; [rewrite length_zip_with; lia|].
    apply Forall_lookup. intros mu row Hrow.
    apply lookup_zip_with_Some in Hrow as (ff & am & -> & Hff & _).
    apply Hrowf. by apply (Forall_lookup_1 _ _ _ _ Hrows Hff).
Qed.

Lemma libnao_rows_shape ao :
  (∀ rr nmult mu2ff n mu2j mu2vh,
     length <$> ao_hartree_lap rr nmult mu2ff n mu2j mu2vh = length <$> mu2vh) →
  wf_facts ao →
  length (libnao_rows ao) = length (sp_mu2j ao) ∧
  ∀ sp a mu2j, libnao_rows ao !! sp = Some a →
    sp_mu2j ao !! sp = Some mu2j →
    length a = length mu2j ∧ Forall (λ row, length row = nr ao) a.
Proof.
  intros Hlib Hwf. unfold libnao_rows. split.
  - rewrite !length_zip_with, (wf_psi_log _ Hwf), (wf_sp_mu2j _ Hwf),
      (wf_sp2nmult _ Hwf). lia.
  - intros sp a mu2j Ha Hj.
    apply lookup_zip_with_Some in Ha as ([mu2ff mu2j'] & nmult & -> & Hz & _).
    apply lookup_zip_with_Some in Hz as (? & ? & [= <- <-] & Hsp & Hj').
    rewrite Hj in Hj'. injection Hj' as <-.
    destruct (wf_lookup _ Hwf sp mu2ff Hsp)
      as (b & mu2j' & _ & Hj' & Hrows & _ & _ & Hlj).
    rewrite Hj in Hj'. injection Hj' as <-.
    specialize (Hlib (rr ao) nmult mu2ff (Z.of_nat (nr ao)) mu2j mu2ff).
    set (a' := ao_hartree_lap _ _ _ _ _ _) in Hlib |- *; split.
    + rewrite <-(length_fmap length a'), Hlib, length_fmap. lia.
    + apply Forall_lookup. intros mu row Hrow.
      assert (Hi : (length <$> a') !! mu = Some (length row))
        by (by rewrite list_lookup_fmap, Hrow).
      rewrite Hlib, list_lookup_fmap in Hi.
      destruct (mu2ff !! mu) as [row0|] eqn:Hrow0; [|done].
      injection Hi as <-. by apply (Forall_lookup_1 _ _ _ _ Hrows Hrow0).
Qed.

(** C5.  Whatever solver runs on a well-formed orbital set, it returns,
    and for every multiplet of its result, of angular momentum [am], and
    every grid index [ir], the entry of [psi_log_rl] is the entry of
    [psi_log] divided by [rr[ir] ** am]: the very division the machine
    performs, so that on [float64] the two agree up to the rounding of
    that power and that quotient. *)
Theorem rescaled_consistent ao (solver : ao_log F → result (ao_log F)) :
  (∀ e ff am d, length (sbt e ff am d) = length ff) →
  (∀ rr nmult mu2ff n mu2j mu2vh,
     length <$> ao_hartree_lap rr nmult mu2ff n mu2j mu2vh = length <$> mu2vh) →
  wf_ao ao = true →
  solver = ao_log_hartree_lap ∨ solver = ao_log_hartree_sbt
    ∨ solver = ao_log_hartree_lap_libnao →
  ∃ ao_pot, solver ao = Ok ao_pot ∧
    ∀ sp mu ir mu2j am,
      sp_mu2j ao_pot !! sp = Some mu2j → mu2j !! mu = Some am →
      ir < nr ao_pot →
      ∃ v, get3 (psi_log ao_pot) sp mu ir = Some v ∧
        get3 (psi_log_rl ao_pot) sp mu ir =
        Some (v /. at_ (rr ao_pot) ir **. am).
Proof.
  intros Hsbt Hlib Hwf Hsolver.
  pose proof (wf_ao_facts _ Hwf) as Hf.
  pose proof (wf_rr _ Hf) as Hrr. pose proof (wf_pp _ Hf) as Hpp.
  destruct Hsolver as [->|[->| ->]].
  - exists (potential_set (lap_row ao) ao).
    split; [by apply ao_log_hartree_lap_eq|].
    intros sp mu ir mu2j am Hj Ham Hir.
    change (psi_log_rl (potential_set (lap_row ao) ao))
      with (potential_rows_rl (lap_row ao) ao).
    rewrite potential_rows_rl_alt.
    destruct (potential_rows_shape (lap_row ao) ao Hf) as [Hl Hshape].
    { intros. apply length_lap_row. }
    by apply (rescaled_rows _ _ _ (nr ao) _ _ _ mu2j).
  - exists (potential_set (sbt_row ao) ao).
    split; [by apply ao_log_hartree_sbt_eq|].
    intros sp mu ir mu2j am Hj Ham Hir.
    change (psi_log_rl (potential_set (sbt_row ao) ao))
      with (potential_rows_rl (sbt_row ao) ao).
    rewrite potential_rows_rl_alt.
    destruct (potential_rows_shape (sbt_row ao) ao Hf) as [Hl Hshape].
    { intros ff am' Hff. unfold sbt_row. simpl.
      rewrite length_np_scale, Hsbt, length_zip_with, Hsbt, length_np_pow.
      lia. }
    by apply (rescaled_rows _ _ _ (nr ao) _ _ _ mu2j).
  - exists (libnao_set ao).
    split; [by apply ao_log_hartree_lap_libnao_eq|].
    intros sp mu ir mu2j am Hj Ham Hir.
    destruct (libnao_rows_shape ao Hlib Hf) as [Hl Hshape].
    by apply (rescaled_rows _ _ _ (nr ao) _ _ _ mu2j).
Qed.

(** *** The transform solver *)

(** C9.  On a well-formed orbital set [ao_log_hartree_sbt] returns, and
    the potential row of the multiplet [mu] of the species [sp], of
    radial function [ff] and angular momentum [am], is [4*pi] times the
    transform of direction [-1] and order [am] of the transform of
    direction [1] and order [am] of [ff] divided entry by entry by
    [pp**2], both by the one engine [sbt_c(rr, pp, lmax=jmx)], where
    [jmx] is the largest angular momentum of the set.  The identity needs
    no assumption on the sign of [pp]. *)
Theorem sbt_formula ao sp mu mu2ff ff mu2j am :
  (∀ e ff am d, length (sbt e ff am d) = length ff) →
  wf_ao ao = true → jmx ao = max_angular_momentum ao →
  psi_log ao !! sp = Some mu2ff → mu2ff !! mu = Some ff →
  sp_mu2j ao !! sp = Some mu2j → mu2j !! mu = Some am →
  let e := sbt_init (rr ao) (pp ao) (max_angular_momentum ao) in
  ∃ ao_pot rows, ao_log_hartree_sbt ao = Ok ao_pot ∧
    psi_log ao_pot !! sp = Some rows ∧
    rows !! mu =
    Some (map (λ x, of_Z 4 *. fpi *. x)
            (sbt e (zip_with fdiv (sbt e ff am 1)
                      (map (λ p, p **. 2) (pp ao))) am (-1))).
Proof.
  intros Hsbt Hwf Hjmx Hsp Hmu Hj Ham e.
  exists (potential_set (sbt_row ao) ao), (zip_with (sbt_row ao) mu2ff mu2j).
  split; [by apply ao_log_hartree_sbt_eq|].
  change (psi_log (potential_set (sbt_row ao) ao))
    with (potential_rows (sbt_row ao) ao).
  unfold potential_rows. split.
  - by apply lookup_zip_with_both.
  - rewrite (lookup_zip_with_both _ _ _ _ _ _ Hmu Ham).
    unfold sbt_row, e. by rewrite Hjmx.
Qed.


(** *** The spacing of the quadrature *)

(** C10.  [ao_log_hartree_lap] takes the logarithmic spacing from the
    first two grid points only: on two well-formed orbital sets whose
    grids start with the same two points [r0], [r1] and continue in any
    way (no test of uniformity is made, and the solver returns on both),
    every entry of both results carries the one factor
    [dr = log(r1/r0)] in front of its sum. *)
Theorem lap_spacing_from_first_two (ao ao' : ao_log F) r0 r1 rest rest' :
  wf_ao ao = true → wf_ao ao' = true →
  rr ao = r0 :: r1 :: rest → rr ao' = r0 :: r1 :: rest' →
  let dr := flog (r1 /. r0) in
  let entry (a : ao_log F) ff am ir :=
    of_Z 4 *. fpi *. dr /. (of_Z (2 * am) +. of_Z 1)
    *. fsum (nr a) (λ irp,
         py_min (at_ (rr a) ir) (at_ (rr a) irp) **. am
           /. py_max (at_ (rr a) ir) (at_ (rr a) irp) **. (am + 1)
           *. (at_ ff irp *. at_ (rr a) irp **. 3)) in
  ∃ ao_pot ao_pot',
    ao_log_hartree_lap ao = Ok ao_pot ∧ ao_log_hartree_lap ao' = Ok ao_pot' ∧
    (∀ sp mu ir mu2ff ff mu2j am,
       psi_log ao !! sp = Some mu2ff → mu2ff !! mu = Some ff →
       sp_mu2j ao !! sp = Some mu2j → mu2j !! mu = Some am → ir < nr ao →
       get3 (psi_log ao_pot) sp mu ir = Some (entry ao ff am ir)) ∧
    (∀ sp mu ir mu2ff ff mu2j am,
       psi_log ao' !! sp = Some mu2ff → mu2ff !! mu = Some ff →
       sp_mu2j ao' !! sp = Some mu2j → mu2j !! mu = Some am → ir < nr ao' →
       get3 (psi_log ao_pot') sp mu ir = Some (entry ao' ff am ir)).
Proof.
  intros Hwf Hwf' Hrr Hrr' dr entry.
  exists (potential_set (lap_row ao) ao), (potential_set (lap_row ao') ao').
  split; [by apply ao_log_hartree_lap_eq|].
  split; [by apply ao_log_hartree_lap_eq|].
  assert (Hdr : ∀ a : ao_log F, (∃ tl, rr a = r0 :: r1 :: tl) →
            flog (at_ (rr a) 1 /. at_ (rr a) 0) = dr).
  { intros a [tl ->]. done. }
  split.
  - intros sp mu ir mu2ff ff mu2j am Hsp Hmu Hj Ham Hir.
    rewrite (lap_entry ao sp mu ir mu2ff ff mu2j am) by done.
    unfold entry. rewrite Hdr by eauto. done.
  - intros sp mu ir mu2ff ff mu2j am Hsp Hmu Hj Ham Hir.
    rewrite (lap_entry ao' sp mu ir mu2ff ff mu2j am) by done.
    unfold entry. rewrite Hdr by eauto. done.
Qed.


(** *** The shape of the result *)

Lemma for_enumerate_preserves {A St} (I : St → Prop)
    (body : nat → A → St → result St) l i s s' :
  (∀ k x s s', I s → body k x s = Ok s' → I s') →
  I s → for_enumerate body i l s = Ok s' → I s'.
Proof.
  intros Hbody. revert i s. induction l as [|x l IH]; intros i s HI; simpl.
  - by intros [= <-].
  - intros (s1 & Hs1 & Hrest)%bind_Ok. eauto.
Qed.

Lemma for_range_preserves {St} (I : St → Prop) n
    (body : nat → St → result St) s s' :
  (∀ k s s', I s → body k s = Ok s' → I s') →
  I s → for_range n body s = Ok s' → I s'.
Proof.
  intros Hbody. unfold for_range. apply for_enumerate_preserves. eauto.
Qed.

Lemma np_assign_length (dst src out : list F) :
  np_assign dst src = Ok out → length out = length dst.
Proof.
  unfold np_assign. case_decide as Hl; [by intros [= <-]|].
  destruct src as [|x [|??]]; intros [=]; subst.
  by rewrite length_replicate.
Qed.

Lemma setrow_shape (a a' : list (list F)) mu src :
  setrow a mu src = Ok a' → map length a' = map length a.
Proof.
  unfold setrow, getrow.
  intros (row & Hrow%getitem_Ok_inv & (row' & Hrow' & [= <-])%bind_Ok)%bind_Ok.
  apply np_assign_length in Hrow'.
  change (map ?f ?l) with (f <$> l). rewrite list_fmap_insert, Hrow'.
  apply list_insert_id. by rewrite list_lookup_fmap, Hrow.
Qed.

Lemma insert_rows_shape (P : list (list (list F))) sp a a' :
  P !! sp = Some a → map length a' = map length a →
  map (map length) (<[sp:=a']> P) = map (map length) P.
Proof.
  intros Hsp Hl. change (map ?f ?l) with (f <$> l).
  rewrite list_fmap_insert. apply list_insert_id.
  rewrite list_lookup_fmap, Hsp. simpl. by rewrite Hl.
Qed.

Lemma set_psi_log_shape ao (X X' : ao_log F) sp mu src :
  set_psi_log X sp mu src = Ok X' → same_shape ao X → same_shape ao X'.
Proof.
  unfold set_psi_log.
  intros (a & Ha%getitem_Ok_inv & (a' & Ha' & [= <-])%bind_Ok)%bind_Ok.
  apply setrow_shape in Ha'. unfold same_shape. simpl.
  rewrite (insert_rows_shape _ _ _ _ Ha Ha'). done.
Qed.

Lemma set_psi_log_rl_shape ao (X X' : ao_log F) sp mu src :
  set_psi_log_rl X sp mu src = Ok X' → same_shape ao X → same_shape ao X'.
Proof.
  unfold set_psi_log_rl.
  intros (a & Ha%getitem_Ok_inv & (a' & Ha' & [= <-])%bind_Ok)%bind_Ok.
  apply setrow_shape in Ha'. unfold same_shape. simpl.
  rewrite (insert_rows_shape _ _ _ _ Ha Ha'). done.
Qed.

Lemma rescale_shape ao ao0 (X X' : ao_log F) sp mu am :
  rescale ao0 X sp mu am = Ok X' → same_shape ao X → same_shape ao X'.
Proof.
  unfold rescale.
  intros (a & _ & (row & _ & (q & _ & Hset)%bind_Ok)%bind_Ok)%bind_Ok.
  by apply (set_psi_log_rl_shape ao X X' sp mu q).
Qed.

Lemma reset_cutoffs_shape ao ao0 (X X' : ao_log F) :
  reset_cutoffs ao0 X = Ok X' → same_shape ao X → same_shape ao X'.
Proof.
  unfold reset_cutoffs. intros (Y & HY & Hlast)%bind_Ok HX.
  assert (HsY : same_shape ao Y).
  { revert HY. apply for_range_preserves; [|done].
    intros sp Z Z' HZ (c & Hc%getitem_Ok_inv & (rmax & _ & [= <-])%bind_Ok)%bind_Ok.
    revert HZ. unfold same_shape. simpl.
    change (map ?f ?l) with (f <$> l). rewrite list_fmap_insert.
    rewrite (list_insert_id (length <$> sp_mu2rcut Z) sp); [done|].
    rewrite list_lookup_fmap, Hc. simpl. unfold np_fill.
    by rewrite length_replicate. }
  apply bind_Ok in Hlast as (rmax & _ & [= <-]).
  revert HsY. unfold same_shape, np_fill. simpl.
  by rewrite length_replicate.
Qed.

Lemma same_shape_refl ao : same_shape ao ao.
Proof. by unfold same_shape. Qed.

Lemma ao_log_hartree_lap_shape ao ao_pot :
  ao_log_hartree_lap ao = Ok ao_pot → same_shape ao ao_pot.
Proof.
  unfold ao_log_hartree_lap, deepcopy.
  intros (r1 & _ & (r0 & _ & ([X vff] & Hloops & Hreset)%bind_Ok)%bind_Ok)%bind_Ok.
  apply (reset_cutoffs_shape ao ao X); [done|].
  revert Hloops.
  apply (for_enumerate_preserves (λ st, same_shape ao st.1));
    [|apply same_shape_refl].
  intros sp mu2ff st st' Hst (mu2j & _ & Hinner)%bind_Ok. revert Hinner.
  apply (for_enumerate_preserves (λ st, same_shape ao st.1)); [|done].
  intros mu [ff am] [Y w] [Y' w'] HY. unfold lap_multiplet.
  intros (ffrr3 & _ & (w1 & _ & (Y1 & HY1 & (Y2 & HY2 & [= <- <-])%bind_Ok)%bind_Ok)%bind_Ok)%bind_Ok.
  simpl in HY; simpl. apply (rescale_shape _ _ _ _ _ _ _ HY2).
  by apply (set_psi_log_shape _ _ _ _ _ _ HY1).
Qed.

Lemma ao_log_hartree_sbt_shape ao ao_pot :
  ao_log_hartree_sbt ao = Ok ao_pot → same_shape ao ao_pot.
Proof.
  unfold ao_log_hartree_sbt, deepcopy.
  intros (X & Hloops & Hreset)%bind_Ok.
  apply (reset_cutoffs_shape ao ao X); [done|]. revert Hloops.
  apply for_enumerate_preserves; [|apply same_shape_refl].
  intros sp mu2ff st st' Hst (mu2j & _ & Hinner)%bind_Ok. revert Hinner.
  apply for_enumerate_preserves; [|done].
  intros mu [ff am] Y Y' HY. unfold sbt_multiplet.
  intros (q & _ & (Y1 & HY1 & HY2)%bind_Ok)%bind_Ok.
  apply (rescale_shape _ _ _ _ _ _ _ HY2).
  by apply (set_psi_log_shape _ _ _ _ _ _ HY1).
Qed.

(** C6.  Whenever the double quadrature or the transform solver returns
    a potential set, on any orbital set whatever, the result has the
    shape of the argument: the same number of species, the same grids,
    the same angular momenta, and arrays of radial functions with the
    same number of rows and the same row lengths; and on a well-formed
    orbital set both solvers do return. *)
Theorem shape_preserved ao :
  (∀ ao_pot, ao_log_hartree_lap ao = Ok ao_pot → same_shape ao ao_pot) ∧
  (∀ ao_pot, ao_log_hartree_sbt ao = Ok ao_pot → same_shape ao ao_pot) ∧
  (wf_ao ao = true → ∃ ao_pot, ao_log_hartree_lap ao = Ok ao_pot) ∧
  ((∀ e ff am d, length (sbt e ff am d) = length ff) → wf_ao ao = true →
     ∃ ao_pot, ao_log_hartree_sbt ao = Ok ao_pot).
Proof.
  split; [apply ao_log_hartree_lap_shape|].
  split; [apply ao_log_hartree_sbt_shape|]. split.
  - intros Hwf. eexists. by apply ao_log_hartree_lap_eq.
  - intros Hsbt Hwf. eexists. by apply ao_log_hartree_sbt_eq.
Qed.


(** *** The diagonal of the double loop *)

Lemma py_min_same (x : F) : py_min x x = x.
Proof. unfold py_min. by destruct (fltb x x). Qed.

Lemma py_max_same (x : F) : py_max x x = x.
Proof. unfold py_max. by destruct (fltb x x). Qed.

Lemma fsum_diagonal (n ir : nat) (g : nat → F) (d : F) :
  g ir = d →
  fsum n g = fsum n (λ irp, if decide (irp = ir) then d else g irp).
Proof.
  intros Hd. apply fsum_from_ext. intros i _. case_decide; by subst.
Qed.

(** C8.  For every arithmetic: a step of the double loop on two indices
    of the grid never raises, and adds to [vff[ir]] the quotient of
    [min(rr[ir], rr[irp])**am] by [max(rr[ir], rr[irp])**(am+1)] times
    [ffrr3[irp]]; the step at [irp = ir] is that same step, in which both
    [min] and [max] give [rr[ir]] whatever the comparison answers, so
    that it adds [rr[ir]**am / rr[ir]**(am+1) * (ff[ir] * rr[ir]**3)];
    and the sum the two loops leave in [vff[ir]] runs over every [irp]
    below [nr], that diagonal term being one of its terms. *)
Theorem diagonal_term (rr ff vff : list F) (am : Z) (ir irp : nat) :
  ir < length rr → irp < length rr →
  length ff = length rr → length vff = length rr →
  let ffrr3 := zip_with fmul ff (np_pow rr 3) in
  let diagonal i :=
    at_ rr i **. am /. at_ rr i **. (am + 1) *. (at_ ff i *. at_ rr i **. 3) in
  lap_accumulate rr ffrr3 am ir irp vff =
    Ok (<[ir := at_ vff ir +. lap_term rr ffrr3 am ir irp]> vff) ∧
  lap_accumulate rr ffrr3 am ir ir vff =
    Ok (<[ir := at_ vff ir +. diagonal ir]> vff) ∧
  lap_quadrature rr (length rr) ffrr3 am (np_fill vff (of_Z 0)) =
    Ok (map (λ i, fsum (length rr) (λ irp,
               if decide (irp = i) then diagonal i
               else lap_term rr ffrr3 am i irp))
          (seq 0 (length rr))).
Proof.
  intros Hir Hirp Hff Hvff ffrr3 diagonal.
  assert (Hl3 : length ffrr3 = length rr).
  { unfold ffrr3. rewrite length_zip_with, length_np_pow. lia. }
  assert (Hdiag : ∀ i, i < length rr →
            lap_term rr ffrr3 am i i = diagonal i).
  { intros i Hi. unfold lap_term, diagonal.
    rewrite py_min_same, py_max_same. f_equal.
    unfold ffrr3. rewrite at_zip_with by (rewrite ?length_np_pow; lia).
    unfold np_pow. by rewrite at_map by lia. }
  split; [|split].
  - by rewrite lap_accumulate_eq by lia.
  - rewrite lap_accumulate_eq by lia. by rewrite Hdiag.
  - rewrite lap_quadrature_eq
      by (unfold np_fill; rewrite ?length_replicate; lia).
    f_equal. apply map_ext_in. intros i Hi%in_seq.
    unfold np_fill. rewrite at_replicate by lia.
    apply (fsum_diagonal (length rr) i). apply Hdiag. lia.
Qed.


(** *** The dispatcher *)

(** C3.  For every method name [s]: the dispatcher calls the
    library-backed Laplace solver, and nothing else, exactly when the
    upper-cased [s] is ["LAP"]; it calls the transform solver, and
    nothing else, exactly when the upper-cased [s] is ["SBT"]; for every
    other name it raises [RuntimeError('!method')] without a call; it
    never calls the double quadrature; and two names with the same
    upper-casing are dispatched alike. *)
Theorem dispatcher_selects ao (s : list N) :
  (ao_log_hartree ao s =
     ([Call_ao_log_hartree_lap_libnao], ao_log_hartree_lap_libnao ao)
   ↔ upper s = literal "LAP") ∧
  (ao_log_hartree ao s = ([Call_ao_log_hartree_sbt], ao_log_hartree_sbt ao)
   ↔ upper s = literal "SBT") ∧
  (ao_log_hartree ao s = ([], Raise (RuntimeError "!method"))
   ↔ upper s ≠ literal "LAP" ∧ upper s ≠ literal "SBT") ∧
  (Call_ao_log_hartree_lap ∉ (ao_log_hartree ao s).1) ∧
  (∀ s', upper s' = upper s → ao_log_hartree ao s' = ao_log_hartree ao s).
Proof.
  unfold ao_log_hartree.
  destruct (decide (upper s = literal "LAP")) as [Hlap|Hlap].
  { repeat split; try done.
    - intros Hs. by rewrite Hlap in Hs.
    - by intros [? _].
    - simpl. by intros [=]%list_elem_of_singleton.
    - intros s' ->. by rewrite decide_True. }
  destruct (decide (upper s = literal "SBT")) as [Hsbt|Hsbt].
  { repeat split; try done.
    - by intros [_ ?].
    - simpl. by intros [=]%list_elem_of_singleton.
    - intros s' ->. by rewrite decide_False, decide_True. }
  repeat split; try done.
  - simpl. apply not_elem_of_nil.
  - intros s' ->. by rewrite !decide_False.
Qed.

(** The upper case of a name written in ASCII does not depend on the
    table of the interpreter. *)
Lemma upper_of_ascii (s : list N) :
  Forall (λ c, (c < 128)%N) s →
  upper s =
  map (λ c, if (97 <=? c)%N && (c <=? 122)%N then (c - 32)%N else c) s.
Proof.
  induction 1 as [|c s Hc _ IH]; [done|].
  change (upper (c :: s)) with (upper_char c ++ upper s).
  rewrite IH. unfold upper_char. apply N.ltb_lt in Hc. by rewrite Hc.
Qed.

(** A character beyond ASCII counts through its upper case: with the
    table of Python 3, in which the long s (U+017F) has the upper case
    [S], the name made of a long s, [b] and [t] selects the transform
    solver. *)
Lemma dispatch_long_s ao :
  to_upper 383 = literal "S" →
  ao_log_hartree ao (383%N :: literal "bt") =
  ([Call_ao_log_hartree_sbt], ao_log_hartree_sbt ao).
Proof.
  intros Hs. unfold ao_log_hartree.
  change (upper (383%N :: literal "bt"))
    with (to_upper 383 ++ upper (literal "bt")).
  rewrite Hs. reflexivity.
Qed.

Example dispatch_lap ao :
  ao_log_hartree ao (literal "lap") =
  ([Call_ao_log_hartree_lap_libnao], ao_log_hartree_lap_libnao ao).
Proof. reflexivity. Qed.

Example dispatch_mixed_case ao :
  ao_log_hartree ao (literal "sBt") = ([Call_ao_log_hartree_sbt], ao_log_hartree_sbt ao).
Proof. reflexivity. Qed.

Example dispatch_unknown ao :
  ao_log_hartree ao (literal "xyz") = ([], Raise (RuntimeError "!method")).
Proof. reflexivity. Qed.

End Properties.

(** * The four-point scenario in exact arithmetic *)

Section Real.
Open Scope R_scope.

Lemma py_min_Rmin (x y : R) : py_min x y = Rmin x y.
Proof.
  unfold py_min, Rmin. simpl.
  destruct (Rlt_dec y x), (Rle_dec x y); lra.
Qed.

Lemma py_max_Rmax (x y : R) : py_max x y = Rmax x y.
Proof.
  unfold py_max, Rmax. simpl.
  destruct (Rlt_dec x y), (Rle_dec x y); lra.
Qed.

(** The end-to-end scenario: [lap_formula] on the grid [[1, 2, 4, 8]]
    with the single multiplet [j = 0], [f = [1, 1, 1, 1]].  The potential
    at [ir = 0] is [4 pi dr] times the sum over [irp] of
    [1/max(rr[0], rr[irp]) * (f[irp] * rr[irp]^3)], with
    [dr = log(2/1)]. *)
Lemma lap_formula_4pt :
  ∃ ao_pot, ao_log_hartree_lap ao_4pt = Ok ao_pot ∧
    get3 (psi_log ao_pot) 0 0 0 =
    Some (4 * PI * ln (2 / 1)
          * (1 / Rmax 1 1 * (1 * 1 ^ 3) + 1 / Rmax 1 2 * (1 * 2 ^ 3)
             + 1 / Rmax 1 4 * (1 * 4 ^ 3) + 1 / Rmax 1 8 * (1 * 8 ^ 3))).
Proof.
  destruct (lap_formula ao_4pt 0 0 0 [[1; 1; 1; 1]] [1; 1; 1; 1] [0%Z] 0%Z)
    as (ao_pot & Hrun & Hget).
  - reflexivity.
  - reflexivity.
  - reflexivity.
  - reflexivity.
  - reflexivity.
  - simpl. lia.
  - exists ao_pot. split; [exact Hrun|]. rewrite Hget. f_equal.
    unfold fsum, at_. simpl. rewrite !py_max_Rmax.
    change (2 * 0)%Z with 0%Z. rewrite (Rplus_0_l 1).
    rewrite Rdiv_1_r, !Rmult_1_r, Rplus_0_l. reflexivity.
Defined.


#[local] Existing Instance unit_engine.
#[local] Existing Instance unit_libnao.

Lemma unit_engine_length (e : @sbt_c R unit_engine) (ff : list R) (am d : Z) :
  length (@sbt R unit_engine e ff am d) = length ff.
Proof. reflexivity. Qed.

Lemma unit_libnao_shape (rr : list R) nmult (mu2ff : list (list R)) n mu2j
    (mu2vh : list (list R)) :
  length <$> @ao_hartree_lap R unit_libnao rr nmult mu2ff n mu2j mu2vh =
  length <$> mu2vh.
Proof. reflexivity. Qed.

(** [cutoffs_normalized] for the transform solver on the four-point
    grid: the cutoffs [3] and [5] of the argument are [8] in the result. *)
Lemma cutoffs_normalized_4pt :
  ∃ ao_pot, @ao_log_hartree_sbt R R_ops unit_engine ao_4pt = Ok ao_pot ∧
    get2 (sp_mu2rcut ao_pot) 0 0 = Some 8 ∧ sp2rcut ao_pot !! 0%nat = Some 8.
Proof.
  destruct (@cutoffs_normalized R R_ops unit_engine unit_libnao ao_4pt
              ao_log_hartree_sbt)
    as (ao_pot & Hrun & Hmu & _ & Hsp & _).
  - exact unit_engine_length.
  - exact unit_libnao_shape.
  - reflexivity.
  - right. left. reflexivity.
  - exists ao_pot. split; [exact Hrun|]. split.
    + apply (Hmu 0%nat 0%nat 3). reflexivity.
    + apply (Hsp 0%nat 5). reflexivity.
Defined.

(** [rescaled_consistent] for the library-backed solver on the
    four-point grid, at the grid index [1]. *)
Lemma rescaled_consistent_4pt :
  ∃ ao_pot v,
    @ao_log_hartree_lap_libnao R R_ops unit_libnao ao_4pt = Ok ao_pot ∧
    get3 (psi_log ao_pot) 0 0 1 = Some v ∧
    get3 (psi_log_rl ao_pot) 0 0 1 = Some (v / powerRZ 2 0).
Proof.
  destruct (@rescaled_consistent R R_ops unit_engine unit_libnao ao_4pt
              ao_log_hartree_lap_libnao)
    as (ao_pot & Hrun & Hall).
  - exact unit_engine_length.
  - exact unit_libnao_shape.
  - reflexivity.
  - right. right. reflexivity.
  - assert (Hpot : ao_pot = libnao_set ao_4pt).
    { rewrite ao_log_hartree_lap_libnao_eq in Hrun;
        [by injection Hrun|exact unit_libnao_shape|reflexivity]. }
    destruct (Hall 0%nat 0%nat 1%nat [0%Z] 0%Z) as (v & Hv & Hrl).
    + rewrite Hpot. reflexivity.
    + reflexivity.
    + rewrite Hpot. simpl. lia.
    + exists ao_pot, v. split; [exact Hrun|]. split; [exact Hv|].
      rewrite Hrl, Hpot. reflexivity.
Defined.

(** [sbt_formula] on the four-point grid, for the engine that returns
    its argument. *)
Lemma sbt_formula_4pt :
  ∃ ao_pot rows, @ao_log_hartree_sbt R R_ops unit_engine ao_4pt = Ok ao_pot ∧
    psi_log ao_pot !! 0%nat = Some rows ∧
    rows !! 0%nat =
    Some (map (λ x, 4 * PI * x)
            (zip_with Rdiv [1; 1; 1; 1] (map (λ p, powerRZ p 2) [1; 2; 4; 8]))).
Proof.
  apply (@sbt_formula R R_ops unit_engine ao_4pt 0 0 [[1; 1; 1; 1]]
           [1; 1; 1; 1] [0%Z] 0%Z).
  - exact unit_engine_length.
  - reflexivity.
  - reflexivity.
  - reflexivity.
  - reflexivity.
  - reflexivity.
  - reflexivity.
Defined.

(** [lap_spacing_from_first_two] on the grids [[1, 2, 4, 8]] and
    [[1, 2, 16, 17]]: both results carry [log(2/1)]. *)
Lemma lap_spacing_4pt :
  ∃ ao_pot ao_pot' s s',
    ao_log_hartree_lap ao_4pt = Ok ao_pot ∧
    ao_log_hartree_lap ao_4pt_uneven = Ok ao_pot' ∧
    get3 (psi_log ao_pot) 0 0 3 = Some (4 * PI * ln (2 / 1) / (0 + 1) * s) ∧
    get3 (psi_log ao_pot') 0 0 3 = Some (4 * PI * ln (2 / 1) / (0 + 1) * s').
Proof.
  destruct (lap_spacing_from_first_two ao_4pt ao_4pt_uneven 1 2 [4; 8] [16; 17])
    as (ao_pot & ao_pot' & Hrun & Hrun' & Hget & Hget').
  - reflexivity.
  - reflexivity.
  - reflexivity.
  - reflexivity.
  - exists ao_pot, ao_pot'. eexists. eexists.
    split; [exact Hrun|]. split; [exact Hrun'|]. split.
    + apply (Hget 0%nat 0%nat 3%nat [[1; 1; 1; 1]] [1; 1; 1; 1] [0%Z] 0%Z);
        [reflexivity..|simpl; lia].
    + apply (Hget' 0%nat 0%nat 3%nat [[1; 1; 1; 1]] [1; 1; 1; 1] [0%Z] 0%Z);
        [reflexivity..|simpl; lia].
Defined.

End Real.

(** * The store: what a solver leaves untouched *)

Section HeapFrame.
Import Heap.
Context {F : Type} `{FloatOps F} `{SbtEngine F}.
Implicit Types (h : store F) (l : loc).

Lemma keeps_ret {A} (h0 : store F) (a : A) (post : A → Prop) :
  post a → keeps h0 (mret a) post.
Proof. intros Ha h Hh. split; [done|]. by intros ? [= <-]. Qed.

Lemma keeps_lift {A} (h0 : store F) (r : result A) :
  keeps h0 (lift r) (λ a, r = Ok a).
Proof. intros h Hh. by split. Qed.

Lemma keeps_bind {A B} (h0 : store F) (m : hm F A) (f : A → hm F B) post post' :
  keeps h0 m post → (∀ a, post a → keeps h0 (f a) post') →
  keeps h0 (m ≫= f) post'.
Proof.
  intros Hm Hf h Hh. destruct (Hm h Hh) as [Hext Hpost].
  unfold mbind, hm_bind. destruct (m h) as [[a|e] h1]; simpl in *; [|done].
  by apply Hf; [apply Hpost|].
Qed.

Lemma keeps_weaken {A} (h0 : store F) (m : hm F A) (post post' : A → Prop) :
  keeps h0 m post → (∀ a, post a → post' a) → keeps h0 m post'.
Proof.
  intros Hm Himp h Hh. destruct (Hm h Hh) as [Hext Hpost]. split; eauto.
Qed.

Lemma keeps_for_enumerate {A St} (h0 : store F) (body : nat → A → St → hm F St)
    (I : St → Prop) i xs s :
  (∀ k x s, I s → keeps h0 (body k x s) I) →
  I s → keeps h0 (for_enumerate body i xs s) I.
Proof.
  intros Hbody. revert i s. induction xs as [|x xs IH]; intros i s Hs; simpl.
  - by apply keeps_ret.
  - eapply keeps_bind; [by apply Hbody|]. intros s' Hs'. by apply IH.
Qed.

Lemma keeps_for_range {St} (h0 : store F) n (body : nat → St → hm F St) (I : St → Prop) s :
  (∀ k s, I s → keeps h0 (body k s) I) →
  I s → keeps h0 (for_range n body s) I.
Proof. intros Hbody. apply keeps_for_enumerate. eauto. Qed.

(** Reads *)

Lemma keeps_load (h0 : store F) l (post : obj F → Prop) :
  (∀ h o, extends h0 h → h !! l = Some o → post o) →
  keeps h0 (load l) post.
Proof.
  intros Hpost h Hh. unfold load. destruct (h !! l) as [o|] eqn:Hl; simpl.
  - split; [done|]. intros ? [= <-]. eauto.
  - by split.
Qed.

Lemma extends_refs (h0 : store F) h l o x :
  extends h0 h → length h0 ≤ l → h !! l = Some o → x ∈ refs_of o →
  length h0 ≤ x.
Proof. intros [_ Hc]. apply Hc. Qed.

Lemma keeps_load_list (h0 : store F) l :
  length h0 ≤ l →
  keeps h0 (load_list l) (λ items, ∀ x, x ∈ items → length h0 ≤ x).
Proof.
  intros Hl. unfold load_list.
  eapply keeps_bind.
  { apply (keeps_load h0 l (λ o, ∀ x, x ∈ refs_of o → length h0 ≤ x)).
    intros h o Hh Ho x. by apply (extends_refs h0 h l o x). }
  intros [| | |items|] Ho; try (eapply keeps_weaken; [apply keeps_lift|done]).
  by apply keeps_ret.
Qed.

Lemma keeps_load_ao (h0 : store F) l :
  length h0 ≤ l →
  keeps h0 (load_ao l) (λ o, ∀ x, x ∈ refs_of (AoLog o : obj F) → length h0 ≤ x).
Proof.
  intros Hl. unfold load_ao.
  eapply keeps_bind.
  { apply (keeps_load h0 l (λ o, ∀ x, x ∈ refs_of o → length h0 ≤ x)).
    intros h o Hh Ho x. by apply (extends_refs h0 h l o x). }
  intros [| | | |o] Ho; try (eapply keeps_weaken; [apply keeps_lift|done]).
  by apply keeps_ret.
Qed.

Lemma reads_keeps {A} (h0 : store F) (m : hm F A) : reads m → keeps h0 m (λ _, True).
Proof. intros Hm h Hh. rewrite Hm. by split. Qed.

Lemma reads_ret {A} (a : A) : reads (mret a : hm F A).
Proof. done. Qed.

Lemma reads_lift {A} (r : result A) : reads (lift r : hm F A).
Proof. done. Qed.

Lemma reads_bind {A B} (m : hm F A) (f : A → hm F B) :
  reads m → (∀ a, reads (f a)) → reads (m ≫= f).
Proof.
  intros Hm Hf h. unfold mbind, hm_bind. specialize (Hm h).
  destruct (m h) as [[a|e] h1]; simpl in *; subst; [apply Hf|done].
Qed.

Lemma reads_load l : reads (load l : hm F _).
Proof. intros h. unfold load. by destruct (h !! l). Qed.


Lemma reads_load_floats l : reads (load_floats l : hm F _).
Proof.
  unfold load_floats. apply reads_bind; [apply reads_load|].
  by intros [].
Qed.

Lemma reads_load_ints l : reads (load_ints l : hm F _).
Proof.
  unfold load_ints. apply reads_bind; [apply reads_load|].
  by intros [].
Qed.

Lemma reads_load_floats2 l : reads (load_floats2 l : hm F _).
Proof.
  unfold load_floats2. apply reads_bind; [apply reads_load|].
  by intros [].
Qed.

Lemma reads_load_list l : reads (load_list l : hm F _).
Proof.
  unfold load_list. apply reads_bind; [apply reads_load|].
  by intros [].
Qed.

Lemma reads_load_ao l : reads (load_ao l : hm F _).
Proof.
  unfold load_ao. apply reads_bind; [apply reads_load|].
  by intros [].
Qed.

Lemma reads_get_rr l : reads (get_rr l : hm F _).
Proof.
  unfold get_rr. apply reads_bind; [apply reads_load_ao|].
  intros o. apply reads_load_floats.
Qed.

Lemma reads_get_pp l : reads (get_pp l : hm F _).
Proof.
  unfold get_pp. apply reads_bind; [apply reads_load_ao|].
  intros o. apply reads_load_floats.
Qed.

Lemma reads_rr_last l : reads (rr_last l : hm F _).
Proof.
  unfold rr_last. apply reads_bind; [apply reads_get_rr|].
  intros rr. apply reads_lift.
Qed.

Lemma reads_item l i : reads (item l i : hm F _).
Proof.
  unfold item. apply reads_bind; [apply reads_load_list|].
  intros items. apply reads_lift.
Qed.

Lemma reads_load_row l mu : reads (load_row l mu : hm F _).
Proof.
  unfold load_row. apply reads_bind; [apply reads_load_floats2|].
  intros rows. apply reads_lift.
Qed.

Lemma reads_zip_steps l l' : reads (zip_steps l l' : hm F _).
Proof.
  unfold zip_steps. apply reads_bind; [apply reads_load_floats2|].
  intros rows. apply reads_bind; [apply reads_load_ints|]. done.
Qed.

Lemma reads_zip_step l l' mu : reads (zip_step l l' mu : hm F _).
Proof.
  unfold zip_step. apply reads_bind; [apply reads_load_row|].
  intros ff. apply reads_bind; [apply reads_load_ints|].
  intros js. apply reads_bind; [apply reads_lift|]. done.
Qed.

Lemma keeps_item (h0 : store F) l i :
  length h0 ≤ l → keeps h0 (item l i) (λ x, length h0 ≤ x).
Proof.
  intros Hl. unfold item. eapply keeps_bind; [by apply keeps_load_list|].
  intros items Hitems. eapply keeps_weaken; [apply keeps_lift|].
  intros x Hx%getitem_Ok_inv. apply Hitems. by apply list_elem_of_lookup_2 in Hx.
Qed.

(** Writes *)

Lemma extends_insert_array (h0 : store F) h l (o' : obj F) :
  extends h0 h → length h0 ≤ l → refs_of o' = [] →
  extends h0 (<[l:=o']> h).
Proof.
  intros [[k ->] Hc] Hl Hrefs. split.
  - exists (<[l - length h0:=o']> k). by rewrite insert_app_r_alt.
  - intros l1 o x Hl1 Ho Hx. destruct (decide (l1 = l)) as [->|Hne].
    + destruct (decide (l < length (h0 ++ k))) as [Hlt|Hge].
      * rewrite list_lookup_insert_eq in Ho by done. injection Ho as <-.
        rewrite Hrefs in Hx. by apply elem_of_nil in Hx.
      * rewrite list_insert_ge in Ho by lia. by apply (Hc l o x).
    + rewrite list_lookup_insert_ne in Ho by done. by apply (Hc l1 o x).
Qed.

Lemma extends_alloc (h0 : store F) h (o : obj F) :
  extends h0 h → (∀ x, x ∈ refs_of o → length h0 ≤ x) →
  extends h0 (h ++ [o]) ∧ length h0 ≤ length h.
Proof.
  intros [[k ->] Hc] Hrefs. split; [split|].
  - exists (k ++ [o]). by rewrite assoc by apply _.
  - intros l o1 x Hl Ho Hx.
    destruct (decide (l < length (h0 ++ k))) as [Hlt|Hge].
    + rewrite lookup_app_l in Ho by done. by apply (Hc l o1 x).
    + rewrite lookup_app_r in Ho by lia.
      apply list_lookup_singleton_Some in Ho as [_ <-]. by apply Hrefs.
  - rewrite length_app. lia.
Qed.

Lemma keeps_alloc (h0 : store F) (o : obj F) :
  (∀ x, x ∈ refs_of o → length h0 ≤ x) →
  keeps h0 (alloc o) (λ l, length h0 ≤ l).
Proof.
  intros Hrefs h Hh. destruct (extends_alloc h0 h o Hh Hrefs) as [Hext Hl].
  unfold alloc. simpl. split; [done|]. by intros ? [= <-].
Qed.

Lemma keeps_store_row (h0 : store F) l mu src :
  length h0 ≤ l → keeps h0 (store_row l mu src) (λ _, True).
Proof.
  intros Hl h Hh. unfold store_row, mbind, hm_bind.
  pose proof (reads_load_floats2 l h) as Hr.
  destruct (load_floats2 l h) as [[rows|e] h1]; simpl in Hr; subst h1; [|done].
  unfold lift. destruct (setrow rows mu src) as [rows'|e]; simpl; [|done].
  split; [|done]. by apply extends_insert_array.
Qed.

Lemma keeps_fill (h0 : store F) l v :
  length h0 ≤ l → keeps h0 (fill l v) (λ _, True).
Proof.
  intros Hl h Hh. unfold fill, mbind, hm_bind.
  pose proof (reads_load_floats l h) as Hr.
  destruct (load_floats l h) as [[data|e] h1]; simpl in Hr; subst h1; [|done].
  simpl. split; [|done]. by apply extends_insert_array.
Qed.


(** The deep copy *)

Lemma memo_fresh_insert (h0 : store F) (m : memo) l l' :
  memo_fresh h0 m → length h0 ≤ l' → memo_fresh h0 (<[l:=l']> m).
Proof.
  intros Hm Hl' k k'. rewrite lookup_insert. case_decide.
  - by intros [= <-].
  - apply Hm.
Qed.

Lemma keeps_copy_array (h0 : store F) (m : memo) l :
  memo_fresh h0 m →
  keeps h0 (copy_array m l) (λ r, length h0 ≤ r.1 ∧ memo_fresh h0 r.2).
Proof.
  intros Hm. unfold copy_array. destruct (m !! l) as [l'|] eqn:Hl.
  { apply keeps_ret. split; [by apply (Hm l)|done]. }
  eapply keeps_bind; [apply (reads_keeps _ _ (reads_load l))|].
  intros o _.
  destruct o; try (eapply keeps_weaken; [apply keeps_lift|done]).
  all: eapply keeps_bind; [apply keeps_alloc; by intros ? ?%elem_of_nil|].
  all: intros l' Hl'; apply keeps_ret; split; [done|].
  all: by apply memo_fresh_insert.
Qed.

Lemma keeps_copy_list (h0 : store F) (m : memo) l :
  memo_fresh h0 m →
  keeps h0 (copy_list m l) (λ r, length h0 ≤ r.1 ∧ memo_fresh h0 r.2).
Proof.
  intros Hm. unfold copy_list. destruct (m !! l) as [l'|] eqn:Hl.
  { apply keeps_ret. split; [by apply (Hm l)|done]. }
  eapply keeps_bind; [apply (reads_keeps _ _ (reads_load_list l))|].
  intros items _.
  eapply keeps_bind.
  { apply (keeps_for_enumerate h0 _
      (λ st, (∀ x, x ∈ st.1 → length h0 ≤ x) ∧ memo_fresh h0 st.2)).
    - intros k x [items' m'] [Hitems Hm']. simpl in Hitems, Hm'.
      eapply keeps_bind; [by apply keeps_copy_array|].
      intros [x' m''] [Hx' Hm'']. apply keeps_ret. simpl. split; [|done].
      intros y [Hy| ->%list_elem_of_singleton]%elem_of_app; eauto.
    - split; [by intros ? ?%elem_of_nil|done]. }
  intros [items' m'] [Hitems Hm']. simpl in Hitems, Hm'.
  eapply keeps_bind; [by apply keeps_alloc|].
  intros l' Hl'. apply keeps_ret. split; [done|].
  by apply memo_fresh_insert.
Qed.

Lemma keeps_deepcopy (h0 : store F) ao :
  keeps h0 (deepcopy ao) (λ ao_pot, length h0 ≤ ao_pot).
Proof.
  unfold deepcopy.
  eapply keeps_bind; [apply (reads_keeps _ _ (reads_load_ao ao))|].
  intros o _.
  eapply keeps_bind; [by apply keeps_copy_array|]. intros [l1 m1] [H1 Hm1].
  eapply keeps_bind; [by apply keeps_copy_array|]. intros [l2 m2] [H2 Hm2].
  eapply keeps_bind; [by apply keeps_copy_array|]. intros [l3 m3] [H3 Hm3].
  eapply keeps_bind; [by apply keeps_copy_list|]. intros [l4 m4] [H4 Hm4].
  eapply keeps_bind; [by apply keeps_copy_list|]. intros [l5 m5] [H5 Hm5].
  eapply keeps_bind; [by apply keeps_copy_list|]. intros [l6 m6] [H6 Hm6].
  eapply keeps_bind; [by apply keeps_copy_list|]. intros [l7 m7] [H7 Hm7].
  eapply keeps_bind; [by apply keeps_copy_array|]. intros [l8 m8] [H8 Hm8].
  apply keeps_alloc. simpl in *|-. simpl. intros x Hx.
  repeat (apply elem_of_cons in Hx as [->|Hx]; [done|]).
  by apply elem_of_nil in Hx.
Qed.


(** The solvers *)

Lemma ao_field_fresh (h0 : store F) (o : ao_obj) (x : loc) :
  (∀ x, x ∈ refs_of (AoLog o : obj F) → length h0 ≤ x) →
  x ∈ [rr_ref o; pp_ref o; sp2nmult_ref o; sp_mu2j_ref o; psi_log_ref o;
       psi_log_rl_ref o; sp_mu2rcut_ref o; sp2rcut_ref o] →
  length h0 ≤ x.
Proof. intros Ho Hx. by apply Ho. Qed.

Lemma keeps_set_psi_log (h0 : store F) ao_pot sp mu src :
  length h0 ≤ ao_pot → keeps h0 (set_psi_log ao_pot sp mu src) (λ _, True).
Proof.
  intros Hp. unfold set_psi_log.
  eapply keeps_bind; [by apply keeps_load_ao|]. intros o Ho.
  eapply keeps_bind.
  { apply keeps_item. apply (ao_field_fresh h0 o _ Ho). elem_list. }
  intros a Ha. by apply keeps_store_row.
Qed.

Lemma keeps_set_psi_log_rl (h0 : store F) ao_pot sp mu src :
  length h0 ≤ ao_pot → keeps h0 (set_psi_log_rl ao_pot sp mu src) (λ _, True).
Proof.
  intros Hp. unfold set_psi_log_rl.
  eapply keeps_bind; [by apply keeps_load_ao|]. intros o Ho.
  eapply keeps_bind.
  { apply keeps_item. apply (ao_field_fresh h0 o _ Ho). elem_list. }
  intros a Ha. by apply keeps_store_row.
Qed.

Lemma keeps_rescale (h0 : store F) ao ao_pot sp mu am :
  length h0 ≤ ao_pot → keeps h0 (rescale ao ao_pot sp mu am) (λ _, True).
Proof.
  intros Hp. unfold rescale.
  eapply keeps_bind; [apply (reads_keeps _ _ (reads_load_ao ao_pot))|].
  intros o _.
  eapply keeps_bind; [apply (reads_keeps _ _ (reads_item _ _))|]. intros a _.
  eapply keeps_bind; [apply (reads_keeps _ _ (reads_load_row _ _))|].
  intros row _.
  eapply keeps_bind; [apply (reads_keeps _ _ (reads_get_rr _))|]. intros rr _.
  eapply keeps_bind; [apply keeps_lift|]. intros q _.
  by apply keeps_set_psi_log_rl.
Qed.

Lemma keeps_reset_cutoffs (h0 : store F) ao ao_pot :
  length h0 ≤ ao_pot → keeps h0 (reset_cutoffs ao ao_pot) (λ _, True).
Proof.
  intros Hp. unfold reset_cutoffs.
  eapply keeps_bind; [apply (reads_keeps _ _ (reads_load_ao ao))|].
  intros o _.
  eapply keeps_bind.
  { apply (keeps_for_range h0 _ _ (λ _, True)); [|done]. intros sp _ _.
    eapply keeps_bind; [by apply keeps_load_ao|]. intros op Hop.
    eapply keeps_bind.
    { apply keeps_item. apply (ao_field_fresh h0 op _ Hop). elem_list. }
    intros c Hc.
    eapply keeps_bind; [apply (reads_keeps _ _ (reads_rr_last _))|].
    intros rmax _. by apply keeps_fill. }
  intros _ _.
  eapply keeps_bind; [by apply keeps_load_ao|]. intros op Hop.
  eapply keeps_bind; [apply (reads_keeps _ _ (reads_rr_last _))|].
  intros rmax _. apply keeps_fill.
  apply (ao_field_fresh h0 op _ Hop). elem_list.
Qed.

Lemma keeps_lap_multiplet (h0 : store F) ao ao_pot dr sp mu mu2ff mu2j vff :
  length h0 ≤ ao_pot →
  keeps h0 (Heap.lap_multiplet ao ao_pot dr sp mu mu2ff mu2j vff) (λ _, True).
Proof.
  intros Hp. unfold Heap.lap_multiplet.
  eapply keeps_bind; [apply (reads_keeps _ _ (reads_zip_step _ _ _))|].
  intros [ff am] _.
  eapply keeps_bind; [apply (reads_keeps _ _ (reads_get_rr _))|]. intros rr _.
  eapply keeps_bind; [apply keeps_lift|]. intros ffrr3 _.
  eapply keeps_bind; [apply (reads_keeps _ _ (reads_load_ao _))|]. intros o _.
  eapply keeps_bind; [apply (reads_keeps _ _ (reads_get_rr _))|]. intros rr' _.
  eapply keeps_bind; [apply keeps_lift|]. intros vff' _.
  eapply keeps_bind; [by apply keeps_set_psi_log|]. intros _ _.
  eapply keeps_bind; [by apply keeps_rescale|]. intros _ _.
  by apply keeps_ret.
Qed.

Lemma keeps_sbt_multiplet (h0 : store F) ao ao_pot e sp mu mu2ff mu2j :
  length h0 ≤ ao_pot →
  keeps h0 (Heap.sbt_multiplet ao ao_pot e sp mu mu2ff mu2j) (λ _, True).
Proof.
  intros Hp. unfold Heap.sbt_multiplet.
  eapply keeps_bind; [apply (reads_keeps _ _ (reads_zip_step _ _ _))|].
  intros [ff am] _.
  eapply keeps_bind; [apply (reads_keeps _ _ (reads_get_pp _))|]. intros pp _.
  eapply keeps_bind; [apply keeps_lift|]. intros q _.
  eapply keeps_bind; [by apply keeps_set_psi_log|]. intros _ _.
  by apply keeps_rescale.
Qed.

Lemma keeps_ao_log_hartree_lap (h0 : store F) ao :
  keeps h0 (Heap.ao_log_hartree_lap ao) (λ ao_pot, length h0 ≤ ao_pot).
Proof.
  unfold Heap.ao_log_hartree_lap.
  eapply keeps_bind; [apply keeps_deepcopy|]. intros ao_pot Hp.
  eapply keeps_bind; [apply (reads_keeps _ _ (reads_get_rr _))|]. intros rr1 _.
  eapply keeps_bind; [apply keeps_lift|]. intros r1 _.
  eapply keeps_bind; [apply (reads_keeps _ _ (reads_get_rr _))|]. intros rr0 _.
  eapply keeps_bind; [apply keeps_lift|]. intros r0 _.
  eapply keeps_bind; [apply (reads_keeps _ _ (reads_load_ao _))|]. intros o _.
  eapply keeps_bind; [apply (reads_keeps _ _ (reads_load_list _))|].
  intros psi _.
  eapply keeps_bind.
  { apply (keeps_for_enumerate h0 _ (λ _, True)); [|done].
    intros sp mu2ff vff _.
    eapply keeps_bind; [apply (reads_keeps _ _ (reads_load_ao _))|].
    intros o' _.
    eapply keeps_bind; [apply (reads_keeps _ _ (reads_item _ _))|].
    intros mu2j _.
    eapply keeps_bind; [apply (reads_keeps _ _ (reads_zip_steps _ _))|].
    intros n _.
    apply (keeps_for_range h0 _ _ (λ _, True)); [|done]. intros mu vff' _.
    by apply keeps_lap_multiplet. }
  intros _ _.
  eapply keeps_bind; [by apply keeps_reset_cutoffs|]. intros _ _.
  by apply keeps_ret.
Qed.

Lemma keeps_ao_log_hartree_sbt (h0 : store F) ao :
  keeps h0 (Heap.ao_log_hartree_sbt ao) (λ ao_pot, length h0 ≤ ao_pot).
Proof.
  unfold Heap.ao_log_hartree_sbt.
  eapply keeps_bind; [apply (reads_keeps _ _ (reads_load_ao _))|]. intros o _.
  eapply keeps_bind; [apply (reads_keeps _ _ (reads_get_rr _))|]. intros rr _.
  eapply keeps_bind; [apply (reads_keeps _ _ (reads_get_pp _))|]. intros pp _.
  eapply keeps_bind; [apply keeps_deepcopy|]. intros ao_pot Hp.
  eapply keeps_bind; [apply (reads_keeps _ _ (reads_load_ao _))|]. intros o1 _.
  eapply keeps_bind; [apply (reads_keeps _ _ (reads_load_list _))|].
  intros psi _.
  eapply keeps_bind.
  { apply (keeps_for_enumerate h0 _ (λ _, True)); [|done].
    intros sp mu2ff u _.
    eapply keeps_bind; [apply (reads_keeps _ _ (reads_load_ao _))|].
    intros o' _.
    eapply keeps_bind; [apply (reads_keeps _ _ (reads_item _ _))|].
    intros mu2j _.
    eapply keeps_bind; [apply (reads_keeps _ _ (reads_zip_steps _ _))|].
    intros n _.
    apply (keeps_for_range h0 _ _ (λ _, True)); [|done]. intros mu u' _.
    by apply keeps_sbt_multiplet. }
  intros _ _.
  eapply keeps_bind; [by apply keeps_reset_cutoffs|]. intros _ _.
  by apply keeps_ret.
Qed.

Lemma extends_refl (h : store F) : extends h h.
Proof.
  split; [done|]. intros l o x Hl Ho. apply lookup_lt_Some in Ho. lia.
Qed.

Lemma reach_fresh (h0 h : store F) (p x : loc) :
  extends h0 h → length h0 ≤ p → x ∈ reach h p → length h0 ≤ x.
Proof.
  intros Hext Hp. unfold reach.
  destruct (h !! p) as [o|] eqn:Ho; [|by intros ->%list_elem_of_singleton].
  destruct o as [| | | |o]; try by intros ->%list_elem_of_singleton.
  assert (Hfield : ∀ y, y ∈ refs_of (AoLog o : obj F) → length h0 ≤ y).
  { intros y. by apply (extends_refs h0 h p). }
  assert (Hitems : ∀ lst, lst ∈ refs_of (AoLog o : obj F) →
            x ∈ items_of h lst → length h0 ≤ x).
  { intros lst Hlst. unfold items_of.
    destruct (h !! lst) as [o'|] eqn:Ho'; [|by intros ?%elem_of_nil].
    destruct o' as [| | |items|]; try by intros ?%elem_of_nil.
    intros Hx.
    apply (extends_refs h0 h lst (PyList items) x);
      [done|by apply Hfield|done|done]. }
  rewrite !elem_of_app.
  intros [Hx|[Hx|[Hx|[Hx|[Hx|[Hx|[Hx|[Hx|Hx]]]]]]]].
  - repeat (apply elem_of_cons in Hx as [->|Hx]; [apply Hfield; elem_list|]).
    by apply elem_of_nil in Hx.
  - apply (Hitems (sp_mu2j_ref o)); [elem_list|done].
  - apply list_elem_of_singleton in Hx as ->. apply Hfield. elem_list.
  - apply (Hitems (psi_log_ref o)); [elem_list|done].
  - apply list_elem_of_singleton in Hx as ->. apply Hfield. elem_list.
  - apply (Hitems (psi_log_rl_ref o)); [elem_list|done].
  - apply list_elem_of_singleton in Hx as ->. apply Hfield. elem_list.
  - apply (Hitems (sp_mu2rcut_ref o)); [elem_list|done].
  - apply elem_of_cons in Hx as [->|Hx]; [apply Hfield; elem_list|].
    by apply list_elem_of_singleton in Hx as ->.
Qed.

End HeapFrame.

(** * The solvers on the store and on values *)

(** ** Running the reads

    What the monadic reads return in a store that holds the objects
    they look for. *)

Section Run.
Context {F : Type} `{FloatOps F} `{SbtEngine F}.
Implicit Types (h : Heap.store F) (l p : Heap.loc).

Lemma run_bind {A B} (m : Heap.hm F A) (f : A → Heap.hm F B) h a h' :
  m h = (Ok a, h') → (m ≫= f) h = f a h'.
Proof. intros Hm. unfold mbind, Heap.hm_bind. by rewrite Hm. Qed.

Lemma run_lift {A} (r : result A) h : Heap.lift r h = (r, h).
Proof. done. Qed.

Lemma run_load h l o : h !! l = Some o → Heap.load l h = (Ok o, h).
Proof. intros Hl. unfold Heap.load. by rewrite Hl. Qed.

Lemma run_load_floats h l a :
  h !! l = Some (Heap.Floats a) → Heap.load_floats l h = (Ok a, h).
Proof.
  intros Hl. unfold Heap.load_floats. by rewrite (run_bind _ _ _ _ _ (run_load _ _ _ Hl)).
Qed.

Lemma run_load_ints h l a :
  h !! l = Some (Heap.Ints a) → Heap.load_ints l h = (Ok a, h).
Proof.
  intros Hl. unfold Heap.load_ints. by rewrite (run_bind _ _ _ _ _ (run_load _ _ _ Hl)).
Qed.

Lemma run_load_floats2 h l a :
  h !! l = Some (Heap.Floats2 a) → Heap.load_floats2 l h = (Ok a, h).
Proof.
  intros Hl. unfold Heap.load_floats2. by rewrite (run_bind _ _ _ _ _ (run_load _ _ _ Hl)).
Qed.

Lemma run_load_list h l items :
  h !! l = Some (Heap.PyList items) → Heap.load_list l h = (Ok items, h).
Proof.
  intros Hl. unfold Heap.load_list. by rewrite (run_bind _ _ _ _ _ (run_load _ _ _ Hl)).
Qed.

Lemma run_load_ao h l o :
  h !! l = Some (Heap.AoLog o) → Heap.load_ao l h = (Ok o, h).
Proof.
  intros Hl. unfold Heap.load_ao. by rewrite (run_bind _ _ _ _ _ (run_load _ _ _ Hl)).
Qed.

Lemma arrays_lookup {A} (mk : A → Heap.obj F) h ls vs i (a : A) :
  arrays mk h ls vs → vs !! i = Some a →
  ∃ l, ls !! i = Some l ∧ h !! l = Some (mk a).
Proof.
  intros Harr Ha. destruct (Forall2_lookup_r _ _ _ _ _ Harr Ha) as (l & Hl & Hh).
  eauto.
Qed.

Lemma arrays_length {A} (mk : A → Heap.obj F) h ls (vs : list A) :
  arrays mk h ls vs → length ls = length vs.
Proof. apply Forall2_length. Qed.

Lemma arrays_prefix {A} (mk : A → Heap.obj F) h h' ls (vs : list A) :
  h `prefix_of` h' → arrays mk h ls vs → arrays mk h' ls vs.
Proof.
  intros Hpre Harr. eapply Forall2_impl; [exact Harr|]. intros l a Hl.
  by apply (prefix_lookup_Some h h').
Qed.

Lemma holds_prefix h h' p L (X : ao_log F) :
  h `prefix_of` h' → holds h p L X → holds h' p L X.
Proof.
  intros Hpre [].
  split; try done; try (by apply (prefix_lookup_Some h h'));
    by apply (arrays_prefix _ h h').
Qed.

(** A write to [l] leaves what is stored elsewhere. *)
Lemma arrays_insert_other {A} (mk : A → Heap.obj F) h ls (vs : list A) l o :
  l ∉ ls → arrays mk h ls vs → arrays mk (<[l:=o]> h) ls vs.
Proof.
  intros Hl Harr. induction Harr as [|l' a ls vs Hl' Harr IH]; [constructor|].
  apply not_elem_of_cons in Hl as [Hne Hl]. constructor; [|by apply IH].
  by rewrite list_lookup_insert_ne.
Qed.

Lemma arrays_insert {A} (mk : A → Heap.obj F) h ls (vs : list A) i l a a0 :
  NoDup ls → ls !! i = Some l → h !! l = Some a0 →
  arrays mk h ls vs →
  arrays mk (<[l:=mk a]> h) ls (<[i:=a]> vs).
Proof.
  intros Hnd Hi Hl0 Harr. revert i Hi.
  induction Harr as [|l' a' ls vs Hl' Harr IH]; intros i Hi; [done|].
  apply NoDup_cons in Hnd as [Hnotin Hnd]. destruct i as [|i]; simpl.
  - injection Hi as <-. constructor.
    + apply list_lookup_insert_eq. by apply lookup_lt_Some in Hl0.
    + by apply arrays_insert_other.
  - simpl in Hi. constructor; [|by apply IH].
    rewrite list_lookup_insert_ne; [done|].
    intros <-. apply Hnotin. by apply list_elem_of_lookup_2 in Hi.
Qed.
End Run.

(** ** Writes into a stored instance

    A write into one array of an instance whose objects are apart
    changes one array of its value. *)

Section Writes.
Context {F : Type} `{FloatOps F} `{SbtEngine F}.
Implicit Types (h : Heap.store F) (l p : Heap.loc) (L : layout).

Lemma prefix_insert (h0 h : Heap.store F) l o :
  h0 `prefix_of` h → length h0 ≤ l → h0 `prefix_of` <[l:=o]> h.
Proof.
  intros [k ->] Hl. exists (<[l - length h0:=o]> k).
  by rewrite insert_app_r_alt.
Qed.

Lemma NoDup_middle {A} (pre mid post : list A) x :
  NoDup (pre ++ mid ++ post) → x ∈ mid →
  ¬ In x pre ∧ NoDup mid ∧ ¬ In x post.
Proof.
  rewrite !NoDup_app. intros (_ & Hpre & Hmid & Hpost & _) Hx.
  split; [|split; [done|]].
  - intros Hin%list_elem_of_In. apply (Hpre x Hin). apply elem_of_app. by left.
  - intros Hin%list_elem_of_In. by apply (Hpost x Hx).
Qed.

(** The instance after a write to one of its arrays of radial functions *)

Lemma holds_write_psi_log h p L (X : ao_log F) sp l a' :
  holds h p L X → NoDup (layout_locs p L) → lo_psi_log L !! sp = Some l →
  holds (<[l:=Heap.Floats2 a']> h) p L
    (with_psi_log (<[sp:=a']> (psi_log X)) X).
Proof.
  intros [Ho Hnr Hns Hj Hrr Hpp Hnm HJl HPl HQl HCl Hc HJ HP HQ HC] Hnd Hl.
  destruct (NoDup_middle
    ([Heap.rr_ref (lo_obj L); Heap.pp_ref (lo_obj L);
      Heap.sp2nmult_ref (lo_obj L); Heap.sp_mu2j_ref (lo_obj L)] ++ lo_sp_mu2j L
     ++ [Heap.psi_log_ref (lo_obj L)])
    (lo_psi_log L)
    ([Heap.psi_log_rl_ref (lo_obj L)] ++ lo_psi_log_rl L
     ++ [Heap.sp_mu2rcut_ref (lo_obj L)] ++ lo_sp_mu2rcut L
     ++ [Heap.sp2rcut_ref (lo_obj L); p])
    l)
    as (Hpre & HndP & Hpost).
  { revert Hnd. unfold layout_locs.
    by repeat (progress (simpl; rewrite <-?app_assoc)). }
  { by apply list_elem_of_lookup_2 in Hl. }
  destruct (Forall2_lookup_l _ _ _ _ _ HP Hl) as (a0 & _ & Hl0).
  split; simpl; try done;
    try (rewrite list_lookup_insert_ne; [done|apart Hpre Hpost]).
  - apply arrays_insert_other; [apart Hpre Hpost|done].
  - by apply (arrays_insert _ _ _ _ _ _ _ (Heap.Floats2 a0)).
  - apply arrays_insert_other; [apart Hpre Hpost|done].
  - apply arrays_insert_other; [apart Hpre Hpost|done].
Qed.

Lemma holds_write_psi_log_rl h p L (X : ao_log F) sp l a' :
  holds h p L X → NoDup (layout_locs p L) → lo_psi_log_rl L !! sp = Some l →
  holds (<[l:=Heap.Floats2 a']> h) p L
    (with_psi_log_rl (<[sp:=a']> (psi_log_rl X)) X).
Proof.
  intros [Ho Hnr Hns Hj Hrr Hpp Hnm HJl HPl HQl HCl Hc HJ HP HQ HC] Hnd Hl.
  destruct (NoDup_middle
    ([Heap.rr_ref (lo_obj L); Heap.pp_ref (lo_obj L);
      Heap.sp2nmult_ref (lo_obj L); Heap.sp_mu2j_ref (lo_obj L)] ++ lo_sp_mu2j L
     ++ [Heap.psi_log_ref (lo_obj L)] ++ lo_psi_log L
     ++ [Heap.psi_log_rl_ref (lo_obj L)])
    (lo_psi_log_rl L)
    ([Heap.sp_mu2rcut_ref (lo_obj L)] ++ lo_sp_mu2rcut L
     ++ [Heap.sp2rcut_ref (lo_obj L); p])
    l)
    as (Hpre & HndP & Hpost).
  { revert Hnd. unfold layout_locs.
    by repeat (progress (simpl; rewrite <-?app_assoc)). }
  { by apply list_elem_of_lookup_2 in Hl. }
  destruct (Forall2_lookup_l _ _ _ _ _ HQ Hl) as (a0 & _ & Hl0).
  split; simpl; try done;
    try (rewrite list_lookup_insert_ne; [done|apart Hpre Hpost]).
  - apply arrays_insert_other; [apart Hpre Hpost|done].
  - apply arrays_insert_other; [apart Hpre Hpost|done].
  - by apply (arrays_insert _ _ _ _ _ _ _ (Heap.Floats2 a0)).
  - apply arrays_insert_other; [apart Hpre Hpost|done].
Qed.

Lemma holds_write_sp_mu2rcut h p L (X : ao_log F) sp l c' :
  holds h p L X → NoDup (layout_locs p L) → lo_sp_mu2rcut L !! sp = Some l →
  holds (<[l:=Heap.Floats c']> h) p L
    (with_sp_mu2rcut (<[sp:=c']> (sp_mu2rcut X)) X).
Proof.
  intros [Ho Hnr Hns Hj Hrr Hpp Hnm HJl HPl HQl HCl Hc HJ HP HQ HC] Hnd Hl.
  destruct (NoDup_middle
    ([Heap.rr_ref (lo_obj L); Heap.pp_ref (lo_obj L);
      Heap.sp2nmult_ref (lo_obj L); Heap.sp_mu2j_ref (lo_obj L)] ++ lo_sp_mu2j L
     ++ [Heap.psi_log_ref (lo_obj L)] ++ lo_psi_log L
     ++ [Heap.psi_log_rl_ref (lo_obj L)] ++ lo_psi_log_rl L
     ++ [Heap.sp_mu2rcut_ref (lo_obj L)])
    (lo_sp_mu2rcut L)
    ([Heap.sp2rcut_ref (lo_obj L); p])
    l)
    as (Hpre & HndP & Hpost).
  { revert Hnd. unfold layout_locs.
    by repeat (progress (simpl; rewrite <-?app_assoc)). }
  { by apply list_elem_of_lookup_2 in Hl. }
  destruct (Forall2_lookup_l _ _ _ _ _ HC Hl) as (a0 & _ & Hl0).
  split; simpl; try done;
    try (rewrite list_lookup_insert_ne; [done|apart Hpre Hpost]).
  - apply arrays_insert_other; [apart Hpre Hpost|done].
  - apply arrays_insert_other; [apart Hpre Hpost|done].
  - apply arrays_insert_other; [apart Hpre Hpost|done].
  - by apply (arrays_insert _ _ _ _ _ _ _ (Heap.Floats a0)).
Qed.

Lemma holds_write_sp2rcut h p L (X : ao_log F) c' :
  holds h p L X → NoDup (layout_locs p L) →
  holds (<[Heap.sp2rcut_ref (lo_obj L):=Heap.Floats c']> h) p L
    (with_sp2rcut c' X).
Proof.
  intros [Ho Hnr Hns Hj Hrr Hpp Hnm HJl HPl HQl HCl Hc HJ HP HQ HC] Hnd.
  destruct (NoDup_middle
    ([Heap.rr_ref (lo_obj L); Heap.pp_ref (lo_obj L);
      Heap.sp2nmult_ref (lo_obj L); Heap.sp_mu2j_ref (lo_obj L)] ++ lo_sp_mu2j L
     ++ [Heap.psi_log_ref (lo_obj L)] ++ lo_psi_log L
     ++ [Heap.psi_log_rl_ref (lo_obj L)] ++ lo_psi_log_rl L
     ++ [Heap.sp_mu2rcut_ref (lo_obj L)] ++ lo_sp_mu2rcut L)
    ([Heap.sp2rcut_ref (lo_obj L)])
    ([p])
    (Heap.sp2rcut_ref (lo_obj L)))
    as (Hpre & _ & Hpost).
  { revert Hnd. unfold layout_locs.
    by repeat (progress (simpl; rewrite <-?app_assoc)). }
  { apply list_elem_of_singleton. done. }
  split; simpl; try done;
    try (rewrite list_lookup_insert_ne; [done|apart Hpre Hpost]).
  - apply list_lookup_insert_eq. by apply lookup_lt_Some in Hc.
  - apply arrays_insert_other; [apart Hpre Hpost|done].
  - apply arrays_insert_other; [apart Hpre Hpost|done].
  - apply arrays_insert_other; [apart Hpre Hpost|done].
  - apply arrays_insert_other; [apart Hpre Hpost|done].
Qed.
End Writes.

(** ** The assignments on values and on the store

    [h0] is the store the call started in, with the argument [v] at
    [ao]; [p] is the result under construction, in objects allocated
    since. *)

Section Sim.
Context {F : Type} `{FloatOps F} `{SbtEngine F}.
Context (h0 : Heap.store F) (ao : Heap.loc) (L0 : layout) (v : ao_log F).
Context (Hin : holds h0 ao L0 v).
Context (p : Heap.loc) (L : layout).
Context (Hnd : NoDup (layout_locs p L)).
Context (Hfresh : ∀ l, l ∈ layout_locs p L → length h0 ≤ l).
Implicit Types (h : Heap.store F) (X : ao_log F).

Lemma tracks_input h X : tracks h0 p L h X → holds h ao L0 v.
Proof using Hin. intros [Hpre _]. by apply (holds_prefix h0 h). Qed.

Lemma run_item h lst items i l :
  h !! lst = Some (Heap.PyList items) → items !! i = Some l →
  Heap.item lst i h = (Ok l, h).
Proof.
  intros Hlst Hi. unfold Heap.item.
  rewrite (run_bind _ _ _ _ _ (run_load_list _ _ _ Hlst)).
  by rewrite run_lift, (getitem_Ok _ _ _ Hi).
Qed.

Lemma run_store_row h l a mu src a' :
  h !! l = Some (Heap.Floats2 a) → setrow a mu src = Ok a' →
  Heap.store_row l mu src h = (Ok (), <[l:=Heap.Floats2 a']> h).
Proof.
  intros Hl Hset. unfold Heap.store_row.
  rewrite (run_bind _ _ _ _ _ (run_load_floats2 _ _ _ Hl)).
  rewrite (run_bind _ (λ rows', Heap.write l (Heap.Floats2 rows')) h a' h);
    [done|by rewrite run_lift, Hset].
Qed.

Lemma psi_log_fresh sp l : lo_psi_log L !! sp = Some l → length h0 ≤ l.
Proof using Hfresh.
  intros Hl%list_elem_of_lookup_2%list_elem_of_In. apply Hfresh.
  unfold layout_locs. apply list_elem_of_In. in_list.
Qed.

Lemma psi_log_rl_fresh sp l : lo_psi_log_rl L !! sp = Some l → length h0 ≤ l.
Proof using Hfresh.
  intros Hl%list_elem_of_lookup_2%list_elem_of_In. apply Hfresh.
  unfold layout_locs. apply list_elem_of_In. in_list.
Qed.

Lemma sp_mu2rcut_fresh sp l : lo_sp_mu2rcut L !! sp = Some l → length h0 ≤ l.
Proof using Hfresh.
  intros Hl%list_elem_of_lookup_2%list_elem_of_In. apply Hfresh.
  unfold layout_locs. apply list_elem_of_In. in_list.
Qed.

Lemma sp2rcut_fresh : length h0 ≤ Heap.sp2rcut_ref (lo_obj L).
Proof using Hfresh.
  apply Hfresh. unfold layout_locs. apply list_elem_of_In. in_list.
Qed.

Lemma sim_set_psi_log h X sp mu src X' :
  tracks h0 p L h X → set_psi_log X sp mu src = Ok X' →
  ∃ h', Heap.set_psi_log p sp mu src h = (Ok (), h') ∧ tracks h0 p L h' X'.
Proof using Hnd Hfresh.
  intros [Hpre Hh].
  intros (a & Ha%getitem_Ok_inv & (a' & Ha' & [= <-])%bind_Ok)%bind_Ok.
  destruct (arrays_lookup _ _ _ _ _ _ (holds_psi_log _ _ _ _ Hh) Ha)
    as (l & Hl & Hla).
  exists (<[l:=Heap.Floats2 a']> h). split.
  - unfold Heap.set_psi_log.
    rewrite (run_bind _ _ _ _ _ (run_load_ao _ _ _ (holds_obj _ _ _ _ Hh))).
    rewrite (run_bind _ _ _ _ _
               (run_item _ _ _ _ _ (holds_psi_log_list _ _ _ _ Hh) Hl)).
    by apply (run_store_row h l a).
  - split.
    + apply prefix_insert; [done|]. by apply (psi_log_fresh sp).
    + by apply holds_write_psi_log.
Qed.

Lemma sim_set_psi_log_rl h X sp mu src X' :
  tracks h0 p L h X → set_psi_log_rl X sp mu src = Ok X' →
  ∃ h', Heap.set_psi_log_rl p sp mu src h = (Ok (), h') ∧ tracks h0 p L h' X'.
Proof using Hnd Hfresh.
  intros [Hpre Hh].
  intros (a & Ha%getitem_Ok_inv & (a' & Ha' & [= <-])%bind_Ok)%bind_Ok.
  destruct (arrays_lookup _ _ _ _ _ _ (holds_psi_log_rl _ _ _ _ Hh) Ha)
    as (l & Hl & Hla).
  exists (<[l:=Heap.Floats2 a']> h). split.
  - unfold Heap.set_psi_log_rl.
    rewrite (run_bind _ _ _ _ _ (run_load_ao _ _ _ (holds_obj _ _ _ _ Hh))).
    rewrite (run_bind _ _ _ _ _
               (run_item _ _ _ _ _ (holds_psi_log_rl_list _ _ _ _ Hh) Hl)).
    by apply (run_store_row h l a).
  - split.
    + apply prefix_insert; [done|]. by apply (psi_log_rl_fresh sp).
    + by apply holds_write_psi_log_rl.
Qed.

Lemma run_get_rr h q Lq (Y : ao_log F) :
  holds h q Lq Y → Heap.get_rr q h = (Ok (rr Y), h).
Proof.
  intros Hh. unfold Heap.get_rr.
  rewrite (run_bind _ _ _ _ _ (run_load_ao _ _ _ (holds_obj _ _ _ _ Hh))).
  apply run_load_floats, (holds_rr _ _ _ _ Hh).
Qed.

Lemma run_get_pp h q Lq (Y : ao_log F) :
  holds h q Lq Y → Heap.get_pp q h = (Ok (pp Y), h).
Proof.
  intros Hh. unfold Heap.get_pp.
  rewrite (run_bind _ _ _ _ _ (run_load_ao _ _ _ (holds_obj _ _ _ _ Hh))).
  apply run_load_floats, (holds_pp _ _ _ _ Hh).
Qed.

Lemma run_load_row h l a mu row :
  h !! l = Some (Heap.Floats2 a) → a !! mu = Some row →
  Heap.load_row l mu h = (Ok row, h).
Proof.
  intros Hl Hrow. unfold Heap.load_row.
  rewrite (run_bind _ _ _ _ _ (run_load_floats2 _ _ _ Hl)).
  by rewrite run_lift; unfold getrow; rewrite (getitem_Ok _ _ _ Hrow).
Qed.

Lemma sim_rescale h X sp mu am X' :
  tracks h0 p L h X → rescale v X sp mu am = Ok X' →
  ∃ h', Heap.rescale ao p sp mu am h = (Ok (), h') ∧ tracks h0 p L h' X'.
Proof using Hin Hnd Hfresh.
  intros Ht.
  intros (a & Ha%getitem_Ok_inv & (row & Hrow%getitem_Ok_inv
            & (q & Hq & Hset)%bind_Ok)%bind_Ok)%bind_Ok.
  destruct Ht as [Hpre Hh].
  destruct (arrays_lookup _ _ _ _ _ _ (holds_psi_log _ _ _ _ Hh) Ha)
    as (l & Hl & Hla).
  destruct (sim_set_psi_log_rl h X sp mu q X' (conj Hpre Hh) Hset)
    as (h' & Hrun & Ht').
  exists h'. split; [|done]. unfold Heap.rescale.
  rewrite (run_bind _ _ _ _ _ (run_load_ao _ _ _ (holds_obj _ _ _ _ Hh))).
  rewrite (run_bind _ _ _ _ _
             (run_item _ _ _ _ _ (holds_psi_log_list _ _ _ _ Hh) Hl)).
  rewrite (run_bind _ _ _ _ _ (run_load_row _ _ _ _ _ Hla Hrow)).
  rewrite (run_bind _ _ _ _ _
             (run_get_rr _ _ _ _ (tracks_input h X (conj Hpre Hh)))).
  rewrite (run_bind _ _ h q h); [done|by rewrite run_lift, Hq].
Qed.
End Sim.

(** ** Loops that run in step *)

Section SimLoops.
Context {F : Type} `{FloatOps F} `{SbtEngine F}.

(** A loop on values and a loop on the store that run in step. *)
Lemma sim_for_enumerate {A B Sv Sh} (R : Heap.store F → Sv → Sh → Prop)
    (T : nat → A → B → Prop)
    (body_v : nat → A → Sv → result Sv)
    (body_h : nat → B → Sh → Heap.hm F Sh) xs ys i sv sh h sv' :
  length xs = length ys →
  (∀ k x y, xs !! k = Some x → ys !! k = Some y → T (i + k) x y) →
  (∀ k x y h sv sh sv', T k x y → R h sv sh → body_v k x sv = Ok sv' →
     ∃ sh' h', body_h k y sh h = (Ok sh', h') ∧ R h' sv' sh') →
  R h sv sh → for_enumerate body_v i xs sv = Ok sv' →
  ∃ sh' h', for_enumerate body_h i ys sh h = (Ok sh', h') ∧ R h' sv' sh'.
Proof.
  intros Hlen HT Hstep. revert ys i sv sh h Hlen HT.
  induction xs as [|x xs IH]; intros [|y ys] i sv sh h Hlen HT HR; try done;
    simpl.
  - intros [= <-]. by exists sh, h.
  - intros (sv1 & Hv1 & Hrest)%bind_Ok.
    destruct (Hstep i x y h sv sh sv1) as (sh1 & h1 & Hh1 & HR1); [|done..|].
    { specialize (HT 0 x y eq_refl eq_refl). by rewrite Nat.add_0_r in HT. }
    rewrite (run_bind _ _ _ _ _ Hh1).
    apply (IH ys (S i) sv1 sh1 h1); [by injection Hlen| |done..].
    intros k x' y' Hx' Hy'. replace (S i + k) with (i + S k) by lia.
    by apply HT.
Qed.

Lemma sim_for_range {Sv Sh} (R : Heap.store F → Sv → Sh → Prop) n
    (body_v : nat → Sv → result Sv) (body_h : nat → Sh → Heap.hm F Sh)
    sv sh h sv' :
  (∀ k h sv sh sv', k < n → R h sv sh → body_v k sv = Ok sv' →
     ∃ sh' h', body_h k sh h = (Ok sh', h') ∧ R h' sv' sh') →
  R h sv sh → for_range n body_v sv = Ok sv' →
  ∃ sh' h', for_range n body_h sh h = (Ok sh', h') ∧ R h' sv' sh'.
Proof.
  intros Hstep. unfold for_range.
  apply (sim_for_enumerate R (λ k _ _, k < n)); [done| |].
  - intros k x y [-> Hk]%lookup_seq _. lia.
  - intros k x y h1 sv1 sh1 sv1' Hk. by apply Hstep.
Qed.
End SimLoops.

(** ** The loop bodies of the solvers *)

Section SimSolvers.
Context {F : Type} `{FloatOps F} `{SbtEngine F}.
Context (h0 : Heap.store F) (ao : Heap.loc) (L0 : layout) (v : ao_log F).
Context (Hin : holds h0 ao L0 v).
Context (p : Heap.loc) (L : layout).
Context (Hnd : NoDup (layout_locs p L)).
Context (Hfresh : ∀ l, l ∈ layout_locs p L → length h0 ≤ l).
Implicit Types (h : Heap.store F) (X : ao_log F).

Lemma run_rr_last h X rmax :
  tracks h0 p L h X → getitem_last (rr v) = Ok rmax →
  Heap.rr_last ao h = (Ok rmax, h).
Proof using Hin.
  intros Ht Hlast. unfold Heap.rr_last.
  rewrite (run_bind _ _ _ _ _
             (run_get_rr _ _ _ _ (tracks_input h0 ao L0 v Hin p L h X Ht))).
  by rewrite run_lift, Hlast.
Qed.

Lemma run_fill h l c rmax :
  h !! l = Some (Heap.Floats c) →
  Heap.fill l rmax h = (Ok (), <[l:=Heap.Floats (np_fill c rmax)]> h).
Proof.
  intros Hl. unfold Heap.fill.
  by rewrite (run_bind _ _ _ _ _ (run_load_floats _ _ _ Hl)).
Qed.

Lemma sim_reset_cutoffs h X X' :
  tracks h0 p L h X → reset_cutoffs v X = Ok X' →
  ∃ h', Heap.reset_cutoffs ao p h = (Ok (), h') ∧ tracks h0 p L h' X'.
Proof using Hin Hnd Hfresh.
  intros Ht. unfold reset_cutoffs.
  intros (Y & Hloop & (rmax & Hlast & [= <-])%bind_Ok)%bind_Ok.
  unfold Heap.reset_cutoffs.
  pose proof (tracks_input h0 ao L0 v Hin p L h X Ht) as Hao.
  rewrite (run_bind _ _ _ _ _ (run_load_ao _ _ _ (holds_obj _ _ _ _ Hao))).
  rewrite (holds_nspecies _ _ _ _ Hao).
  destruct (sim_for_range (λ h Y (_ : ()), tracks h0 p L h Y) (nspecies v)
    (λ sp ao_pot,
       mu2rcut ← getitem (sp_mu2rcut ao_pot) sp;
       rmax ← getitem_last (rr v);
       Ok (with_sp_mu2rcut
             (<[sp:=np_fill mu2rcut rmax]> (sp_mu2rcut ao_pot)) ao_pot))
    (λ sp _,
       op ← Heap.load_ao p;
       mu2rcut ← Heap.item (Heap.sp_mu2rcut_ref op) sp;
       rmax ← Heap.rr_last ao;
       Heap.fill mu2rcut rmax) X () h Y) as ([] & h1 & Hrun1 & Ht1);
    [|done|done|].
  { intros sp h2 Z [] Z' Hsp [Hpre2 Hh2].
    intros (c & Hc%getitem_Ok_inv & (rmax' & Hlast' & [= <-])%bind_Ok)%bind_Ok.
    destruct (arrays_lookup _ _ _ _ _ _ (holds_sp_mu2rcut _ _ _ _ Hh2) Hc)
      as (l & Hl & Hlc).
    exists (), (<[l:=Heap.Floats (np_fill c rmax')]> h2). split.
    - rewrite (run_bind _ _ _ _ _ (run_load_ao _ _ _ (holds_obj _ _ _ _ Hh2))).
      rewrite (run_bind _ _ _ _ _
                 (run_item _ _ _ _ _ (holds_sp_mu2rcut_list _ _ _ _ Hh2) Hl)).
      rewrite (run_bind _ _ _ _ _
                 (run_rr_last h2 Z rmax' (conj Hpre2 Hh2) Hlast')).
      by apply run_fill.
    - split.
      + apply prefix_insert; [done|]. by apply (sp_mu2rcut_fresh h0 p L Hfresh sp).
      + by apply holds_write_sp_mu2rcut. }
  rewrite (run_bind _ _ _ _ _ Hrun1). destruct Ht1 as [Hpre1 Hh1].
  rewrite (run_bind _ _ _ _ _ (run_load_ao _ _ _ (holds_obj _ _ _ _ Hh1))).
  rewrite (run_bind _ _ _ _ _ (run_rr_last h1 Y rmax (conj Hpre1 Hh1) Hlast)).
  rewrite (run_fill _ _ _ _ (holds_sp2rcut _ _ _ _ Hh1)).
  eexists. split; [done|]. split.
  - apply prefix_insert; [done|]. by apply (sp2rcut_fresh h0 p L).
  - by apply holds_write_sp2rcut.
Qed.

(** A step of [enumerate(zip(mu2ff, mu2j))] on arrays of the argument *)
Lemma run_zip_step h X l_ff l_j (mu2ff : list (list F)) (mu2j : list Z)
    mu ff am :
  tracks h0 p L h X →
  h0 !! l_ff = Some (Heap.Floats2 mu2ff) → h0 !! l_j = Some (Heap.Ints mu2j) →
  mu2ff !! mu = Some ff → mu2j !! mu = Some am →
  Heap.zip_step l_ff l_j mu h = (Ok (ff, am), h).
Proof.
  intros [Hpre _] Hff Hj Hmu Ham. unfold Heap.zip_step.
  rewrite (run_bind _ _ _ _ _
    (run_load_row _ _ _ _ _ (prefix_lookup_Some _ _ _ _ Hff Hpre) Hmu)).
  rewrite (run_bind _ _ _ _ _
    (run_load_ints _ _ _ (prefix_lookup_Some _ _ _ _ Hj Hpre))).
  rewrite (run_bind _ _ h am h); [done|].
  by rewrite run_lift, (getitem_Ok _ _ _ Ham).
Qed.

Lemma run_zip_steps h X l_ff l_j (mu2ff : list (list F)) (mu2j : list Z) :
  tracks h0 p L h X →
  h0 !! l_ff = Some (Heap.Floats2 mu2ff) → h0 !! l_j = Some (Heap.Ints mu2j) →
  Heap.zip_steps l_ff l_j h = (Ok (length (zip mu2ff mu2j)), h).
Proof.
  intros [Hpre _] Hff Hj. unfold Heap.zip_steps.
  rewrite (run_bind _ _ _ _ _
    (run_load_floats2 _ _ _ (prefix_lookup_Some _ _ _ _ Hff Hpre))).
  rewrite (run_bind _ _ _ _ _
    (run_load_ints _ _ _ (prefix_lookup_Some _ _ _ _ Hj Hpre))).
  by rewrite length_zip_with.
Qed.

Lemma sim_lap_multiplet h X vff dr sp mu l_ff l_j (mu2ff : list (list F))
    (mu2j : list Z) ff am X' vff' :
  tracks h0 p L h X →
  h0 !! l_ff = Some (Heap.Floats2 mu2ff) → h0 !! l_j = Some (Heap.Ints mu2j) →
  mu2ff !! mu = Some ff → mu2j !! mu = Some am →
  lap_multiplet v dr sp mu ff am (X, vff) = Ok (X', vff') →
  ∃ h', Heap.lap_multiplet ao p dr sp mu l_ff l_j vff h = (Ok vff', h') ∧
    tracks h0 p L h' X'.
Proof using Hin Hnd Hfresh.
  intros Ht Hff Hj Hmu Ham. unfold lap_multiplet.
  intros (ffrr3 & H3 & (w & Hw & (X1 & HX1 & (X2 & HX2 & [= <- <-])%bind_Ok)
            %bind_Ok)%bind_Ok)%bind_Ok.
  pose proof (tracks_input h0 ao L0 v Hin p L h X Ht) as Hao.
  destruct (sim_set_psi_log h0 p L Hnd Hfresh h X sp mu _ X1 Ht HX1)
    as (h1 & Hrun1 & Ht1).
  destruct (sim_rescale h0 ao L0 v Hin p L Hnd Hfresh h1 X1 sp mu am X2 Ht1 HX2)
    as (h2 & Hrun2 & Ht2).
  exists h2. split; [|done]. unfold Heap.lap_multiplet.
  rewrite (run_bind _ _ _ _ _
             (run_zip_step h X l_ff l_j mu2ff mu2j mu ff am Ht Hff Hj Hmu Ham)).
  rewrite (run_bind _ _ _ _ _ (run_get_rr _ _ _ _ Hao)).
  rewrite (run_bind _ _ h ffrr3 h) by (by rewrite run_lift, H3).
  rewrite (run_bind _ _ _ _ _ (run_load_ao _ _ _ (holds_obj _ _ _ _ Hao))).
  rewrite (run_bind _ _ _ _ _ (run_get_rr _ _ _ _ Hao)).
  rewrite (holds_nr _ _ _ _ Hao).
  rewrite (run_bind _ _ h w h) by (by rewrite run_lift, Hw).
  rewrite (run_bind _ _ _ _ _ Hrun1). by rewrite (run_bind _ _ _ _ _ Hrun2).
Qed.

Lemma sim_sbt_multiplet h X e sp mu l_ff l_j (mu2ff : list (list F))
    (mu2j : list Z) ff am X' :
  tracks h0 p L h X →
  h0 !! l_ff = Some (Heap.Floats2 mu2ff) → h0 !! l_j = Some (Heap.Ints mu2j) →
  mu2ff !! mu = Some ff → mu2j !! mu = Some am →
  sbt_multiplet v e sp mu ff am X = Ok X' →
  ∃ h', Heap.sbt_multiplet ao p e sp mu l_ff l_j h = (Ok (), h') ∧
    tracks h0 p L h' X'.
Proof using Hin Hnd Hfresh.
  intros Ht Hff Hj Hmu Ham. unfold sbt_multiplet.
  intros (q & Hq & (X1 & HX1 & HX2)%bind_Ok)%bind_Ok.
  pose proof (tracks_input h0 ao L0 v Hin p L h X Ht) as Hao.
  destruct (sim_set_psi_log h0 p L Hnd Hfresh h X sp mu _ X1 Ht HX1)
    as (h1 & Hrun1 & Ht1).
  destruct (sim_rescale h0 ao L0 v Hin p L Hnd Hfresh h1 X1 sp mu am X' Ht1 HX2)
    as (h2 & Hrun2 & Ht2).
  exists h2. split; [|done]. unfold Heap.sbt_multiplet.
  rewrite (run_bind _ _ _ _ _
             (run_zip_step h X l_ff l_j mu2ff mu2j mu ff am Ht Hff Hj Hmu Ham)).
  rewrite (run_bind _ _ _ _ _ (run_get_pp _ _ _ _ Hao)).
  rewrite (run_bind _ _ h q h) by (by rewrite run_lift, Hq).
  by rewrite (run_bind _ _ _ _ _ Hrun1).
Qed.
End SimSolvers.

(** ** [copy.deepcopy]: arrays and lists of arrays *)

Section Copy.
Context {F : Type} `{FloatOps F} `{SbtEngine F}.
Implicit Types (h : Heap.store F) (l p : Heap.loc) (m : gmap Heap.loc Heap.loc).

Lemma memo_keys_none m K x : memo_keys m K → ¬ In x K → m !! x = None.
Proof.
  intros Hm Hx. destruct (m !! x) eqn:Hmx; [|done].
  exfalso. apply Hx, Hm. by rewrite Hmx.
Qed.

Lemma memo_keys_insert m K l l' :
  memo_keys m K → memo_keys (<[l:=l']> m) (l :: K).
Proof.
  intros Hm x. rewrite lookup_insert. case_decide as Hx; [by left|].
  intros Hs. right. by apply Hm.
Qed.

Lemma memo_keys_mono m K K' :
  memo_keys m K → (∀ x, In x K → In x K') → memo_keys m K'.
Proof. intros Hm HS x Hx. by apply HS, Hm. Qed.

Lemma run_alloc h (o : Heap.obj F) : Heap.alloc o h = (Ok (length h), h ++ [o]).
Proof. done. Qed.

Lemma run_copy_array h m l o :
  h !! l = Some o → is_array o → m !! l = None →
  Heap.copy_array m l h = (Ok (length h, <[l:=length h]> m), h ++ [o]).
Proof.
  intros Hl Ho Hm. unfold Heap.copy_array. rewrite Hm.
  rewrite (run_bind _ _ _ _ _ (run_load _ _ _ Hl)).
  destruct o; try done.
Qed.

Lemma run_copy_items (items : list Heap.loc) :
  ∀ (objs : list (Heap.obj F)) h m K (acc : list Heap.loc) i,
  Forall2 (λ x o, h !! x = Some o ∧ is_array o) items objs →
  NoDup items → memo_keys m K → (∀ x, In x items → ¬ In x K) →
  ∃ m',
    for_enumerate (λ (_ : nat) x '(items', m),
        '(x', m) ← Heap.copy_array m x; mret (items' ++ [x'], m))
      i items (acc, m) h =
    (Ok (acc ++ seq (length h) (length items), m'), h ++ objs) ∧
    memo_keys m' (items ++ K).
Proof.
  induction items as [|x items IH]; intros objs h m K acc i Hall Hnd Hm HS.
  - apply Forall2_nil_inv_l in Hall as ->. exists m. simpl.
    by rewrite !app_nil_r.
  - apply Forall2_cons_inv_l in Hall as (o & objs' & [Hx Ho] & Hall & ->).
    apply NoDup_cons in Hnd as [Hxn Hnd]. simpl.
    assert (Hstep : ('(x', m) ← Heap.copy_array m x;
                     mret (acc ++ [x'], m)) h =
              (Ok (acc ++ [length h], <[x:=length h]> m), h ++ [o])).
    { by rewrite (run_bind _ _ _ _ _
        (run_copy_array h m x o Hx Ho
           (memo_keys_none m K x Hm (HS x (or_introl eq_refl))))). }
    rewrite (run_bind _ _ _ _ _ Hstep).
    destruct (IH objs' (h ++ [o]) (<[x:=length h]> m) (x :: K)
                (acc ++ [length h]) (S i)) as (m' & Hrun & Hm').
    + eapply Forall2_impl; [exact Hall|]. intros y oy [Hy Hoy]. split; [|done].
      by apply lookup_app_l_Some.
    + done.
    + by apply memo_keys_insert.
    + intros y Hy [->|Hin]; [by apply Hxn, list_elem_of_In|].
      by apply (HS y); [right|].
    + exists m'. split.
      * rewrite Hrun. rewrite length_app. simpl.
        rewrite <-!app_assoc. simpl.
        by replace (length h + 1) with (S (length h)) by lia.
      * eapply memo_keys_mono; [exact Hm'|]. intros y. simpl.
        rewrite !in_app_iff. simpl. tauto.
Qed.

Lemma run_copy_list h m K l items (objs : list (Heap.obj F)) :
  h !! l = Some (Heap.PyList items) →
  Forall2 (λ x o, h !! x = Some o ∧ is_array o) items objs →
  NoDup items → memo_keys m K → ¬ In l K → (∀ x, In x items → ¬ In x K) →
  ∃ m',
    Heap.copy_list m l h =
    (Ok (length h + length items, m'),
     h ++ objs ++ [Heap.PyList (seq (length h) (length items))]) ∧
    memo_keys m' (l :: items ++ K).
Proof.
  intros Hl Hall Hnd Hm HlS HS. unfold Heap.copy_list.
  rewrite (memo_keys_none m K l Hm HlS).
  rewrite (run_bind _ _ _ _ _ (run_load_list _ _ _ Hl)).
  destruct (run_copy_items items objs h m K [] 0 Hall Hnd Hm HS)
    as (m' & Hrun & Hm').
  rewrite (run_bind _ _ _ _ _ Hrun). simpl.
  exists (<[l:=length (h ++ objs)]> m'). split.
  - rewrite (run_bind _ _ _ _ _ (run_alloc _ _)). simpl.
    rewrite length_app, (Forall2_length _ _ _ Hall), <-app_assoc. done.
  - by apply memo_keys_insert.
Qed.
End Copy.

Ltac norm_app := repeat (progress (simpl; rewrite <-?app_assoc)).

(** [In x K] from [In x K'] for two lists with the same elements. *)
Ltac in_same Hin :=
  repeat (progress (simpl in Hin; rewrite ?in_app_iff in Hin));
  repeat (progress (simpl; rewrite ?in_app_iff));
  intuition (subst; auto).

(** ** What was allocated stays *)

Section Alloc.
Context {F : Type} `{FloatOps F} `{SbtEngine F}.
Implicit Types (h : Heap.store F) (l p : Heap.loc).

Lemma lookup_alloc_prefix h (o : Heap.obj F) h' :
  (h ++ [o]) `prefix_of` h' → h' !! length h = Some o.
Proof.
  intros Hpre. apply (prefix_lookup_Some (h ++ [o]) h'); [|done].
  by rewrite lookup_app_r, Nat.sub_diag.
Qed.

Lemma lookup_alloc_list_prefix h (objs : list (Heap.obj F)) o h' :
  (h ++ objs ++ [o]) `prefix_of` h' →
  h' !! (length h + length objs) = Some o.
Proof.
  intros Hpre. apply (prefix_lookup_Some (h ++ objs ++ [o]) h'); [|done].
  rewrite lookup_app_r by lia. rewrite lookup_app_r by lia.
  by replace (length h + length objs - length h - length objs) with 0 by lia.
Qed.

Lemma arrays_alloc_prefix {A} (mk : A → Heap.obj F) h (vs : list A) k h' n :
  (h ++ (mk <$> vs) ++ k) `prefix_of` h' → n = length vs →
  arrays mk h' (seq (length h) n) vs.
Proof.
  intros Hpre ->. apply Forall2_lookup. intros i.
  destruct (vs !! i) as [a|] eqn:Ha.
  - rewrite lookup_seq_lt by (by apply lookup_lt_Some in Ha). constructor.
    apply (prefix_lookup_Some (h ++ (mk <$> vs) ++ k) h'); [|done].
    rewrite lookup_app_r by lia.
    replace (length h + i - length h) with i by lia.
    apply lookup_app_l_Some. by rewrite list_lookup_fmap, Ha.
  - rewrite lookup_seq_ge by (by apply lookup_ge_None_1 in Ha). constructor.
Qed.

Lemma arrays_copyable {A} (mk : A → Heap.obj F) h h' ls (vs : list A) :
  arrays mk h ls vs → h `prefix_of` h' → (∀ a, is_array (mk a)) →
  Forall2 (λ x o, h' !! x = Some o ∧ is_array o) ls (mk <$> vs).
Proof.
  intros Harr Hpre Hmk. apply Forall2_fmap_r.
  eapply Forall2_impl; [exact Harr|]. intros l a Hl. split; [|done].
  by apply (prefix_lookup_Some h h').
Qed.
End Alloc.

Ltac elem_norm :=
  repeat first
    [ rewrite elem_of_app | rewrite elem_of_cons
    | rewrite elem_of_seq | rewrite elem_of_nil ].

Ltac elem_norm_in H :=
  repeat first
    [ rewrite elem_of_app in H | rewrite elem_of_cons in H
    | rewrite elem_of_seq in H | rewrite elem_of_nil in H ].

Ltac seq_arith :=
  repeat first [ rewrite NoDup_cons | rewrite NoDup_app ];
  repeat split; try apply NoDup_seq; try apply NoDup_nil_2;
  intros;
  repeat match goal with
         | H : _ ∈ _ |- _ => progress (elem_norm_in H)
         end;
  elem_norm; lia.

(** ** [copy.deepcopy] of an instance whose objects are apart *)

Section Deepcopy.
Context {F : Type} `{FloatOps F} `{SbtEngine F}.
Implicit Types (h : Heap.store F) (l p : Heap.loc).

Lemma copy_array_step h (m : gmap Heap.loc Heap.loc) pre (x : Heap.loc) post o :
  NoDup (pre ++ [x] ++ post) → memo_keys m pre →
  h !! x = Some o → is_array o →
  Heap.copy_array m x h = (Ok (length h, <[x:=length h]> m), h ++ [o]) ∧
  memo_keys (<[x:=length h]> m) (pre ++ [x]).
Proof.
  intros Hnd Hm Hx Ho.
  destruct (NoDup_middle pre [x] post x Hnd) as (Hpre & _ & _);
    [by apply list_elem_of_singleton|].
  split.
  - apply run_copy_array; [done..|]. by apply (memo_keys_none m pre).
  - apply (memo_keys_mono _ (x :: pre)); [by apply memo_keys_insert|].
    intros y Hy. in_same Hy.
Qed.

Lemma copy_list_step h (m : gmap Heap.loc Heap.loc) pre (l : Heap.loc) items
    post (objs : list (Heap.obj F)) :
  NoDup (pre ++ [l] ++ items ++ post) → memo_keys m pre →
  h !! l = Some (Heap.PyList items) →
  Forall2 (λ x o, h !! x = Some o ∧ is_array o) items objs →
  ∃ m',
    Heap.copy_list m l h =
    (Ok (length h + length items, m'),
     h ++ objs ++ [Heap.PyList (seq (length h) (length items))]) ∧
    memo_keys m' (pre ++ [l] ++ items).
Proof.
  intros Hnd Hm Hl Hall.
  destruct (NoDup_middle pre [l] (items ++ post) l Hnd) as (Hpre & _ & _);
    [by apply list_elem_of_singleton|].
  assert (Hnd' : NoDup ((pre ++ [l]) ++ items ++ post))
    by (by rewrite <-app_assoc).
  destruct (run_copy_list h m pre l items objs Hl Hall) as (m' & Hrun & Hm');
    [|done|done| |].
  - rewrite !NoDup_app in Hnd'. tauto.
  - intros x Hx Hin.
    destruct (NoDup_middle (pre ++ [l]) items post x Hnd') as (Hpre' & _ & _);
      [by apply list_elem_of_In|].
    apply Hpre'. in_same Hin.
  - exists m'. split; [done|].
    apply (memo_keys_mono _ (l :: items ++ pre)); [done|].
    intros y Hy. in_same Hy.
Qed.

Lemma run_deepcopy (h0 : Heap.store F) ao L0 (v : ao_log F) :
  holds h0 ao L0 v → NoDup (layout_locs ao L0) →
  ∃ p L h1, Heap.deepcopy ao h0 = (Ok p, h1) ∧ h0 `prefix_of` h1 ∧
    holds h1 p L v ∧ NoDup (layout_locs p L) ∧
    (∀ l, l ∈ layout_locs p L → length h0 ≤ l).
Proof.
  intros [Ho Hnr Hns Hj Hrr Hpp Hnm HJl HPl HQl HCl Hc HJ HP HQ HC] Hnd.
  set (o0 := lo_obj L0).
  pose proof (arrays_length _ _ _ _ HJ) as HlJ.
  pose proof (arrays_length _ _ _ _ HP) as HlP.
  pose proof (arrays_length _ _ _ _ HQ) as HlQ.
  pose proof (arrays_length _ _ _ _ HC) as HlC.
  set (s1 := h0 ++ [Heap.Floats (rr v)]).
  set (s2 := s1 ++ [Heap.Floats (pp v)]).
  set (s3 := s2 ++ [Heap.Ints (sp2nmult v)]).
  set (s4 := s3 ++ (Heap.Ints <$> sp_mu2j v)
               ++ [Heap.PyList (seq (length s3) (length (lo_sp_mu2j L0)))]).
  set (s5 := s4 ++ (Heap.Floats2 <$> psi_log v)
               ++ [Heap.PyList (seq (length s4) (length (lo_psi_log L0)))]).
  set (s6 := s5 ++ (Heap.Floats2 <$> psi_log_rl v)
               ++ [Heap.PyList (seq (length s5) (length (lo_psi_log_rl L0)))]).
  set (s7 := s6 ++ (Heap.Floats <$> sp_mu2rcut v)
               ++ [Heap.PyList (seq (length s6) (length (lo_sp_mu2rcut L0)))]).
  set (s8 := s7 ++ [Heap.Floats (sp2rcut v)]).
  set (op := Heap.mk_ao_obj (length h0) (length s1) (Heap.nr o0)
               (Heap.nspecies o0) (Heap.jmx o0) (length s2)
               (length s3 + length (lo_sp_mu2j L0))
               (length s4 + length (lo_psi_log L0))
               (length s5 + length (lo_psi_log_rl L0))
               (length s6 + length (lo_sp_mu2rcut L0)) (length s7)).
  set (s9 := s8 ++ [Heap.AoLog op]).
  set (L := mk_layout op (seq (length s3) (length (lo_sp_mu2j L0)))
              (seq (length s4) (length (lo_psi_log L0)))
              (seq (length s5) (length (lo_psi_log_rl L0)))
              (seq (length s6) (length (lo_sp_mu2rcut L0)))).
  (* the stores grow *)
  assert (P01 : h0 `prefix_of` s1) by (by apply prefix_app_r).
  assert (P12 : s1 `prefix_of` s2) by (by apply prefix_app_r).
  assert (P23 : s2 `prefix_of` s3) by (by apply prefix_app_r).
  assert (P34 : s3 `prefix_of` s4) by (by apply prefix_app_r).
  assert (P45 : s4 `prefix_of` s5) by (by apply prefix_app_r).
  assert (P56 : s5 `prefix_of` s6) by (by apply prefix_app_r).
  assert (P67 : s6 `prefix_of` s7) by (by apply prefix_app_r).
  assert (P78 : s7 `prefix_of` s8) by (by apply prefix_app_r).
  assert (P89 : s8 `prefix_of` s9) by (by apply prefix_app_r).
  assert (P79 : s7 `prefix_of` s9) by (by transitivity s8).
  assert (P69 : s6 `prefix_of` s9) by (by transitivity s7).
  assert (P59 : s5 `prefix_of` s9) by (by transitivity s6).
  assert (P49 : s4 `prefix_of` s9) by (by transitivity s5).
  assert (P39 : s3 `prefix_of` s9) by (by transitivity s4).
  assert (P29 : s2 `prefix_of` s9) by (by transitivity s3).
  assert (P19 : s1 `prefix_of` s9) by (by transitivity s2).
  assert (P09 : h0 `prefix_of` s9) by (by transitivity s1).
  assert (P02 : h0 `prefix_of` s2) by (by transitivity s1).
  assert (P03 : h0 `prefix_of` s3) by (by transitivity s2).
  assert (P04 : h0 `prefix_of` s4) by (by transitivity s3).
  assert (P05 : h0 `prefix_of` s5) by (by transitivity s4).
  assert (P06 : h0 `prefix_of` s6) by (by transitivity s5).
  assert (P07 : h0 `prefix_of` s7) by (by transitivity s6).
  (* the locations of the argument are apart *)
  unfold layout_locs in Hnd.
  exists (length s8), L, s9.
  split; [|split; [done|split; [|split]]].
  - unfold Heap.deepcopy.
    rewrite (run_bind _ _ _ _ _ (run_load_ao _ _ _ Ho)). fold o0.
    set (m1 := <[Heap.rr_ref o0:=length h0]> (∅ : gmap Heap.loc Heap.loc)).
    set (m2 := <[Heap.pp_ref o0:=length s1]> m1).
    set (m3 := <[Heap.sp2nmult_ref o0:=length s2]> m2).
    (* rr *)
    destruct (copy_array_step h0 ∅ [] (Heap.rr_ref o0)
      ([Heap.pp_ref o0; Heap.sp2nmult_ref o0; Heap.sp_mu2j_ref o0]
       ++ lo_sp_mu2j L0 ++ [Heap.psi_log_ref o0] ++ lo_psi_log L0
       ++ [Heap.psi_log_rl_ref o0] ++ lo_psi_log_rl L0
       ++ [Heap.sp_mu2rcut_ref o0] ++ lo_sp_mu2rcut L0
       ++ [Heap.sp2rcut_ref o0; ao]) (Heap.Floats (rr v)))
      as [R1 K1]; [done|by intros x [? [=]]|done|done|].
    rewrite (run_bind _ _ _ _ _ R1). cbn beta iota. fold s1.
    (* pp *)
    destruct (copy_array_step s1 m1 [Heap.rr_ref o0] (Heap.pp_ref o0)
      ([Heap.sp2nmult_ref o0; Heap.sp_mu2j_ref o0]
       ++ lo_sp_mu2j L0 ++ [Heap.psi_log_ref o0] ++ lo_psi_log L0
       ++ [Heap.psi_log_rl_ref o0] ++ lo_psi_log_rl L0
       ++ [Heap.sp_mu2rcut_ref o0] ++ lo_sp_mu2rcut L0
       ++ [Heap.sp2rcut_ref o0; ao]) (Heap.Floats (pp v)))
      as [R2 K2]; [done|done|by apply (prefix_lookup_Some h0)|done|].
    rewrite (run_bind _ _ _ _ _ R2). cbn beta iota. fold s2.
    (* sp2nmult *)
    destruct (copy_array_step s2 m2 [Heap.rr_ref o0; Heap.pp_ref o0]
      (Heap.sp2nmult_ref o0)
      ([Heap.sp_mu2j_ref o0]
       ++ lo_sp_mu2j L0 ++ [Heap.psi_log_ref o0] ++ lo_psi_log L0
       ++ [Heap.psi_log_rl_ref o0] ++ lo_psi_log_rl L0
       ++ [Heap.sp_mu2rcut_ref o0] ++ lo_sp_mu2rcut L0
       ++ [Heap.sp2rcut_ref o0; ao]) (Heap.Ints (sp2nmult v)))
      as [R3 K3]; [done|done|by apply (prefix_lookup_Some h0)|done|].
    rewrite (run_bind _ _ _ _ _ R3). cbn beta iota. fold s3.
    (* sp_mu2j *)
    destruct (copy_list_step s3 m3
      [Heap.rr_ref o0; Heap.pp_ref o0; Heap.sp2nmult_ref o0]
      (Heap.sp_mu2j_ref o0) (lo_sp_mu2j L0)
      ([Heap.psi_log_ref o0] ++ lo_psi_log L0
       ++ [Heap.psi_log_rl_ref o0] ++ lo_psi_log_rl L0
       ++ [Heap.sp_mu2rcut_ref o0] ++ lo_sp_mu2rcut L0
       ++ [Heap.sp2rcut_ref o0; ao]) (Heap.Ints <$> sp_mu2j v))
      as (m4 & R4 & K4);
      [done|done|by apply (prefix_lookup_Some h0)
      |by apply (arrays_copyable _ h0)|].
    rewrite (run_bind _ _ _ _ _ R4). cbn beta iota. fold s4.
    (* psi_log *)
    destruct (copy_list_step s4 m4
      ([Heap.rr_ref o0; Heap.pp_ref o0; Heap.sp2nmult_ref o0]
       ++ [Heap.sp_mu2j_ref o0] ++ lo_sp_mu2j L0)
      (Heap.psi_log_ref o0) (lo_psi_log L0)
      ([Heap.psi_log_rl_ref o0] ++ lo_psi_log_rl L0
       ++ [Heap.sp_mu2rcut_ref o0] ++ lo_sp_mu2rcut L0
       ++ [Heap.sp2rcut_ref o0; ao]) (Heap.Floats2 <$> psi_log v))
      as (m5 & R5 & K5);
      [by norm_app|done|by apply (prefix_lookup_Some h0)
      |by apply (arrays_copyable _ h0)|].
    rewrite (run_bind _ _ _ _ _ R5). cbn beta iota. fold s5.
    (* psi_log_rl *)
    destruct (copy_list_step s5 m5
      (([Heap.rr_ref o0; Heap.pp_ref o0; Heap.sp2nmult_ref o0]
        ++ [Heap.sp_mu2j_ref o0] ++ lo_sp_mu2j L0)
       ++ [Heap.psi_log_ref o0] ++ lo_psi_log L0)
      (Heap.psi_log_rl_ref o0) (lo_psi_log_rl L0)
      ([Heap.sp_mu2rcut_ref o0] ++ lo_sp_mu2rcut L0
       ++ [Heap.sp2rcut_ref o0; ao]) (Heap.Floats2 <$> psi_log_rl v))
      as (m6 & R6 & K6);
      [by norm_app|done|by apply (prefix_lookup_Some h0)
      |by apply (arrays_copyable _ h0)|].
    rewrite (run_bind _ _ _ _ _ R6). cbn beta iota. fold s6.
    (* sp_mu2rcut *)
    destruct (copy_list_step s6 m6
      ((([Heap.rr_ref o0; Heap.pp_ref o0; Heap.sp2nmult_ref o0]
         ++ [Heap.sp_mu2j_ref o0] ++ lo_sp_mu2j L0)
        ++ [Heap.psi_log_ref o0] ++ lo_psi_log L0)
       ++ [Heap.psi_log_rl_ref o0] ++ lo_psi_log_rl L0)
      (Heap.sp_mu2rcut_ref o0) (lo_sp_mu2rcut L0)
      [Heap.sp2rcut_ref o0; ao] (Heap.Floats <$> sp_mu2rcut v))
      as (m7 & R7 & K7);
      [by norm_app|done|by apply (prefix_lookup_Some h0)
      |by apply (arrays_copyable _ h0)|].
    rewrite (run_bind _ _ _ _ _ R7). cbn beta iota. fold s7.
    (* sp2rcut *)
    destruct (copy_array_step s7 m7
      (((([Heap.rr_ref o0; Heap.pp_ref o0; Heap.sp2nmult_ref o0]
          ++ [Heap.sp_mu2j_ref o0] ++ lo_sp_mu2j L0)
         ++ [Heap.psi_log_ref o0] ++ lo_psi_log L0)
        ++ [Heap.psi_log_rl_ref o0] ++ lo_psi_log_rl L0)
       ++ [Heap.sp_mu2rcut_ref o0] ++ lo_sp_mu2rcut L0)
      (Heap.sp2rcut_ref o0) [ao] (Heap.Floats (sp2rcut v)))
      as [R8 K8];
      [by norm_app|done|by apply (prefix_lookup_Some h0)|done|].
    rewrite (run_bind _ _ _ _ _ R8). cbn beta iota. fold s8.
    done.
  - split; simpl.
    + by apply (lookup_alloc_prefix s8).
    + done.
    + done.
    + done.
    + by apply (lookup_alloc_prefix h0).
    + by apply (lookup_alloc_prefix s1).
    + by apply (lookup_alloc_prefix s2).
    + replace (length s3 + length (lo_sp_mu2j L0))
        with (length s3 + length ((Heap.Ints (F:=F)) <$> sp_mu2j v))
        by (rewrite length_fmap; lia).
      by apply (lookup_alloc_list_prefix s3).
    + replace (length s4 + length (lo_psi_log L0))
        with (length s4 + length ((Heap.Floats2 (F:=F)) <$> psi_log v))
        by (rewrite length_fmap; lia).
      by apply (lookup_alloc_list_prefix s4).
    + replace (length s5 + length (lo_psi_log_rl L0))
        with (length s5 + length ((Heap.Floats2 (F:=F)) <$> psi_log_rl v))
        by (rewrite length_fmap; lia).
      by apply (lookup_alloc_list_prefix s5).
    + replace (length s6 + length (lo_sp_mu2rcut L0))
        with (length s6 + length ((Heap.Floats (F:=F)) <$> sp_mu2rcut v))
        by (rewrite length_fmap; lia).
      by apply (lookup_alloc_list_prefix s6).
    + by apply (lookup_alloc_prefix s7).
    + by apply (arrays_alloc_prefix _ s3 _ _ s9 _ P49).
    + by apply (arrays_alloc_prefix _ s4 _ _ s9 _ P59).
    + by apply (arrays_alloc_prefix _ s5 _ _ s9 _ P69).
    + by apply (arrays_alloc_prefix _ s6 _ _ s9 _ P79).
  - assert (E1 : length s1 = length h0 + 1)
      by (unfold s1; rewrite length_app; simpl; lia).
    assert (E2 : length s2 = length s1 + 1)
      by (unfold s2; rewrite length_app; simpl; lia).
    assert (E3 : length s3 = length s2 + 1)
      by (unfold s3; rewrite length_app; simpl; lia).
    assert (E4 : length s4 = length s3 + length (lo_sp_mu2j L0) + 1)
      by (unfold s4; rewrite !length_app, length_fmap; simpl; lia).
    assert (E5 : length s5 = length s4 + length (lo_psi_log L0) + 1)
      by (unfold s5; rewrite !length_app, length_fmap; simpl; lia).
    assert (E6 : length s6 = length s5 + length (lo_psi_log_rl L0) + 1)
      by (unfold s6; rewrite !length_app, length_fmap; simpl; lia).
    assert (E7 : length s7 = length s6 + length (lo_sp_mu2rcut L0) + 1)
      by (unfold s7; rewrite !length_app, length_fmap; simpl; lia).
    assert (E8 : length s8 = length s7 + 1)
      by (unfold s8; rewrite length_app; simpl; lia).
    clearbody s1 s2 s3 s4 s5 s6 s7 s8. unfold layout_locs. simpl.
    seq_arith.
  - intros l.
    assert (E1 : length s1 = length h0 + 1)
      by (unfold s1; rewrite length_app; simpl; lia).
    assert (E2 : length s2 = length s1 + 1)
      by (unfold s2; rewrite length_app; simpl; lia).
    assert (E3 : length s3 = length s2 + 1)
      by (unfold s3; rewrite length_app; simpl; lia).
    assert (E4 : length s4 = length s3 + length (lo_sp_mu2j L0) + 1)
      by (unfold s4; rewrite !length_app, length_fmap; simpl; lia).
    assert (E5 : length s5 = length s4 + length (lo_psi_log L0) + 1)
      by (unfold s5; rewrite !length_app, length_fmap; simpl; lia).
    assert (E6 : length s6 = length s5 + length (lo_psi_log_rl L0) + 1)
      by (unfold s6; rewrite !length_app, length_fmap; simpl; lia).
    assert (E7 : length s7 = length s6 + length (lo_sp_mu2rcut L0) + 1)
      by (unfold s7; rewrite !length_app, length_fmap; simpl; lia).
    assert (E8 : length s8 = length s7 + 1)
      by (unfold s8; rewrite length_app; simpl; lia).
    clearbody s1 s2 s3 s4 s5 s6 s7 s8. unfold layout_locs. simpl.
    intros Hl. elem_norm_in Hl. lia.
Qed.
End Deepcopy.

(** ** The species loops *)

Section Link.
Context {F : Type} `{FloatOps F} `{SbtEngine F}.
Context (h0 : Heap.store F) (ao : Heap.loc) (L0 : layout) (v : ao_log F).
Context (Hin : holds h0 ao L0 v).
Context (p : Heap.loc) (L : layout).
Context (Hnd : NoDup (layout_locs p L)).
Context (Hfresh : ∀ l, l ∈ layout_locs p L → length h0 ≤ l).
Implicit Types (h : Heap.store F) (X : ao_log F).

(** The multiplets of one species, [for mu,[ff,am] in enumerate(zip(...))],
    on values and on the store. *)
Lemma sim_lap_species h X vff dr sp l_ff (mu2ff : list (list F)) X' vff' :
  tracks h0 p L h X →
  lo_psi_log L0 !! sp = Some l_ff → psi_log v !! sp = Some mu2ff →
  (mu2j ← getitem (sp_mu2j v) sp;
   for_enumerate (λ mu '(ff, am) st, lap_multiplet v dr sp mu ff am st)
     0 (zip mu2ff mu2j) (X, vff)) = Ok (X', vff') →
  ∃ h',
    (o ← Heap.load_ao ao;
     mu2j ← Heap.item (Heap.sp_mu2j_ref o) sp;
     n ← Heap.zip_steps l_ff mu2j;
     for_range n (λ mu vff,
       Heap.lap_multiplet ao p dr sp mu l_ff mu2j vff) vff) h = (Ok vff', h')
    ∧ tracks h0 p L h' X'.
Proof using Hin Hnd Hfresh.
  intros Ht Hl Hmu2ff (mu2j & Hj%getitem_Ok_inv & Hloop)%bind_Ok.
  pose proof (tracks_input h0 ao L0 v Hin p L h X Ht) as Hao.
  destruct (arrays_lookup _ _ _ _ _ _ (holds_sp_mu2j _ _ _ _ Hao) Hj)
    as (l_j & Hlj & Hlj').
  assert (Hff0 : h0 !! l_ff = Some (Heap.Floats2 mu2ff)).
  { destruct (arrays_lookup _ _ _ _ _ _ (holds_psi_log _ _ _ _ Hin) Hmu2ff)
      as (l & Hl' & Hl''). by simplify_eq. }
  assert (Hj0 : h0 !! l_j = Some (Heap.Ints mu2j)).
  { destruct (arrays_lookup _ _ _ _ _ _ (holds_sp_mu2j _ _ _ _ Hin) Hj)
      as (l & Hl' & Hl''). by simplify_eq. }
  rewrite (run_bind _ _ _ _ _ (run_load_ao _ _ _ (holds_obj _ _ _ _ Hao))).
  rewrite (run_bind _ _ _ _ _
             (run_item _ _ _ _ _ (holds_sp_mu2j_list _ _ _ _ Hao) Hlj)).
  rewrite (run_bind _ _ _ _ _
             (run_zip_steps h0 p L h X l_ff l_j mu2ff mu2j Ht Hff0 Hj0)).
  unfold for_range.
  destruct (sim_for_enumerate
    (λ h (st : ao_log F * list F) (w : list F),
       tracks h0 p L h st.1 ∧ w = st.2)
    (λ k (x : list F * Z) (y : nat), y = k ∧ zip mu2ff mu2j !! k = Some x)
    (λ mu '(ff, am) st, lap_multiplet v dr sp mu ff am st)
    (λ mu (_ : nat) vff, Heap.lap_multiplet ao p dr sp mu l_ff l_j vff)
    (zip mu2ff mu2j) (seq 0 (length (zip mu2ff mu2j))) 0 (X, vff) vff h
    (X', vff')) as (w & h' & Hrun & Ht' & ->); [| | |done|done|].
  - by rewrite length_seq.
  - intros k x y Hx [-> _]%lookup_seq. done.
  - intros k [ff am] y h1 [X1 vff1] w [X2 vff2] [-> Hk] [Ht1 ->] Hstep.
    simpl in Ht1. apply lookup_zip_with_Some in Hk
      as (ff' & am' & [= <- <-] & Hff & Ham).
    destruct (sim_lap_multiplet h0 ao L0 v Hin p L Hnd Hfresh h1 X1 vff1 dr sp
                k l_ff l_j mu2ff mu2j ff am X2 vff2 Ht1 Hff0 Hj0 Hff Ham Hstep)
      as (h2 & Hrun2 & Ht2).
    by exists vff2, h2.
  - by exists h'.
Qed.

Lemma sim_sbt_species h X e sp l_ff (mu2ff : list (list F)) X' :
  tracks h0 p L h X →
  lo_psi_log L0 !! sp = Some l_ff → psi_log v !! sp = Some mu2ff →
  (mu2j ← getitem (sp_mu2j v) sp;
   for_enumerate (λ mu '(ff, am) ao_pot, sbt_multiplet v e sp mu ff am ao_pot)
     0 (zip mu2ff mu2j) X) = Ok X' →
  ∃ h',
    (o ← Heap.load_ao ao;
     mu2j ← Heap.item (Heap.sp_mu2j_ref o) sp;
     n ← Heap.zip_steps l_ff mu2j;
     for_range n (λ mu _,
       Heap.sbt_multiplet ao p e sp mu l_ff mu2j) ()) h = (Ok (), h')
    ∧ tracks h0 p L h' X'.
Proof using Hin Hnd Hfresh.
  intros Ht Hl Hmu2ff (mu2j & Hj%getitem_Ok_inv & Hloop)%bind_Ok.
  pose proof (tracks_input h0 ao L0 v Hin p L h X Ht) as Hao.
  destruct (arrays_lookup _ _ _ _ _ _ (holds_sp_mu2j _ _ _ _ Hao) Hj)
    as (l_j & Hlj & Hlj').
  assert (Hff0 : h0 !! l_ff = Some (Heap.Floats2 mu2ff)).
  { destruct (arrays_lookup _ _ _ _ _ _ (holds_psi_log _ _ _ _ Hin) Hmu2ff)
      as (l & Hl' & Hl''). by simplify_eq. }
  assert (Hj0 : h0 !! l_j = Some (Heap.Ints mu2j)).
  { destruct (arrays_lookup _ _ _ _ _ _ (holds_sp_mu2j _ _ _ _ Hin) Hj)
      as (l & Hl' & Hl''). by simplify_eq. }
  rewrite (run_bind _ _ _ _ _ (run_load_ao _ _ _ (holds_obj _ _ _ _ Hao))).
  rewrite (run_bind _ _ _ _ _
             (run_item _ _ _ _ _ (holds_sp_mu2j_list _ _ _ _ Hao) Hlj)).
  rewrite (run_bind _ _ _ _ _
             (run_zip_steps h0 p L h X l_ff l_j mu2ff mu2j Ht Hff0 Hj0)).
  unfold for_range.
  destruct (sim_for_enumerate
    (λ h (st : ao_log F) (_ : ()), tracks h0 p L h st)
    (λ k (x : list F * Z) (y : nat), y = k ∧ zip mu2ff mu2j !! k = Some x)
    (λ mu '(ff, am) ao_pot, sbt_multiplet v e sp mu ff am ao_pot)
    (λ mu (_ : nat) (_ : ()), Heap.sbt_multiplet ao p e sp mu l_ff l_j)
    (zip mu2ff mu2j) (seq 0 (length (zip mu2ff mu2j))) 0 X () h
    X') as ([] & h' & Hrun & Ht'); [| | |done|done|].
  - by rewrite length_seq.
  - intros k x y Hx [-> _]%lookup_seq. done.
  - intros k [ff am] y h1 X1 [] X2 [-> Hk] Ht1 Hstep.
    apply lookup_zip_with_Some in Hk as (ff' & am' & [= <- <-] & Hff & Ham).
    destruct (sim_sbt_multiplet h0 ao L0 v Hin p L Hnd Hfresh h1 X1 e sp
                k l_ff l_j mu2ff mu2j ff am X2 Ht1 Hff0 Hj0 Hff Ham Hstep)
      as (h2 & Hrun2 & Ht2).
    by exists (), h2.
  - by exists h'.
Qed.
End Link.

(** ** The solvers *)

Section LinkSolvers.
Context {F : Type} `{FloatOps F} `{SbtEngine F}.
Implicit Types (h : Heap.store F) (X : ao_log F).

(** [ao_log_hartree_lap] on a stored instance returns what it returns on
    the value of the instance, in a new instance whose objects are apart
    from each other. *)
Lemma run_ao_log_hartree_lap_apart (h0 : Heap.store F) ao L0
    (v v' : ao_log F) :
  holds h0 ao L0 v → NoDup (layout_locs ao L0) →
  ao_log_hartree_lap v = Ok v' →
  ∃ p L h', Heap.ao_log_hartree_lap ao h0 = (Ok p, h') ∧
    h0 `prefix_of` h' ∧ holds h' ao L0 v ∧ holds h' p L v' ∧
    NoDup (layout_locs p L) ∧ ∀ l, l ∈ layout_locs p L → length h0 ≤ l.
Proof.
  intros Hin Hnd0. unfold ao_log_hartree_lap.
  intros (r1 & Hr1 & (r0 & Hr0 & ([X vff'] & Hloop & Hreset)%bind_Ok)
            %bind_Ok)%bind_Ok.
  destruct (run_deepcopy h0 ao L0 v Hin Hnd0)
    as (p & L & h1 & Hcopy & Hpre1 & Hh1 & Hnd & Hfresh).
  assert (Ht1 : tracks h0 p L h1 (deepcopy v)) by done.
  pose proof (tracks_input h0 ao L0 v Hin p L h1 _ Ht1) as Hao1.
  destruct (sim_for_enumerate
    (λ h (st : ao_log F * list F) (w : list F),
       tracks h0 p L h st.1 ∧ w = st.2)
    (λ k (x : list (list F)) (y : Heap.loc),
       lo_psi_log L0 !! k = Some y ∧ psi_log v !! k = Some x)
    (λ sp mu2ff st,
       mu2j ← getitem (sp_mu2j v) sp;
       for_enumerate (λ mu '(ff, am) st,
         lap_multiplet v (flog (r1 /. r0)) sp mu ff am st)
         0 (zip mu2ff mu2j) st)
    (λ sp mu2ff vff,
       o ← Heap.load_ao ao;
       mu2j ← Heap.item (Heap.sp_mu2j_ref o) sp;
       n ← Heap.zip_steps mu2ff mu2j;
       for_range n (λ mu vff,
         Heap.lap_multiplet ao p (flog (r1 /. r0)) sp mu mu2ff mu2j vff) vff)
    (psi_log v) (lo_psi_log L0) 0 (deepcopy v, np_zeros (nr v))
    (np_zeros (nr v)) h1 (X, vff'))
    as (w & h2 & Hrun2 & Ht2 & ->); [| | |done|done|].
  - symmetry. apply (arrays_length _ _ _ _ (holds_psi_log _ _ _ _ Hin)).
  - by intros k x y Hx Hy.
  - intros k x y h [X1 vff1] w [X2 vff2] [Hy Hx] [Ht ->] Hstep. simpl in Ht.
    destruct (sim_lap_species h0 ao L0 v Hin p L Hnd Hfresh h X1 vff1 _ k y x
                X2 vff2 Ht Hy Hx Hstep) as (h' & Hrun & Ht').
    by exists vff2, h'.
  - simpl in Ht2.
    destruct (sim_reset_cutoffs h0 ao L0 v Hin p L Hnd Hfresh h2 X v' Ht2 Hreset)
      as (h3 & Hrun3 & Ht3).
    exists p, L, h3.
    split; [|split; [apply Ht3|split; [|split; [apply Ht3|done]]]].
    + unfold Heap.ao_log_hartree_lap.
      rewrite (run_bind _ _ _ _ _ Hcopy).
      rewrite (run_bind _ _ _ _ _ (run_get_rr _ _ _ _ Hao1)).
      rewrite (run_bind _ _ h1 r1 h1) by (by rewrite run_lift, Hr1).
      rewrite (run_bind _ _ _ _ _ (run_get_rr _ _ _ _ Hao1)).
      rewrite (run_bind _ _ h1 r0 h1) by (by rewrite run_lift, Hr0).
      rewrite (run_bind _ _ _ _ _ (run_load_ao _ _ _ (holds_obj _ _ _ _ Hao1))).
      rewrite (run_bind _ _ _ _ _
                 (run_load_list _ _ _ (holds_psi_log_list _ _ _ _ Hao1))).
      rewrite (holds_nr _ _ _ _ Hao1).
      rewrite (run_bind _ _ _ _ _ Hrun2).
      by rewrite (run_bind _ _ _ _ _ Hrun3).
    + apply (tracks_input h0 ao L0 v Hin p L h3 v' Ht3).
Qed.

Lemma run_ao_log_hartree_lap (h0 : Heap.store F) ao L0 (v v' : ao_log F) :
  holds h0 ao L0 v → NoDup (layout_locs ao L0) →
  ao_log_hartree_lap v = Ok v' →
  ∃ p L h', Heap.ao_log_hartree_lap ao h0 = (Ok p, h') ∧
    h0 `prefix_of` h' ∧ holds h' ao L0 v ∧ holds h' p L v'.
Proof.
  intros Hin Hnd0 Hrun.
  destruct (run_ao_log_hartree_lap_apart h0 ao L0 v v' Hin Hnd0 Hrun)
    as (p & L & h' & Hh & Hpre & Hao & Hp & _).
  by exists p, L, h'.
Qed.

(** [ao_log_hartree_sbt] likewise. *)
Lemma run_ao_log_hartree_sbt_apart (h0 : Heap.store F) ao L0
    (v v' : ao_log F) :
  holds h0 ao L0 v → NoDup (layout_locs ao L0) →
  ao_log_hartree_sbt v = Ok v' →
  ∃ p L h', Heap.ao_log_hartree_sbt ao h0 = (Ok p, h') ∧
    h0 `prefix_of` h' ∧ holds h' ao L0 v ∧ holds h' p L v' ∧
    NoDup (layout_locs p L) ∧ ∀ l, l ∈ layout_locs p L → length h0 ≤ l.
Proof.
  intros Hin Hnd0. unfold ao_log_hartree_sbt.
  intros (X & Hloop & Hreset)%bind_Ok.
  destruct (run_deepcopy h0 ao L0 v Hin Hnd0)
    as (p & L & h1 & Hcopy & Hpre1 & Hh1 & Hnd & Hfresh).
  assert (Ht1 : tracks h0 p L h1 (deepcopy v)) by done.
  pose proof (tracks_input h0 ao L0 v Hin p L h1 _ Ht1) as Hao1.
  destruct (sim_for_enumerate
    (λ h (st : ao_log F) (_ : ()), tracks h0 p L h st)
    (λ k (x : list (list F)) (y : Heap.loc),
       lo_psi_log L0 !! k = Some y ∧ psi_log v !! k = Some x)
    (λ sp mu2ff ao_pot,
       mu2j ← getitem (sp_mu2j v) sp;
       for_enumerate (λ mu '(ff, am) ao_pot,
         sbt_multiplet v (sbt_init (rr v) (pp v) (jmx v)) sp mu ff am ao_pot)
         0 (zip mu2ff mu2j) ao_pot)
    (λ sp mu2ff (_ : ()),
       o ← Heap.load_ao ao;
       mu2j ← Heap.item (Heap.sp_mu2j_ref o) sp;
       n ← Heap.zip_steps mu2ff mu2j;
       for_range n (λ mu _,
         Heap.sbt_multiplet ao p (sbt_init (rr v) (pp v) (jmx v)) sp mu mu2ff
           mu2j) ())
    (psi_log v) (lo_psi_log L0) 0 (deepcopy v) () h1 X)
    as ([] & h2 & Hrun2 & Ht2); [| | |done|done|].
  - symmetry. apply (arrays_length _ _ _ _ (holds_psi_log _ _ _ _ Hin)).
  - by intros k x y Hx Hy.
  - intros k x y h X1 [] X2 [Hy Hx] Ht Hstep.
    destruct (sim_sbt_species h0 ao L0 v Hin p L Hnd Hfresh h X1 _ k y x
                X2 Ht Hy Hx Hstep) as (h' & Hrun & Ht').
    by exists (), h'.
  - destruct (sim_reset_cutoffs h0 ao L0 v Hin p L Hnd Hfresh h2 X v' Ht2 Hreset)
      as (h3 & Hrun3 & Ht3).
    exists p, L, h3.
    split; [|split; [apply Ht3|split; [|split; [apply Ht3|done]]]].
    + unfold Heap.ao_log_hartree_sbt.
      rewrite (run_bind _ _ _ _ _ (run_load_ao _ _ _ (holds_obj _ _ _ _ Hin))).
      rewrite (run_bind _ _ _ _ _ (run_get_rr _ _ _ _ Hin)).
      rewrite (run_bind _ _ _ _ _ (run_get_pp _ _ _ _ Hin)).
      rewrite (run_bind _ _ _ _ _ Hcopy).
      rewrite (run_bind _ _ _ _ _ (run_load_ao _ _ _ (holds_obj _ _ _ _ Hao1))).
      rewrite (run_bind _ _ _ _ _
                 (run_load_list _ _ _ (holds_psi_log_list _ _ _ _ Hao1))).
      rewrite (holds_jmx _ _ _ _ Hin).
      rewrite (run_bind _ _ _ _ _ Hrun2).
      by rewrite (run_bind _ _ _ _ _ Hrun3).
    + apply (tracks_input h0 ao L0 v Hin p L h3 v' Ht3).
Qed.

Lemma run_ao_log_hartree_sbt (h0 : Heap.store F) ao L0 (v v' : ao_log F) :
  holds h0 ao L0 v → NoDup (layout_locs ao L0) →
  ao_log_hartree_sbt v = Ok v' →
  ∃ p L h', Heap.ao_log_hartree_sbt ao h0 = (Ok p, h') ∧
    h0 `prefix_of` h' ∧ holds h' ao L0 v ∧ holds h' p L v'.
Proof.
  intros Hin Hnd0 Hrun.
  destruct (run_ao_log_hartree_sbt_apart h0 ao L0 v v' Hin Hnd0 Hrun)
    as (p & L & h' & Hh & Hpre & Hao & Hp & _).
  by exists p, L, h'.
Qed.
End LinkSolvers.

(** * The result is new and the argument is kept *)

Section FreshResult.
Context {F : Type} `{FloatOps F} `{SbtEngine F}.
Implicit Types (h : Heap.store F) (l p : Heap.loc) (L : layout).

Lemma items_of_list h l items :
  h !! l = Some (Heap.PyList items) → Heap.items_of h l = items.
Proof. intros Hl. unfold Heap.items_of. by rewrite Hl. Qed.

(** The objects of a stored instance are those of its layout. *)
Lemma reach_holds h p L (X : ao_log F) :
  holds h p L X → Heap.reach h p = layout_locs p L.
Proof.
  intros Hh. unfold Heap.reach, layout_locs.
  rewrite (holds_obj _ _ _ _ Hh).
  rewrite (items_of_list _ _ _ (holds_sp_mu2j_list _ _ _ _ Hh)).
  rewrite (items_of_list _ _ _ (holds_psi_log_list _ _ _ _ Hh)).
  rewrite (items_of_list _ _ _ (holds_psi_log_rl_list _ _ _ _ Hh)).
  by rewrite (items_of_list _ _ _ (holds_sp_mu2rcut_list _ _ _ _ Hh)).
Qed.

Lemma arrays_valid {A} (mk : A → Heap.obj F) h ls (vs : list A) l :
  arrays mk h ls vs → l ∈ ls → l < length h.
Proof.
  intros Harr Hl. apply list_elem_of_lookup in Hl as [i Hi].
  destruct (Forall2_lookup_l _ _ _ _ _ Harr Hi) as (a & _ & Ha).
  by apply lookup_lt_Some in Ha.
Qed.

(** The objects of a stored instance are objects of the store. *)
Lemma layout_locs_valid h p L (X : ao_log F) l :
  holds h p L X → l ∈ layout_locs p L → l < length h.
Proof.
  intros Hh. unfold layout_locs. rewrite !elem_of_app, !elem_of_cons.
  pose proof (arrays_valid _ _ _ _ l (holds_sp_mu2j _ _ _ _ Hh)).
  pose proof (arrays_valid _ _ _ _ l (holds_psi_log _ _ _ _ Hh)).
  pose proof (arrays_valid _ _ _ _ l (holds_psi_log_rl _ _ _ _ Hh)).
  pose proof (arrays_valid _ _ _ _ l (holds_sp_mu2rcut _ _ _ _ Hh)).
  rewrite elem_of_nil. destruct Hh.
  intros Hl.
  repeat match goal with
         | Hl : _ ∨ _ |- _ => destruct Hl as [Hl|Hl]
         end; subst; try done; try (by eapply lookup_lt_Some); by auto.
Qed.

(** C7.  A call of the double quadrature or of the transform solver, in
    any store [h] and on any reference [ao], ends (whether it returns or
    raises) in a store of which [h] is a prefix: every object that
    existed before the call, so every array, list and attribute of the
    argument (radial functions, angular momenta, cutoffs, grids), is
    what it was.  When the call returns, every object of the result (the
    instance, its lists, its arrays [psi_log], [psi_log_rl] and cutoffs)
    was allocated during the call: none is an object of [h].  And on a
    store that holds a well-formed orbital set [v] at [ao], in objects
    that are apart from each other, the call returns: its result is a
    stored instance with the value of the potential set (rows [rowf]),
    the instance at [ao] has the value [v] as before, and no object of
    the result is an object of the argument. *)
Theorem fresh_result_frame (solver : Heap.loc → Heap.hm F Heap.loc)
    (rowf : ao_log F → list F → Z → list F) (h : Heap.store F)
    (ao : Heap.loc) :
  solver = Heap.ao_log_hartree_lap ∧ rowf = lap_row ∨
  solver = Heap.ao_log_hartree_sbt ∧ rowf = sbt_row →
  h `prefix_of` (solver ao h).2 ∧
  (∀ ao_pot, (solver ao h).1 = Ok ao_pot →
     ∀ l, l ∈ Heap.reach (solver ao h).2 ao_pot → length h ≤ l) ∧
  (∀ L0 (v : ao_log F),
     holds h ao L0 v → NoDup (layout_locs ao L0) → wf_ao v = true →
     (solver = Heap.ao_log_hartree_sbt →
      ∀ e ff am d, length (sbt e ff am d) = length ff) →
     ∃ ao_pot L,
       (solver ao h).1 = Ok ao_pot ∧
       holds (solver ao h).2 ao_pot L (potential_set (rowf v) v) ∧
       holds (solver ao h).2 ao L0 v ∧
       ∀ l, l ∈ Heap.reach (solver ao h).2 ao_pot → l ∉ Heap.reach h ao).
Proof.
  intros Hsolver.
  assert (Hkeeps :
    Heap.keeps h (solver ao) (λ ao_pot, length h ≤ ao_pot)).
  { destruct Hsolver as [[-> _] | [-> _]];
      [apply keeps_ao_log_hartree_lap|apply keeps_ao_log_hartree_sbt]. }
  destruct (Hkeeps h (extends_refl h)) as [Hext Hpost].
  assert (Hnew : ∀ ao_pot, (solver ao h).1 = Ok ao_pot →
            ∀ l, l ∈ Heap.reach (solver ao h).2 ao_pot → length h ≤ l).
  { intros ao_pot Hrun l Hl.
    apply (reach_fresh h (solver ao h).2 ao_pot l); [done| |done].
    by apply Hpost. }
  split; [apply Hext|]. split; [exact Hnew|].
  intros L0 v Hin Hnd Hwf Hsbt.
  assert (Hrun : ∃ p L h',
    solver ao h = (Ok p, h') ∧ h `prefix_of` h' ∧ holds h' ao L0 v ∧
    holds h' p L (potential_set (rowf v) v)).
  { destruct Hsolver as [[-> ->] | [-> ->]].
    - apply run_ao_log_hartree_lap; [done..|].
      by apply ao_log_hartree_lap_eq.
    - apply run_ao_log_hartree_sbt; [done..|].
      apply ao_log_hartree_sbt_eq; [|done]. by apply Hsbt. }
  destruct Hrun as (p & L & h' & Hrun & Hpre & Hao & Hp).
  exists p, L. specialize (Hnew p). rewrite Hrun in Hnew |- *; simpl in Hnew; simpl.
  split; [done|]. split; [done|]. split; [done|].
  intros l Hl Hold. specialize (Hnew eq_refl l Hl).
  rewrite (reach_holds _ _ _ _ Hin) in Hold.
  apply (layout_locs_valid _ _ _ _ _ Hin) in Hold. lia.
Qed.

End FreshResult.

Section FreshResultWitness.
#[local] Existing Instance unit_engine.

Lemma holds_4pt : holds store_4pt 12 layout_4pt ao_4pt.
Proof.
  split; try reflexivity; repeat constructor.
Qed.

Lemma fresh_result_4pt :
  ∃ ao_pot L,
    (Heap.ao_log_hartree_lap 12 store_4pt).1 = Ok ao_pot ∧
    holds (Heap.ao_log_hartree_lap 12 store_4pt).2 ao_pot L
      (potential_set (lap_row ao_4pt) ao_4pt) ∧
    holds (Heap.ao_log_hartree_lap 12 store_4pt).2 12 layout_4pt ao_4pt ∧
    ∀ l, l ∈ Heap.reach (Heap.ao_log_hartree_lap 12 store_4pt).2 ao_pot →
         l ∉ Heap.reach store_4pt 12.
Proof.
  destruct (@fresh_result_frame R R_ops unit_engine Heap.ao_log_hartree_lap
              lap_row store_4pt 12) as (_ & _ & Hrun).
  - left. split; reflexivity.
  - apply (Hrun layout_4pt ao_4pt).
    + exact holds_4pt.
    + apply (bool_decide_unpack _). vm_compute. reflexivity.
    + reflexivity.
    + intros _. exact unit_engine_length.
Defined.

End FreshResultWitness.

(** * When the solvers return *)

Section LoopPasses.
Context {F : Type} `{FloatOps F} `{SbtEngine F} `{Libnao F}.
Implicit Types (ao : ao_log F).

(** Every pass of a loop that returned has returned, from a state that
    satisfies the invariant of the loop. *)
Lemma for_enumerate_each {A St} (I : St → Prop)
    (body : nat → A → St → result St) l i s s' :
  (∀ k x s s', I s → body k x s = Ok s' → I s') →
  I s → for_enumerate body i l s = Ok s' →
  ∀ k x, l !! k = Some x → ∃ s1 s2, I s1 ∧ body (i + k) x s1 = Ok s2.
Proof.
  intros Hbody. revert i s. induction l as [|y l IH]; intros i s HI; simpl.
  - by intros _ k x ?.
  - intros (s1 & Hs1 & Hrest)%bind_Ok [|k] x Hx; simpl in Hx.
    + injection Hx as ->. exists s, s1. by rewrite Nat.add_0_r.
    + destruct (IH (S i) s1 (Hbody _ _ _ _ HI Hs1) Hrest k x Hx)
        as (t1 & t2 & Ht1 & Ht2).
      exists t1, t2. split; [done|]. by replace (i + S k) with (S i + k) by lia.
Qed.

Lemma for_range_each {St} (I : St → Prop) n
    (body : nat → St → result St) s s' :
  (∀ k s s', I s → body k s = Ok s' → I s') →
  I s → for_range n body s = Ok s' →
  ∀ k, k < n → ∃ s1 s2, I s1 ∧ body k s1 = Ok s2.
Proof.
  intros Hbody HI Hrun k Hk. unfold for_range in Hrun.
  destruct (for_enumerate_each I (λ i (_ : nat), body i) (seq 0 n) 0 s s'
              (λ k _ s s', Hbody k s s') HI Hrun k k) as (s1 & s2 & Hs1 & Hs2).
  - by apply lookup_seq_lt.
  - by exists s1, s2.
Qed.

End LoopPasses.

Section Returns.
Context {F : Type} `{FloatOps F} `{SbtEngine F} `{Libnao F}.
Implicit Types (ao : ao_log F).

(** A loop returns exactly when each of its passes does, for bodies
    whose return depends on the state through an invariant only. *)
Lemma for_enumerate_returns {A St} (I : St → Prop) (C : nat → A → Prop)
    (body : nat → A → St → result St) l i s :
  (∀ k x s s', l !! k = Some x → I s → body (i + k) x s = Ok s' → I s') →
  (∀ k x s, l !! k = Some x → I s →
     (∃ s', body (i + k) x s = Ok s') ↔ C (i + k) x) →
  I s →
  (∃ s', for_enumerate body i l s = Ok s' ∧ I s') ↔
  (∀ k x, l !! k = Some x → C (i + k) x).
Proof.
  revert i s. induction l as [|y l IH]; intros i s Hpres Hbody HI; simpl.
  - split; [by intros _ k x ?|]. intros _. by exists s.
  - assert (Htail : ∀ s1, I s1 →
      (∃ s', for_enumerate body (S i) l s1 = Ok s' ∧ I s') ↔
      (∀ k x, l !! k = Some x → C (S i + k) x)).
    { intros s1 HI1. apply IH; [| |done].
      - intros k x t t' Hx. replace (S i + k) with (i + S k) by lia.
        by apply Hpres.
      - intros k x t Hx. replace (S i + k) with (i + S k) by lia.
        by apply Hbody. }
    split.
    + intros (s' & (s1 & Hs1 & Hrest)%bind_Ok & HI') [|k] x Hx; simpl in Hx.
      * injection Hx as ->. apply (Hbody 0 x s); [done|done|].
        exists s1. by rewrite Nat.add_0_r.
      * replace (i + S k) with (S i + k) by lia.
        assert (HI1 : I s1).
        { apply (Hpres 0 y s s1); [done|done|]. by rewrite Nat.add_0_r. }
        apply (Htail s1 HI1); [|done]. by exists s'.
    + intros HC.
      destruct (proj2 (Hbody 0 y s eq_refl HI) (HC 0 y eq_refl)) as [s1 Hs1].
      assert (HI1 : I s1) by (by apply (Hpres 0 y s s1)).
      rewrite Nat.add_0_r in Hs1. rewrite Hs1. simpl.
      apply (Htail s1 HI1). intros k x Hx.
      replace (S i + k) with (i + S k) by lia. by apply HC.
Qed.

Lemma for_range_returns {St} (I : St → Prop) (C : nat → Prop) n
    (body : nat → St → result St) s :
  (∀ k s s', k < n → I s → body k s = Ok s' → I s') →
  (∀ k s, k < n → I s → (∃ s', body k s = Ok s') ↔ C k) →
  I s →
  (∃ s', for_range n body s = Ok s' ∧ I s') ↔ (∀ k, k < n → C k).
Proof.
  intros Hpres Hbody HI. unfold for_range.
  rewrite (for_enumerate_returns I (λ k _, C k) (λ i _, body i)); [|..|done].
  - split.
    + intros HC k Hk. apply (HC k k). by apply lookup_seq_lt.
    + intros HC k x [-> Hk]%lookup_seq. by apply HC.
  - intros k x t t' [-> Hk]%lookup_seq. by apply Hpres.
  - intros k x t [-> Hk]%lookup_seq. by apply Hbody.
Qed.

(** Broadcasting: when an elementwise operation and an assignment
    return, and the length of what they give. *)
Lemma np_binop_returns op (a b : list F) :
  (∃ c, np_binop op a b = Ok c) ↔
  length a = length b ∨ length a = 1 ∨ length b = 1.
Proof.
  unfold np_binop. case_decide as Hl; [split; [by left|intros _; eexists; reflexivity]|].
  destruct a as [|x [|x' a]], b as [|y [|y' b]]; simpl in Hl |- *;
    (split; [intros [c Hc]; try discriminate Hc; lia
            |intros Hd; first [eexists; reflexivity|exfalso; lia]]).
Qed.

Lemma np_binop_length op (a b c : list F) :
  np_binop op a b = Ok c →
  length c = if decide (length a = 1) then length b else length a.
Proof.
  unfold np_binop. case_decide as Hl.
  - intros [= <-]. rewrite length_zip_with. case_decide; lia.
  - destruct a as [|x [|x' a]], b as [|y [|y' b]]; simpl in Hl |- *;
      intros [= <-]; simpl; rewrite ?length_map; done.
Qed.

Lemma np_assign_returns (dst src : list F) :
  (∃ out, np_assign dst src = Ok out) ↔
  length src = length dst ∨ length src = 1.
Proof.
  unfold np_assign. case_decide as Hl; [split; [by left|intros _; eexists; reflexivity]|].
  destruct src as [|x [|x' src]]; simpl in Hl |- *;
    (split; [intros [c Hc]; try discriminate Hc; lia
            |intros Hd; first [eexists; reflexivity|exfalso; lia]]).
Qed.

End Returns.

Section Assignments.
Context {F : Type} `{FloatOps F} `{SbtEngine F} `{Libnao F}.
Implicit Types (ao X : ao_log F).

Lemma for_enumerate_keeps {A St} (I : St → Prop)
    (body : nat → A → St → result St) l i s s' :
  (∀ k x s s', l !! k = Some x → I s → body (i + k) x s = Ok s' → I s') →
  I s → for_enumerate body i l s = Ok s' → I s'.
Proof.
  revert i s. induction l as [|y l IH]; intros i s Hpres HI; simpl.
  - by intros [= <-].
  - intros (s1 & Hs1 & Hrest)%bind_Ok.
    apply (IH (S i) s1); [| |done].
    + intros k x t t' Hx. replace (S i + k) with (i + S k) by lia.
      by apply Hpres.
    + apply (Hpres 0 y s s1); [done|done|]. by rewrite Nat.add_0_r.
Qed.

Lemma map_eq_lookup {A B} (f : A → B) (l l' : list A) i x :
  map f l' = map f l → l !! i = Some x →
  ∃ x', l' !! i = Some x' ∧ f x' = f x.
Proof.
  revert l' i. induction l as [|y l IH]; intros [|y' l'] [|i]; simpl;
    try done.
  - intros [= Hy _] [= <-]. by exists y'.
  - intros [= _ Hl] Hx. by apply IH.
Qed.

(** Rows of two arrays of the same shape. *)
Lemma shape_lookup (P P' : list (list (list F))) sp mu a (row : list F) :
  map (map length) P' = map (map length) P →
  P !! sp = Some a → a !! mu = Some row →
  ∃ a' row', P' !! sp = Some a' ∧ a' !! mu = Some row' ∧
    length row' = length row.
Proof.
  intros Hshape Ha Hrow.
  destruct (map_eq_lookup _ _ _ _ _ Hshape Ha) as (a' & Ha' & Hl).
  destruct (map_eq_lookup _ _ _ _ _ Hl Hrow) as (row' & Hrow' & Hl').
  by exists a', row'.
Qed.

Lemma setrow_returns (a : list (list F)) mu (src : list F) :
  (∃ a', setrow a mu src = Ok a') ↔
  ∃ row, a !! mu = Some row ∧ (length src = length row ∨ length src = 1).
Proof.
  unfold setrow, getrow. split.
  - intros [a' (row & Hrow%getitem_Ok_inv & (row' & Hrow' & _)%bind_Ok)%bind_Ok].
    exists row. split; [done|]. apply np_assign_returns. by exists row'.
  - intros (row & Hrow & [row' Hrow']%np_assign_returns).
    rewrite (getitem_Ok _ _ _ Hrow). simpl. rewrite Hrow'. by eexists.
Qed.

Lemma set_psi_log_returns X sp mu (src : list F) :
  (∃ X', set_psi_log X sp mu src = Ok X') ↔
  ∃ a row, psi_log X !! sp = Some a ∧ a !! mu = Some row ∧
    (length src = length row ∨ length src = 1).
Proof.
  unfold set_psi_log. split.
  - intros [X' (a & Ha%getitem_Ok_inv & (a' & Ha' & _)%bind_Ok)%bind_Ok].
    destruct (proj1 (setrow_returns a mu src)) as (row & Hrow & Hl);
      [by exists a'|].
    by exists a, row.
  - intros (a & row & Ha & Hrow & Hl).
    destruct (proj2 (setrow_returns a mu src)) as [a' Ha']; [by exists row|].
    rewrite (getitem_Ok _ _ _ Ha). simpl. rewrite Ha'. by eexists.
Qed.

Lemma set_psi_log_rl_returns X sp mu (src : list F) :
  (∃ X', set_psi_log_rl X sp mu src = Ok X') ↔
  ∃ a row, psi_log_rl X !! sp = Some a ∧ a !! mu = Some row ∧
    (length src = length row ∨ length src = 1).
Proof.
  unfold set_psi_log_rl. split.
  - intros [X' (a & Ha%getitem_Ok_inv & (a' & Ha' & _)%bind_Ok)%bind_Ok].
    destruct (proj1 (setrow_returns a mu src)) as (row & Hrow & Hl);
      [by exists a'|].
    by exists a, row.
  - intros (a & row & Ha & Hrow & Hl).
    destruct (proj2 (setrow_returns a mu src)) as [a' Ha']; [by exists row|].
    rewrite (getitem_Ok _ _ _ Ha). simpl. rewrite Ha'. by eexists.
Qed.

(** The rescaling of the row [mu] of the species [sp], on a grid of at
    least two points and a result of the shape of [ao]. *)
Lemma rescale_returns ao X sp mu am mu2ff (ff : list F) :
  2 ≤ length (rr ao) → same_shape ao X →
  psi_log ao !! sp = Some mu2ff → mu2ff !! mu = Some ff →
  (∃ X', rescale ao X sp mu am = Ok X') ↔
  (length ff = length (rr ao) ∨ length ff = 1) ∧
  ∃ b row, psi_log_rl ao !! sp = Some b ∧ b !! mu = Some row ∧
    length row = length (rr ao).
Proof.
  intros Hrr Hshape Hsp Hmu. unfold rescale, getrow.
  destruct Hshape as (_ & _ & _ & _ & _ & _ & _ & HP & HQ & _).
  destruct (shape_lookup _ _ sp mu mu2ff ff HP Hsp Hmu)
    as (a & row & Ha & Hrow & Hlrow).
  rewrite (getitem_Ok _ _ _ Ha). simpl. rewrite (getitem_Ok _ _ _ Hrow). simpl.
  split.
  - intros [X' (q & Hq & Hset)%bind_Ok].
    pose proof (np_binop_length _ _ _ _ Hq) as Hlq.
    assert (Hc : length ff = length (rr ao) ∨ length ff = 1).
    { destruct (proj1 (np_binop_returns fdiv row (np_pow (rr ao) am)))
        as [Hc|[Hc|Hc]]; [by exists q|..]; revert Hc;
        rewrite ?length_np_pow; lia. }
    split; [done|].
    destruct (proj1 (set_psi_log_rl_returns X sp mu q))
      as (b' & row_rl & Hb' & Hrl & Hl); [by exists X'|].
    destruct (shape_lookup _ _ sp mu b' row_rl (eq_sym HQ) Hb' Hrl)
      as (b & row0 & Hb & Hrow0 & Hl0).
    exists b, row0. split; [done|]. split; [done|].
    revert Hlq. rewrite length_np_pow. case_decide; lia.
  - intros (Hc & b & row0 & Hb & Hrow0 & Hl0).
    destruct (proj2 (np_binop_returns fdiv row (np_pow (rr ao) am)))
      as [q Hq]; [rewrite length_np_pow; lia|].
    rewrite Hq. simpl.
    pose proof (np_binop_length _ _ _ _ Hq) as Hlq.
    rewrite length_np_pow in Hlq.
    destruct (shape_lookup _ _ sp mu b row0 HQ Hb Hrow0)
      as (b' & row_rl & Hb' & Hrl & Hl).
    apply set_psi_log_rl_returns. exists b', row_rl.
    split; [done|]. split; [done|]. left. revert Hlq. case_decide; lia.
Qed.

(** The two loops of the quadrature on an array [vff] of [n] entries. *)
Lemma lap_quadrature_returns (rr ffrr3 vff : list F) n am :
  length vff = n →
  (∃ w, lap_quadrature rr n ffrr3 am vff = Ok w) ↔
  n ≤ length rr ∧ n ≤ length ffrr3.
Proof.
  intros Hvff. split.
  - intros [w Hw]. destruct n as [|n]; [lia|].
    unfold lap_quadrature in Hw.
    destruct (for_range_each (λ _, True) (S n) _ vff w ltac:(done) I Hw 0
                ltac:(lia)) as (v1 & v2 & _ & Hinner).
    destruct (for_range_each (λ _, True) (S n) _ v1 v2 ltac:(done) I Hinner n
                ltac:(lia)) as (u1 & u2 & _ & Hacc).
    unfold lap_accumulate in Hacc.
    apply bind_Ok in Hacc as (a & _ & Hacc).
    apply bind_Ok in Hacc as (b & Hb%getitem_Ok_inv & Hacc).
    apply bind_Ok in Hacc as (a' & _ & Hacc).
    apply bind_Ok in Hacc as (b' & _ & Hacc).
    apply bind_Ok in Hacc as (v & _ & Hacc).
    apply bind_Ok in Hacc as (f3 & Hf3%getitem_Ok_inv & _).
    apply lookup_lt_Some in Hb, Hf3. lia.
  - intros [Hn1 Hn2]. rewrite lap_quadrature_eq by done. by eexists.
Qed.

Lemma lap_quadrature_length (rr ffrr3 vff w : list F) n am :
  lap_quadrature rr n ffrr3 am vff = Ok w → length w = length vff.
Proof.
  unfold lap_quadrature.
  apply (for_range_preserves (λ w, length w = length vff)); [|done].
  intros ir v v' Hv.
  apply (for_range_preserves (λ w, length w = length vff)); [|done].
  intros irp u u' Hu. unfold lap_accumulate.
  intros (a & _ & (b & _ & (a' & _ & (b' & _ & (x & _ & (f3 & _ & Hset)
            %bind_Ok)%bind_Ok)%bind_Ok)%bind_Ok)%bind_Ok)%bind_Ok.
  unfold setitem in Hset. case_decide; [|done]. injection Hset as <-.
  by rewrite length_insert.
Qed.

End Assignments.

Section LapDomain.
Context {F : Type} `{FloatOps F} `{SbtEngine F} `{Libnao F}.
Implicit Types (ao X : ao_log F).

Lemma lap_multiplet_keeps ao dr sp mu (ff : list F) am
    (st st' : ao_log F * list F) :
  same_shape ao st.1 ∧ length st.2 = nr ao →
  lap_multiplet ao dr sp mu ff am st = Ok st' →
  same_shape ao st'.1 ∧ length st'.2 = nr ao.
Proof.
  destruct st as [X vff], st' as [X' vff']. simpl. intros [HX Hvff].
  unfold lap_multiplet.
  intros (ffrr3 & _ & (w & Hw & (X1 & HX1 & (X2 & HX2 & [= <- <-])%bind_Ok)
            %bind_Ok)%bind_Ok)%bind_Ok.
  split.
  - apply (rescale_shape _ _ _ _ _ _ _ HX2).
    exact (set_psi_log_shape _ _ _ _ _ _ HX1 HX).
  - apply lap_quadrature_length in Hw. unfold np_fill in Hw.
    rewrite length_replicate in Hw. lia.
Qed.

(** One multiplet of the quadrature, on a grid of at least two points. *)
Lemma lap_multiplet_returns ao dr sp mu mu2ff (ff : list F) am
    (st : ao_log F * list F) :
  2 ≤ length (rr ao) →
  same_shape ao st.1 ∧ length st.2 = nr ao →
  psi_log ao !! sp = Some mu2ff → mu2ff !! mu = Some ff →
  (∃ st', lap_multiplet ao dr sp mu ff am st = Ok st') ↔
  (length ff = length (rr ao) ∨ length ff = 1) ∧
  nr ao ≤ length (rr ao) ∧
  (nr ao = length ff ∨ nr ao = 1) ∧
  ∃ b row, psi_log_rl ao !! sp = Some b ∧ b !! mu = Some row ∧
    length row = length (rr ao).
Proof.
  destruct st as [X vff]. simpl. intros Hrr [HX Hvff] Hsp Hmu.
  assert (Hfill : length (np_fill vff (of_Z 0)) = nr ao).
  { unfold np_fill. by rewrite length_replicate. }
  pose proof HX as (_ & _ & _ & _ & _ & _ & _ & HP & _).
  destruct (shape_lookup _ _ sp mu mu2ff ff HP Hsp Hmu)
    as (a & row & Ha & Hrow & Hlrow).
  unfold lap_multiplet. split.
  - intros [st' (ffrr3 & H3 & (w & Hw & (X1 & HX1 & (X2 & HX2 & _)%bind_Ok)
                  %bind_Ok)%bind_Ok)%bind_Ok].
    assert (Hc : length ff = length (rr ao) ∨ length ff = 1).
    { destruct (proj1 (np_binop_returns fmul ff (np_pow (rr ao) 3)))
        as [Hc|[Hc|Hc]]; [by exists ffrr3|..]; revert Hc;
        rewrite ?length_np_pow; lia. }
    pose proof (np_binop_length _ _ _ _ H3) as Hl3.
    rewrite length_np_pow in Hl3.
    destruct (proj1 (lap_quadrature_returns (rr ao) ffrr3 _ (nr ao) am Hfill))
      as [Hn _]; [by exists w|].
    pose proof (lap_quadrature_length _ _ _ _ _ _ Hw) as Hlw.
    destruct (proj1 (set_psi_log_returns X sp mu
      (np_scale (of_Z 4 *. fpi *. dr /. (of_Z (2 * am) +. of_Z 1)) w)))
      as (a' & row' & Ha' & Hrow' & Hl); [by exists X1|].
    rewrite Ha in Ha'. injection Ha' as <-.
    rewrite Hrow in Hrow'. injection Hrow' as <-.
    rewrite length_np_scale, Hlw, Hfill, Hlrow in Hl.
    split; [done|]. split; [done|]. split; [done|].
    apply (rescale_returns ao X1 sp mu am mu2ff ff); [done| |done|done|].
    + exact (set_psi_log_shape _ _ _ _ _ _ HX1 HX).
    + by exists X2.
  - intros (Hc & Hn & Hassign & Hrl).
    destruct (proj2 (np_binop_returns fmul ff (np_pow (rr ao) 3)))
      as [ffrr3 H3]; [rewrite length_np_pow; lia|].
    rewrite H3. simpl.
    pose proof (np_binop_length _ _ _ _ H3) as Hl3.
    rewrite length_np_pow in Hl3.
    destruct (proj2 (lap_quadrature_returns (rr ao) ffrr3 _ (nr ao) am Hfill))
      as [w Hw]; [split; [done|]; revert Hl3; case_decide; lia|].
    rewrite Hw. simpl.
    pose proof (lap_quadrature_length _ _ _ _ _ _ Hw) as Hlw.
    destruct (proj2 (set_psi_log_returns X sp mu
      (np_scale (of_Z 4 *. fpi *. dr /. (of_Z (2 * am) +. of_Z 1)) w)))
      as [X1 HX1].
    { exists a, row. split; [done|]. split; [done|].
      rewrite length_np_scale, Hlw, Hfill, Hlrow. done. }
    rewrite HX1. simpl.
    destruct (proj2 (rescale_returns ao X1 sp mu am mu2ff ff Hrr
      (set_psi_log_shape _ _ _ _ _ _ HX1 HX) Hsp Hmu)) as [X2 HX2];
      [done|].
    rewrite HX2. simpl. by eexists.
Qed.

(** The statements that reset the cutoffs, on a result of the shape of
    [ao]. *)
Lemma same_shape_cutoffs ao X :
  same_shape ao X → length (sp_mu2rcut X) = length (sp_mu2rcut ao).
Proof.
  intros (_ & _ & _ & _ & _ & _ & _ & _ & _ & HC & _).
  by rewrite <-(length_map length), HC, length_map.
Qed.

Lemma reset_cutoffs_returns ao X :
  length (sp_mu2rcut X) = length (sp_mu2rcut ao) →
  (∃ X', reset_cutoffs ao X = Ok X') ↔
  rr ao ≠ [] ∧ nspecies ao ≤ length (sp_mu2rcut ao).
Proof.
  intros HI. unfold reset_cutoffs.
  set (I := λ Y : ao_log F, length (sp_mu2rcut Y) = length (sp_mu2rcut ao)).
  assert (Hpres : ∀ k (s s' : ao_log F), I s →
    (mu2rcut ← getitem (sp_mu2rcut s) k;
     rmax ← getitem_last (rr ao);
     Ok (with_sp_mu2rcut (<[k:=np_fill mu2rcut rmax]> (sp_mu2rcut s)) s))
    = Ok s' → I s').
  { intros k s s' Hs (c & _ & (rmax & _ & [= <-])%bind_Ok)%bind_Ok.
    unfold I. simpl. by rewrite length_insert. }
  pose proof (for_range_returns I
    (λ k, k < length (sp_mu2rcut ao) ∧ rr ao ≠ []) (nspecies ao) _ X
    (λ k s s' _, Hpres k s s'))
    as Hloop.
  split.
  - intros [X' (Y & HY & (rmax & Hlast & _)%bind_Ok)%bind_Ok].
    assert (Hne : rr ao ≠ []) by (by intros Hrr; rewrite Hrr in Hlast).
    split; [done|].
    destruct (nspecies ao) as [|n] eqn:Hn; [lia|].
    destruct (for_range_each I (S n) _ X Y Hpres HI HY n ltac:(lia))
      as (s1 & s2 & Hs1 & (c & Hc%getitem_Ok_inv & _)%bind_Ok).
    apply lookup_lt_Some in Hc. unfold I in Hs1. lia.
  - intros [Hne Hns].
    assert (Hlast : ∃ rmax, getitem_last (rr ao) = Ok rmax).
    { unfold getitem_last. destruct (last (rr ao)) as [x|] eqn:Hx; [by eexists|].
      by apply last_None in Hx. }
    destruct Hlast as [rmax Hlast].
    destruct (proj2 (Hloop
      ltac:(intros k s Hk Hs; split;
            [intros [s' (c & Hc%getitem_Ok_inv & _)%bind_Ok];
             apply lookup_lt_Some in Hc; unfold I in Hs; split; [lia|done]
            |intros [Hk' _];
             destruct (lookup_lt_is_Some_2 (sp_mu2rcut s) k) as [c Hc];
               [unfold I in Hs; lia|];
             rewrite (getitem_Ok _ _ _ Hc); simpl; rewrite Hlast; by eexists])
      HI)) as (Y & HY & _).
    + intros k Hk. split; [lia|done].
    + rewrite HY. simpl. rewrite Hlast. by eexists.
Qed.

(** X1.  The double quadrature returns exactly on these orbital sets: a grid
    of at least two points; a list of angular momenta for every species
    that has radial functions; for every multiplet the loops reach, a
    radial function [ff] that broadcasts against [rr] and receives the
    [nr] values of [vff], [nr] grid points to index, and a row of
    [psi_log_rl] as long as the grid; and a cutoff array for each of the
    [nspecies] species. *)
Theorem lap_returns_iff ao :
  (∃ ao_pot, ao_log_hartree_lap ao = Ok ao_pot) ↔
  2 ≤ length (rr ao) ∧ nspecies ao ≤ length (sp_mu2rcut ao) ∧
  ∀ sp mu2ff, psi_log ao !! sp = Some mu2ff →
    ∃ mu2j, sp_mu2j ao !! sp = Some mu2j ∧
      ∀ mu ff am, mu2ff !! mu = Some ff → mu2j !! mu = Some am →
        (length ff = length (rr ao) ∨ length ff = 1) ∧
        nr ao ≤ length (rr ao) ∧
        (nr ao = length ff ∨ nr ao = 1) ∧
        ∃ b row, psi_log_rl ao !! sp = Some b ∧ b !! mu = Some row ∧
          length row = length (rr ao).
Proof.
  set (Cm := λ sp mu (ff : list F),
    (length ff = length (rr ao) ∨ length ff = 1) ∧
    nr ao ≤ length (rr ao) ∧
    (nr ao = length ff ∨ nr ao = 1) ∧
    ∃ b row, psi_log_rl ao !! sp = Some b ∧ b !! mu = Some row ∧
      length row = length (rr ao)).
  set (I := λ st : ao_log F * list F,
    same_shape ao st.1 ∧ length st.2 = nr ao).
  assert (HI0 : I (deepcopy ao, np_zeros (nr ao))).
  { split; [apply same_shape_refl|]. simpl. unfold np_zeros.
    by rewrite length_replicate. }
  (* the loop over the multiplets of a species *)
  assert (Hinner_keeps : ∀ dr sp (l : list (list F * Z)) st st',
    I st →
    for_enumerate (λ mu '(ff, am) st, lap_multiplet ao dr sp mu ff am st)
      0 l st = Ok st' → I st').
  { intros dr sp l st st'. apply for_enumerate_keeps.
    intros mu [ff am] s s' _. apply lap_multiplet_keeps. }
  assert (Hinner : ∀ dr sp mu2ff mu2j st,
    2 ≤ length (rr ao) → I st → psi_log ao !! sp = Some mu2ff →
    (∃ st', for_enumerate
       (λ mu '(ff, am) st, lap_multiplet ao dr sp mu ff am st)
       0 (zip mu2ff mu2j) st = Ok st') ↔
    (∀ mu ff am, mu2ff !! mu = Some ff → mu2j !! mu = Some am → Cm sp mu ff)).
  { intros dr sp mu2ff mu2j st Hrr Hst Hsp.
    pose proof (for_enumerate_returns I
      (λ mu (x : list F * Z), Cm sp mu x.1)
      (λ mu '(ff, am) st, lap_multiplet ao dr sp mu ff am st)
      (zip mu2ff mu2j) 0 st) as Hloop. simpl in Hloop.
    transitivity (∀ k (x : list F * Z), zip mu2ff mu2j !! k = Some x →
                    Cm sp k x.1).
    - rewrite <-Hloop; [| | |done].
      + split; [|intros (st' & Hst' & _); by exists st'].
        intros [st' Hst']. exists st'. split; [done|].
        by apply (Hinner_keeps dr sp (zip mu2ff mu2j) st).
      + intros mu [ff am] s s' _. apply lap_multiplet_keeps.
      + intros mu [ff am] s Hx Hs.
        apply lookup_zip_with_Some in Hx as (? & ? & [= <- <-] & Hff & Ham).
        by apply (lap_multiplet_returns ao dr sp mu mu2ff).
    - split.
      + intros HC mu ff am Hff Ham. apply (HC mu (ff, am)).
        by apply lookup_zip_with_Some; exists ff, am.
      + intros HC mu [ff am] Hx.
        apply lookup_zip_with_Some in Hx as (? & ? & [= <- <-] & Hff & Ham).
        by apply (HC mu ff am). }
  (* the loop over the species *)
  assert (Houter : ∀ dr, 2 ≤ length (rr ao) →
    (∃ st', for_enumerate (λ sp mu2ff st,
        mu2j ← getitem (sp_mu2j ao) sp;
        for_enumerate (λ mu '(ff, am) st, lap_multiplet ao dr sp mu ff am st)
          0 (zip mu2ff mu2j) st)
      0 (psi_log ao) (deepcopy ao, np_zeros (nr ao)) = Ok st' ∧ I st') ↔
    (∀ sp mu2ff, psi_log ao !! sp = Some mu2ff →
       ∃ mu2j, sp_mu2j ao !! sp = Some mu2j ∧
         ∀ mu ff am, mu2ff !! mu = Some ff → mu2j !! mu = Some am →
           Cm sp mu ff)).
  { intros dr Hrr.
    apply (for_enumerate_returns I
      (λ sp mu2ff, ∃ mu2j, sp_mu2j ao !! sp = Some mu2j ∧
         ∀ mu ff am, mu2ff !! mu = Some ff → mu2j !! mu = Some am →
           Cm sp mu ff)); [| |done].
    - intros sp mu2ff s s' _ Hs (mu2j & _ & Hrun)%bind_Ok.
      by apply (Hinner_keeps dr sp (zip mu2ff mu2j) s).
    - intros sp mu2ff s Hsp Hs. simpl in Hsp. split.
      + intros [s' (mu2j & Hj%getitem_Ok_inv & Hrun)%bind_Ok].
        exists mu2j. split; [done|].
        apply (Hinner dr sp mu2ff mu2j s); [done..|]. by exists s'.
      + intros (mu2j & Hj & HC). rewrite (getitem_Ok _ _ _ Hj). simpl.
        by apply (Hinner dr sp mu2ff mu2j s). }
  unfold ao_log_hartree_lap. split.
  - intros [ao_pot (r1 & Hr1%getitem_Ok_inv & (r0 & _ & ([X vff] & Hloop
              & Hreset)%bind_Ok)%bind_Ok)%bind_Ok].
    apply lookup_lt_Some in Hr1.
    assert (HIX : I (X, vff)).
    { revert Hloop. apply for_enumerate_keeps; [|done].
      intros sp mu2ff s s' _ Hs (mu2j & _ & Hrun)%bind_Ok.
      by apply (Hinner_keeps (flog (r1 /. r0)) sp (zip mu2ff mu2j) s). }
    destruct (proj1 (reset_cutoffs_returns ao X (same_shape_cutoffs ao X (proj1 HIX)))) as [_ Hns];
      [by exists ao_pot|].
    split; [lia|]. split; [done|].
    apply (Houter (flog (r1 /. r0))); [lia|]. by exists (X, vff).
  - intros (Hrr & Hns & HC).
    destruct (lookup_lt_is_Some_2 (rr ao) 1 ltac:(lia)) as [r1 Hr1].
    destruct (lookup_lt_is_Some_2 (rr ao) 0 ltac:(lia)) as [r0 Hr0].
    rewrite (getitem_Ok _ _ _ Hr1), (getitem_Ok _ _ _ Hr0). simpl.
    destruct (proj2 (Houter (flog (r1 /. r0)) Hrr) HC)
      as ([X vff] & Hloop & HIX).
    rewrite Hloop. simpl.
    apply (reset_cutoffs_returns ao X (same_shape_cutoffs ao X (proj1 HIX))). split; [|done].
    intros Hnil. rewrite Hnil in Hrr. simpl in Hrr. lia.
Qed.

End LapDomain.

(** * What the other solvers need and what they keep *)

Section Bounds.
Context {F : Type} `{FloatOps F} `{SbtEngine F} `{Libnao F}.
Context {UD : UnicodeData}.
Implicit Types (ao X : ao_log F).

(** What the assignment of a rescaled row leaves as it is. *)
Lemma set_psi_log_rl_frame X X' sp mu (src : list F) :
  set_psi_log_rl X sp mu src = Ok X' →
  ∃ Q, X' = with_psi_log_rl Q X ∧ length Q = length (psi_log_rl X).
Proof.
  unfold set_psi_log_rl.
  intros (a & _ & (a' & _ & [= <-])%bind_Ok)%bind_Ok.
  eexists. split; [reflexivity|]. by rewrite length_insert.
Qed.

Lemma rescale_frame ao X X' sp mu am :
  rescale ao X sp mu am = Ok X' →
  ∃ Q, X' = with_psi_log_rl Q X ∧ length Q = length (psi_log_rl X).
Proof.
  unfold rescale.
  intros (a & _ & (row & _ & (q & _ & Hset)%bind_Ok)%bind_Ok)%bind_Ok.
  by apply set_psi_log_rl_frame in Hset.
Qed.

(** The fields the solver that calls the library leaves, and the
    lengths it keeps. *)
Lemma libnao_keeps ao ao_pot :
  ao_log_hartree_lap_libnao ao = Ok ao_pot →
  rr ao_pot = rr ao ∧ pp ao_pot = pp ao ∧ nr ao_pot = nr ao ∧
  nspecies ao_pot = nspecies ao ∧ jmx ao_pot = jmx ao ∧
  sp2nmult ao_pot = sp2nmult ao ∧ sp_mu2j ao_pot = sp_mu2j ao ∧
  length (psi_log ao_pot) = length (psi_log ao) ∧
  length (psi_log_rl ao_pot) = length (psi_log_rl ao) ∧
  map length (sp_mu2rcut ao_pot) = map length (sp_mu2rcut ao) ∧
  length (sp2rcut ao_pot) = length (sp2rcut ao).
Proof.
  set (K := λ X : ao_log F,
    rr X = rr ao ∧ pp X = pp ao ∧ nr X = nr ao ∧
    nspecies X = nspecies ao ∧ jmx X = jmx ao ∧
    sp2nmult X = sp2nmult ao ∧ sp_mu2j X = sp_mu2j ao ∧
    length (psi_log X) = length (psi_log ao) ∧
    length (psi_log_rl X) = length (psi_log_rl ao) ∧
    map length (sp_mu2rcut X) = map length (sp_mu2rcut ao) ∧
    length (sp2rcut X) = length (sp2rcut ao)).
  unfold ao_log_hartree_lap_libnao, ao_log_init, deepcopy.
  intros (X & Hloop & Hreset)%bind_Ok. change (K ao_pot).
  assert (HX : K X).
  { revert Hloop. apply (for_range_preserves K); [|by unfold K].
    intros sp Y Y' HY. unfold libnao_species.
    intros (mu2j & _ & (ff_rad & _ & (ff_pot & _ & (nmult & _ & (psi & Hpsi
              & (mu2j' & _ & Hrescale)%bind_Ok)%bind_Ok)%bind_Ok)%bind_Ok)
              %bind_Ok)%bind_Ok.
    revert Hrescale. apply (for_enumerate_preserves K).
    - intros mu am Z Z' HZ (Q & -> & HQ)%rescale_frame.
      revert HZ. unfold K. simpl. rewrite HQ. done.
    - unfold setitem in Hpsi. case_decide; [|done]. injection Hpsi as <-.
      revert HY. unfold K. simpl. by rewrite length_insert. }
  revert Hreset. unfold reset_cutoffs.
  intros (Y & HY & (rmax & _ & [= <-])%bind_Ok)%bind_Ok.
  assert (HKY : K Y).
  { revert HY. apply (for_range_preserves K); [|done].
    intros sp Z Z' HZ (c & Hc%getitem_Ok_inv & (r & _ & [= <-])%bind_Ok)%bind_Ok.
    revert HZ. unfold K. simpl.
    change (map length (<[sp:=np_fill c r]> (sp_mu2rcut Z)))
      with (length <$> <[sp:=np_fill c r]> (sp_mu2rcut Z)).
    rewrite list_fmap_insert.
    rewrite (list_insert_id (length <$> sp_mu2rcut Z) sp); [done|].
    rewrite list_lookup_fmap, Hc. simpl. unfold np_fill.
    by rewrite length_replicate. }
  revert HKY. unfold K, np_fill. simpl. by rewrite length_replicate.
Qed.

(** X3.  The solver that calls the library changes nothing but the radial
    functions, their rescaled copies and the cutoffs of the copy it
    starts from, whatever the library returns: grids, counts and angular
    momenta are those of the argument, and no list or cutoff array
    changes its length. *)
Theorem libnao_frame ao ao_pot :
  ao_log_hartree_lap_libnao ao = Ok ao_pot →
  rr ao_pot = rr ao ∧ pp ao_pot = pp ao ∧ nr ao_pot = nr ao ∧
  nspecies ao_pot = nspecies ao ∧ jmx ao_pot = jmx ao ∧
  sp2nmult ao_pot = sp2nmult ao ∧ sp_mu2j ao_pot = sp_mu2j ao ∧
  length (psi_log ao_pot) = length (psi_log ao) ∧
  length (psi_log_rl ao_pot) = length (psi_log_rl ao) ∧
  map length (sp_mu2rcut ao_pot) = map length (sp_mu2rcut ao) ∧
  length (sp2rcut ao_pot) = length (sp2rcut ao).
Proof. apply libnao_keeps. Qed.

Lemma sbt_returns_only_if ao ao_pot :
  ao_log_hartree_sbt ao = Ok ao_pot →
  rr ao ≠ [] ∧ nspecies ao ≤ length (sp_mu2rcut ao) ∧
  length (psi_log ao) ≤ length (sp_mu2j ao).
Proof.
  intros Hrun.
  pose proof (ao_log_hartree_sbt_shape ao ao_pot Hrun) as Hshape.
  revert Hrun. unfold ao_log_hartree_sbt, deepcopy.
  intros (X & Hloop & Hreset)%bind_Ok.
  assert (HlX : length (sp_mu2rcut X) = length (sp_mu2rcut ao)).
  { rewrite <-(same_shape_cutoffs ao ao_pot Hshape).
    symmetry. apply same_shape_cutoffs.
    by apply (reset_cutoffs_shape X ao X ao_pot Hreset), same_shape_refl. }
  destruct (proj1 (reset_cutoffs_returns ao X HlX)) as [Hne Hns];
    [by exists ao_pot|].
  split; [done|]. split; [done|].
  destruct (decide (length (psi_log ao) = 0)) as [Hz|Hnz]; [lia|].
  destruct (lookup_lt_is_Some_2 (psi_log ao) (length (psi_log ao) - 1))
    as [a Ha]; [lia|].
  destruct (for_enumerate_each (λ _, True) _ _ 0 _ _ ltac:(done) I Hloop
              _ a Ha) as (s1 & s2 & _ & (mu2j & Hj%getitem_Ok_inv & _)%bind_Ok).
  apply lookup_lt_Some in Hj. simpl in Hj. lia.
Qed.

Lemma libnao_returns_only_if ao ao_pot :
  ao_log_hartree_lap_libnao ao = Ok ao_pot →
  rr ao ≠ [] ∧ nspecies ao ≤ length (sp_mu2rcut ao) ∧
  nspecies ao ≤ length (sp_mu2j ao) ∧ nspecies ao ≤ length (psi_log ao) ∧
  nspecies ao ≤ length (sp2nmult ao).
Proof.
  intros Hrun.
  pose proof (libnao_keeps ao ao_pot Hrun)
    as (_ & _ & _ & _ & _ & _ & _ & _ & _ & HC & _).
  revert Hrun. unfold ao_log_hartree_lap_libnao, ao_log_init, deepcopy.
  intros (X & Hloop & Hreset)%bind_Ok.
  assert (HlX : length (sp_mu2rcut X) = length (sp_mu2rcut ao)).
  { rewrite <-(length_map length (sp_mu2rcut ao)), <-HC, length_map.
    symmetry. apply same_shape_cutoffs.
    by apply (reset_cutoffs_shape X ao X ao_pot Hreset), same_shape_refl. }
  destruct (proj1 (reset_cutoffs_returns ao X HlX)) as [Hne Hns];
    [by exists ao_pot|].
  split; [done|]. split; [done|].
  destruct (nspecies ao) as [|n] eqn:Hn; [lia|].
  destruct (for_range_each (λ _, True) (S n) _ ao X ltac:(done) I Hloop n
              ltac:(lia)) as (s1 & s2 & _ & Hbody).
  unfold libnao_species in Hbody.
  apply bind_Ok in Hbody as (mu2j & Hj%getitem_Ok_inv & Hbody).
  apply bind_Ok in Hbody as (ff_rad & Hff%getitem_Ok_inv & Hbody).
  apply bind_Ok in Hbody as (ff_pot & _ & Hbody).
  apply bind_Ok in Hbody as (nmult & Hnm%getitem_Ok_inv & _).
  apply lookup_lt_Some in Hj, Hff, Hnm. lia.
Qed.

(** X2.  Indices out of range: the transform solver returns only on a grid
    that is not empty, with angular momenta for every species that has
    radial functions and a cutoff array for each of [nspecies] species;
    the solver that calls the library only on a grid that is not empty
    with [nspecies] entries at least in each per-species list it
    subscripts; and the dispatcher only for one of its two methods, on
    such an orbital set. *)
Theorem return_only_if ao :
  (∀ ao_pot, ao_log_hartree_sbt ao = Ok ao_pot →
     rr ao ≠ [] ∧ nspecies ao ≤ length (sp_mu2rcut ao) ∧
     length (psi_log ao) ≤ length (sp_mu2j ao)) ∧
  (∀ ao_pot, ao_log_hartree_lap_libnao ao = Ok ao_pot →
     rr ao ≠ [] ∧ nspecies ao ≤ length (sp_mu2rcut ao) ∧
     nspecies ao ≤ length (sp_mu2j ao) ∧ nspecies ao ≤ length (psi_log ao) ∧
     nspecies ao ≤ length (sp2nmult ao)) ∧
  (∀ (s : list N) ao_pot, (ao_log_hartree ao s).2 = Ok ao_pot →
     (upper s = literal "LAP" ∨ upper s = literal "SBT") ∧
     rr ao ≠ [] ∧ nspecies ao ≤ length (sp_mu2rcut ao)).
Proof.
  split; [apply sbt_returns_only_if|]. split; [apply libnao_returns_only_if|].
  intros s ao_pot. unfold ao_log_hartree.
  destruct (decide (upper s = literal "LAP")) as [Hlap|Hlap].
  - simpl. intros Hrun.
    destruct (libnao_returns_only_if ao ao_pot Hrun) as (Hne & Hns & _).
    auto.
  - destruct (decide (upper s = literal "SBT")) as [Hs|Hs]; [|done].
    simpl. intros Hrun.
    destruct (sbt_returns_only_if ao ao_pot Hrun) as (Hne & Hns & _).
    auto.
Qed.

End Bounds.

(** * Calls in a row, stale fields, and the library *)

Section Chain.
Context {F : Type} `{FloatOps F} `{SbtEngine F} `{Libnao F}.
Implicit Types (ao X : ao_log F).

Lemma rows_of_shape n (a a' : list (list F)) :
  map length a' = map length a → rows_of n a' = rows_of n a.
Proof.
  revert a'. induction a as [|row a IH]; intros [|row' a']; simpl; try done.
  intros [= Hrow Ha]. by rewrite Hrow, (IH a').
Qed.

(** [wf_species] looks at the shape of the arrays only. *)
Lemma wf_species_shape n (P P' Q Q' : list (list (list F))) J :
  map (map length) P' = map (map length) P →
  map (map length) Q' = map (map length) Q →
  wf_species n P' Q' J = wf_species n P Q J.
Proof.
  revert P' Q Q' J.
  induction P as [|a P IH]; intros [|a' P'] [|b Q] [|b' Q'] [|j J]; simpl;
    try done.
  intros [= Ha HP] [= Hb HQ].
  rewrite (rows_of_shape n a a' Ha), (rows_of_shape n b b' Hb).
  rewrite <-(length_map length a'), <-(length_map length b'), Ha, Hb,
    !length_map.
  by rewrite (IH P' Q Q' J).
Qed.

(** A set of the shape of a well-formed set is well-formed. *)
Lemma same_shape_wf ao X :
  same_shape ao X → wf_ao ao = true → wf_ao X = true.
Proof.
  intros (Hns & Hnr & Hrr & Hpp & _ & Hnm & Hj & HP & HQ & HC & Hc).
  unfold wf_ao. rewrite Hns, Hnr, Hrr, Hpp, Hnm, Hj, Hc.
  rewrite (wf_species_shape _ _ _ _ _ _ HP HQ).
  rewrite <-(length_map length (sp_mu2rcut X)), HC, length_map.
  rewrite <-(length_map (map length) (psi_log X)), HP, length_map.
  done.
Qed.

Lemma rows_shape_eq n (P P' : list (list (list F))) :
  length P' = length P →
  (∀ sp a a', P !! sp = Some a → P' !! sp = Some a' →
     length a' = length a ∧ Forall (λ row, length row = n) a ∧
     Forall (λ row, length row = n) a') →
  map (map length) P' = map (map length) P.
Proof.
  revert P'. induction P as [|a P IH]; intros [|a' P'] Hl Hrows;
    simpl in Hl |- *; try done.
  destruct (Hrows 0 a a' eq_refl eq_refl) as (Hla & Ha & Ha').
  f_equal.
  - clear -Hla Ha Ha'. revert a' Hla Ha'.
    induction Ha as [|row a Hrow Ha IHa]; intros [|row' a'] Hla Ha';
      simpl in Hla |- *; try done.
    apply Forall_cons in Ha' as [Hrow' Ha']. f_equal; [lia|].
    apply IHa; [lia|done].
  - apply IH; [lia|]. intros sp. apply (Hrows (S sp)).
Qed.

(** The result of the solver that calls the library has the shape of
    its argument. *)
Lemma libnao_set_shape ao :
  (∀ rr nmult mu2ff n mu2j mu2vh,
     length <$> ao_hartree_lap rr nmult mu2ff n mu2j mu2vh = length <$> mu2vh) →
  wf_ao ao = true → same_shape ao (libnao_set ao).
Proof.
  intros Hlib Hwf%wf_ao_facts.
  destruct (libnao_rows_shape ao Hlib Hwf) as [HlP HP].
  unfold same_shape, libnao_set, cutoffs_reset, np_fill. simpl.
  rewrite length_replicate, map_map. simpl.
  assert (HPs : map (map length) (libnao_rows ao) =
                map (map length) (psi_log ao)).
  { apply (rows_shape_eq (nr ao)).
    - rewrite HlP, (wf_sp_mu2j _ Hwf), (wf_psi_log _ Hwf). done.
    - intros sp a a' Ha Ha'.
      destruct (wf_lookup _ Hwf sp a Ha)
        as (b & mu2j & _ & Hj & Hrows & _ & _ & Hlj).
      destruct (HP sp a' mu2j Ha' Hj) as [Hla' Hrows'].
      split; [lia|done]. }
  repeat split; try done.
  - apply (rows_shape_eq (nr ao)).
    + rewrite length_zip_with, HlP, (wf_sp_mu2j _ Hwf), (wf_psi_log_rl _ Hwf).
      lia.
    + intros sp b q Hb Hq.
      apply lookup_zip_with_Some in Hq as (a' & mu2j & -> & Ha' & Hj).
      destruct (HP sp a' mu2j Ha' Hj) as [Hla' Hrows'].
      destruct (lookup_lt_is_Some_2 (psi_log ao) sp) as [a Ha].
      { rewrite (wf_psi_log _ Hwf), <-(wf_sp_mu2j _ Hwf).
        by apply lookup_lt_Some in Hj. }
      destruct (wf_lookup _ Hwf sp a Ha)
        as (b0 & mu2j0 & Hb0 & Hj0 & _ & Hrowsb & Hlb & Hlj).
      rewrite Hb in Hb0. injection Hb0 as <-.
      rewrite Hj in Hj0. injection Hj0 as <-.
      split; [rewrite length_zip_with; lia|]. split; [done|].
      apply Forall_lookup. intros mu row Hrow.
      apply lookup_zip_with_Some in Hrow as (row' & am & -> & Hrow' & _).
      pose proof (Forall_lookup_1 _ _ _ _ Hrows' Hrow') as Hl. simpl in Hl.
      rewrite length_rl_row; [done|]. rewrite (wf_rr _ Hwf). done.
  - apply list_eq. intros sp. rewrite !list_lookup_fmap.
    destruct (sp_mu2rcut ao !! sp); simpl; [|done].
    by rewrite length_replicate.
Qed.

(** The shape of what a solver returns on a well-formed set. *)
Lemma solver_shape ao (solver : ao_log F → result (ao_log F)) :
  (∀ e ff am d, length (sbt e ff am d) = length ff) →
  (∀ rr nmult mu2ff n mu2j mu2vh,
     length <$> ao_hartree_lap rr nmult mu2ff n mu2j mu2vh = length <$> mu2vh) →
  wf_ao ao = true →
  solver = ao_log_hartree_lap ∨ solver = ao_log_hartree_sbt
    ∨ solver = ao_log_hartree_lap_libnao →
  ∃ ao_pot, solver ao = Ok ao_pot ∧ same_shape ao ao_pot ∧
    sp_mu2rcut ao_pot =
      map (λ a, np_fill a (at_ (rr ao) (length (rr ao) - 1))) (sp_mu2rcut ao) ∧
    sp2rcut ao_pot = np_fill (sp2rcut ao) (at_ (rr ao) (length (rr ao) - 1)).
Proof.
  intros Hsbt Hlib Hwf [-> | [-> | ->]].
  - exists (potential_set (lap_row ao) ao).
    rewrite <-(ao_log_hartree_lap_eq ao Hwf).
    split; [done|]. split; [|done].
    apply ao_log_hartree_lap_shape. by apply ao_log_hartree_lap_eq.
  - exists (potential_set (sbt_row ao) ao).
    rewrite <-(ao_log_hartree_sbt_eq ao Hsbt Hwf).
    split; [done|]. split; [|done].
    apply ao_log_hartree_sbt_shape. by apply ao_log_hartree_sbt_eq.
  - exists (libnao_set ao).
    rewrite <-(ao_log_hartree_lap_libnao_eq ao Hlib Hwf).
    split; [done|]. split; [|done]. by apply libnao_set_shape.
Qed.

Lemma np_fill_fill (c : list F) (x y : F) :
  np_fill (np_fill c x) y = np_fill c y.
Proof. unfold np_fill. by rewrite length_replicate. Qed.

(** X4.  With a transform engine and a library routine that return
    arrays of the shape they are given: what a solver returns on a
    well-formed orbital set is a well-formed orbital set, so a solver
    (the same or another) returns on it; the second call leaves the
    cutoffs of the first. *)
Theorem solvers_chain ao (solver solver' : ao_log F → result (ao_log F)) :
  (∀ e ff am d, length (sbt e ff am d) = length ff) →
  (∀ rr nmult mu2ff n mu2j mu2vh,
     length <$> ao_hartree_lap rr nmult mu2ff n mu2j mu2vh = length <$> mu2vh) →
  wf_ao ao = true →
  solver = ao_log_hartree_lap ∨ solver = ao_log_hartree_sbt
    ∨ solver = ao_log_hartree_lap_libnao →
  solver' = ao_log_hartree_lap ∨ solver' = ao_log_hartree_sbt
    ∨ solver' = ao_log_hartree_lap_libnao →
  ∃ ao_pot ao_pot',
    solver ao = Ok ao_pot ∧ wf_ao ao_pot = true ∧
    solver' ao_pot = Ok ao_pot' ∧ wf_ao ao_pot' = true ∧
    sp_mu2rcut ao_pot' = sp_mu2rcut ao_pot ∧
    sp2rcut ao_pot' = sp2rcut ao_pot.
Proof.
  intros Hsbt Hlib Hwf Hs Hs'.
  destruct (solver_shape ao solver Hsbt Hlib Hwf Hs)
    as (p & Hrun & Hshape & HC & Hc).
  pose proof (same_shape_wf ao p Hshape Hwf) as Hwfp.
  destruct (solver_shape p solver' Hsbt Hlib Hwfp Hs')
    as (p' & Hrun' & Hshape' & HC' & Hc').
  exists p, p'. split; [done|]. split; [done|]. split; [done|].
  split; [by apply (same_shape_wf p p')|].
  destruct Hshape as (_ & _ & Hrr & _).
  rewrite HC', Hc', Hrr, HC, Hc, np_fill_fill, map_map.
  split; [|done]. apply map_ext. intros a. apply np_fill_fill.
Qed.

End Chain.

Section Stale.
Context {F : Type} `{FloatOps F} `{SbtEngine F} `{Libnao F}.
Implicit Types (ao X : ao_log F).

Lemma map_fill_shape (C C' : list (list F)) (x : F) :
  map length C' = map length C →
  map (λ a, np_fill a x) C' = map (λ a, np_fill a x) C.
Proof.
  revert C'. induction C as [|c C IH]; intros [|c' C']; simpl; try done.
  intros [= Hc HC]. unfold np_fill at 1 3. by rewrite Hc, (IH C').
Qed.

(** X5.  With a transform engine and a library routine that return
    arrays of the shape they are given, on well-formed orbital sets:
    what a solver returns does not depend on the rescaled functions and
    on the cutoffs its argument holds, but for the lengths of the cutoff
    arrays: every row of [psi_log_rl] and every cutoff is overwritten. *)
Theorem stale_fields_ignored ao (Q' : list (list (list F)))
    (C' : list (list F)) (c' : list F)
    (solver : ao_log F → result (ao_log F)) :
  (∀ e ff am d, length (sbt e ff am d) = length ff) →
  (∀ rr nmult mu2ff n mu2j mu2vh,
     length <$> ao_hartree_lap rr nmult mu2ff n mu2j mu2vh = length <$> mu2vh) →
  wf_ao ao = true →
  wf_ao (with_sp2rcut c' (with_sp_mu2rcut C' (with_psi_log_rl Q' ao))) = true →
  map length C' = map length (sp_mu2rcut ao) →
  solver = ao_log_hartree_lap ∨ solver = ao_log_hartree_sbt
    ∨ solver = ao_log_hartree_lap_libnao →
  solver (with_sp2rcut c' (with_sp_mu2rcut C' (with_psi_log_rl Q' ao))) =
  solver ao.
Proof.
  intros Hsbt Hlib Hwf Hwf' HC Hsolver.
  set (ao' := with_sp2rcut c' (with_sp_mu2rcut C' (with_psi_log_rl Q' ao))).
  assert (Hc : length c' = length (sp2rcut ao)).
  { apply wf_ao_facts in Hwf, Hwf'.
    pose proof (wf_sp2rcut _ Hwf) as Hl. pose proof (wf_sp2rcut _ Hwf') as Hl'.
    simpl in Hl'. lia. }
  assert (Hfill : ∀ x : F, np_fill c' x = np_fill (sp2rcut ao) x).
  { intros x. unfold np_fill. by rewrite Hc. }
  destruct Hsolver as [-> | [-> | ->]].
  - rewrite (ao_log_hartree_lap_eq ao' Hwf'), (ao_log_hartree_lap_eq ao Hwf).
    f_equal. unfold potential_set, cutoffs_reset, potential_rows,
      potential_rows_rl, lap_row, ao'. simpl.
    by rewrite (map_fill_shape _ _ _ HC), Hfill.
  - rewrite (ao_log_hartree_sbt_eq ao' Hsbt Hwf'),
      (ao_log_hartree_sbt_eq ao Hsbt Hwf).
    f_equal. unfold potential_set, cutoffs_reset, potential_rows,
      potential_rows_rl, sbt_row, ao'. simpl.
    by rewrite (map_fill_shape _ _ _ HC), Hfill.
  - rewrite (ao_log_hartree_lap_libnao_eq ao' Hlib Hwf'),
      (ao_log_hartree_lap_libnao_eq ao Hlib Hwf).
    f_equal. unfold libnao_set, cutoffs_reset, libnao_rows, ao'. simpl.
    by rewrite (map_fill_shape _ _ _ HC), Hfill.
Qed.

End Stale.

Section Library.
Context {F : Type} `{FloatOps F} `{SbtEngine F} `{Libnao F}.
Context {UD : UnicodeData}.
Implicit Types (ao X : ao_log F).

Lemma libnao_rows_quadrature ao :
  wf_ao ao = true →
  (∀ sp a mu2j nmult,
     psi_log ao !! sp = Some a → sp_mu2j ao !! sp = Some mu2j →
     sp2nmult ao !! sp = Some nmult →
     ao_hartree_lap (rr ao) nmult a (Z.of_nat (nr ao)) mu2j a =
     zip_with (lap_row ao) a mu2j) →
  libnao_rows ao = potential_rows (lap_row ao) ao.
Proof.
  intros Hwf%wf_ao_facts Hlib. unfold libnao_rows, potential_rows.
  apply list_eq. intros sp.
  destruct (psi_log ao !! sp) as [a|] eqn:Ha.
  - destruct (wf_lookup _ Hwf sp a Ha) as (_ & mu2j & _ & Hj & _).
    destruct (lookup_lt_is_Some_2 (sp2nmult ao) sp) as [nmult Hn].
    { rewrite (wf_sp2nmult _ Hwf), <-(wf_psi_log _ Hwf).
      by apply lookup_lt_Some in Ha. }
    rewrite (lookup_zip_with_both _ _ _ _ _ _ Ha Hj).
    rewrite (lookup_zip_with_both _ _ _ sp (a, mu2j) nmult);
      [|by apply lookup_zip_with_both|done].
    simpl. f_equal. by apply (Hlib sp).
  - rewrite !lookup_zip_with, Ha. done.
Qed.

(** X6.  When the compiled routine keeps the shape of its buffer and, for
    the species of a well-formed orbital set, returns the rows of the
    double quadrature, the solver that calls it returns what
    [ao_log_hartree_lap] returns: the copy, the loops over species and
    multiplets, the rescaling and the cutoffs of the two solvers agree;
    and so does the dispatcher on the method ["lap"] in any case of
    letters. *)
Theorem libnao_agrees_with_quadrature ao (s : list N) :
  (∀ rr nmult mu2ff n mu2j mu2vh,
     length <$> ao_hartree_lap rr nmult mu2ff n mu2j mu2vh = length <$> mu2vh) →
  wf_ao ao = true →
  (∀ sp a mu2j nmult,
     psi_log ao !! sp = Some a → sp_mu2j ao !! sp = Some mu2j →
     sp2nmult ao !! sp = Some nmult →
     ao_hartree_lap (rr ao) nmult a (Z.of_nat (nr ao)) mu2j a =
     zip_with (lap_row ao) a mu2j) →
  upper s = literal "LAP" →
  ao_log_hartree_lap_libnao ao = ao_log_hartree_lap ao ∧
  (ao_log_hartree ao s).2 = ao_log_hartree_lap ao.
Proof.
  intros Hshape Hwf Hlib Hs.
  assert (Heq : ao_log_hartree_lap_libnao ao = ao_log_hartree_lap ao).
  { rewrite (ao_log_hartree_lap_libnao_eq ao Hshape Hwf),
      (ao_log_hartree_lap_eq ao Hwf).
    f_equal. unfold libnao_set, potential_set.
    rewrite (libnao_rows_quadrature ao Hwf Hlib).
    by rewrite potential_rows_rl_alt. }
  split; [done|]. unfold ao_log_hartree. by rewrite decide_True.
Qed.

End Library.

Section Transform.
Context {F : Type} `{FloatOps F} `{SbtEngine F}.
Implicit Types (ao X : ao_log F).

Lemma zip_with_rows_ext (f g : list F → Z → list F)
    (P : list (list (list F))) (J : list (list Z)) :
  (∀ sp mu mu2ff mu2j ff am, P !! sp = Some mu2ff → J !! sp = Some mu2j →
     mu2ff !! mu = Some ff → mu2j !! mu = Some am → f ff am = g ff am) →
  zip_with (zip_with f) P J = zip_with (zip_with g) P J.
Proof.
  intros Hfg. apply list_eq. intros sp. rewrite !lookup_zip_with.
  destruct (P !! sp) as [mu2ff|] eqn:HP; [|done]. simpl.
  destruct (J !! sp) as [mu2j|] eqn:HJ; [|done]. simpl. f_equal.
  apply list_eq. intros mu. rewrite !lookup_zip_with.
  destruct (mu2ff !! mu) as [ff|] eqn:Hff; [|done]. simpl.
  destruct (mu2j !! mu) as [am|] eqn:Ham; [|done]. simpl. f_equal.
  by apply (Hfg sp mu mu2ff mu2j).
Qed.

(** X14.  The two solvers of the module agree exactly as soon as the transform
    pipeline [4 pi * sbt(sbt(ff, am, 1)/pp**2, am, -1)] gives, on the
    radial functions of a well-formed orbital set, the rows of the double
    quadrature (and the engine keeps the length of its argument): the
    rescaled copies, the cutoffs and the copied fields of the two results
    are the same. *)
Theorem sbt_agrees_with_quadrature ao :
  (∀ e ff am d, length (sbt e ff am d) = length ff) →
  wf_ao ao = true →
  (∀ sp mu mu2ff mu2j ff am,
     psi_log ao !! sp = Some mu2ff → sp_mu2j ao !! sp = Some mu2j →
     mu2ff !! mu = Some ff → mu2j !! mu = Some am →
     np_scale (of_Z 4 *. fpi)
       (sbt (sbt_init (rr ao) (pp ao) (jmx ao))
          (zip_with fdiv (sbt (sbt_init (rr ao) (pp ao) (jmx ao)) ff am 1)
             (np_pow (pp ao) 2)) am (-1)) =
     lap_row ao ff am) →
  ao_log_hartree_sbt ao = ao_log_hartree_lap ao.
Proof.
  intros Hsbt Hwf Hrows.
  rewrite (ao_log_hartree_sbt_eq ao Hsbt Hwf), (ao_log_hartree_lap_eq ao Hwf).
  f_equal. unfold potential_set. rewrite !potential_rows_rl_alt.
  assert (E : potential_rows (sbt_row ao) ao = potential_rows (lap_row ao) ao).
  { unfold potential_rows. apply zip_with_rows_ext.
    intros sp mu mu2ff mu2j ff am Hsp Hj Hff Ham. unfold sbt_row.
    by apply (Hrows sp mu mu2ff mu2j). }
  by rewrite E.
Qed.

End Transform.

(** * The kernel of the quadrature on an ordered grid *)

Section Kernel.
Context {F : Type} `{FloatOps F}.
Implicit Types (ao : ao_log F).

Lemma py_min_not_above (x y : F) : not_above x y → py_min x y = x.
Proof.
  unfold py_min. intros [->|[_ ->]]; [|done]. by destruct (fltb y y).
Qed.

Lemma py_max_not_above (x y : F) : not_above x y → py_max x y = y.
Proof.
  unfold py_max. intros [->|[-> _]]; [|done]. by destruct (fltb y y).
Qed.

Lemma py_min_not_above_r (x y : F) : not_above y x → py_min x y = y.
Proof.
  unfold py_min. intros [->|[-> _]]; [|done]. by destruct (fltb x x).
Qed.

Lemma py_max_not_above_r (x y : F) : not_above y x → py_max x y = x.
Proof.
  unfold py_max. intros [->|[_ ->]]; [|done]. by destruct (fltb x x).
Qed.

(** X10.  For every arithmetic, on a grid that does not decrease, the
    double quadrature is the Laplace expansion in the smaller and the
    greater of two radii: in the sum for the grid index [ir] the points
    up to [ir] contribute [rr[irp]**am / rr[ir]**(am+1)], the points
    beyond [rr[ir]**am / rr[irp]**(am+1)], each times
    [ff[irp] * rr[irp]**3]. *)
Theorem lap_inner_outer ao sp mu ir mu2ff ff mu2j am :
  wf_ao ao = true →
  (∀ i j, i ≤ j → j < nr ao →
     not_above (at_ (rr ao) i) (at_ (rr ao) j)) →
  psi_log ao !! sp = Some mu2ff → mu2ff !! mu = Some ff →
  sp_mu2j ao !! sp = Some mu2j → mu2j !! mu = Some am →
  ir < nr ao →
  ∃ ao_pot, ao_log_hartree_lap ao = Ok ao_pot ∧
    get3 (psi_log ao_pot) sp mu ir =
    Some (of_Z 4 *. fpi *. flog (at_ (rr ao) 1 /. at_ (rr ao) 0)
            /. (of_Z (2 * am) +. of_Z 1)
          *. fsum (nr ao) (λ irp,
               (if irp <=? ir
                then at_ (rr ao) irp **. am /. at_ (rr ao) ir **. (am + 1)
                else at_ (rr ao) ir **. am /. at_ (rr ao) irp **. (am + 1))
               *. (at_ ff irp *. at_ (rr ao) irp **. 3))).
Proof.
  intros Hwf Hsorted Hsp Hmu Hj Ham Hir.
  exists (potential_set (lap_row ao) ao).
  split; [by apply ao_log_hartree_lap_eq|].
  rewrite (lap_entry ao sp mu ir mu2ff ff mu2j am) by done.
  do 2 f_equal. apply fsum_from_ext. intros irp Hirp.
  destruct (Nat.leb_spec irp ir) as [Hle|Hlt].
  - pose proof (Hsorted irp ir Hle Hir) as Hna.
    by rewrite (py_min_not_above_r _ _ Hna), (py_max_not_above_r _ _ Hna).
  - pose proof (Hsorted ir irp ltac:(lia) ltac:(lia)) as Hna.
    by rewrite (py_min_not_above _ _ Hna), (py_max_not_above _ _ Hna).
Qed.

End Kernel.

(** * Two calls in a row on the store *)

Section StoreChain.
Context {F : Type} `{FloatOps F} `{SbtEngine F}.
Implicit Types (h : Heap.store F) (l p : Heap.loc) (L : layout).

(** The value-level solver of a store-level solver returns a well-formed
    set on a well-formed set. *)
Lemma stored_solver_returns (solver : Heap.loc → Heap.hm F Heap.loc)
    (rowf : ao_log F → list F → Z → list F) h ao L0 (v : ao_log F) :
  solver = Heap.ao_log_hartree_lap ∧ rowf = lap_row ∨
  solver = Heap.ao_log_hartree_sbt ∧ rowf = sbt_row →
  (∀ e ff am d, length (sbt e ff am d) = length ff) →
  holds h ao L0 v → NoDup (layout_locs ao L0) → wf_ao v = true →
  wf_ao (potential_set (rowf v) v) = true ∧
  ∃ p L h', solver ao h = (Ok p, h') ∧
    h `prefix_of` h' ∧ holds h' ao L0 v ∧
    holds h' p L (potential_set (rowf v) v) ∧
    NoDup (layout_locs p L) ∧ ∀ l, l ∈ layout_locs p L → length h ≤ l.
Proof.
  intros [[-> ->] | [-> ->]] Hsbt Hin Hnd Hwf.
  - pose proof (ao_log_hartree_lap_eq v Hwf) as Hv. split.
    + apply (same_shape_wf v); [|done]. by apply ao_log_hartree_lap_shape.
    + by apply run_ao_log_hartree_lap_apart.
  - pose proof (ao_log_hartree_sbt_eq v Hsbt Hwf) as Hv. split.
    + apply (same_shape_wf v); [|done]. by apply ao_log_hartree_sbt_shape.
    + by apply run_ao_log_hartree_sbt_apart.
Qed.

(** X12.  Two calls in a row on the store, on a well-formed orbital set
    stored in objects that are apart from each other (and with a
    transform engine that keeps the length of its argument): the result
    of a solver is a stored instance a solver (the same or the other)
    accepts; after the second call the argument of the first holds its
    value, and so does the result of the first, which shares no object
    with the second result. *)
Theorem store_chain (solver solver' : Heap.loc → Heap.hm F Heap.loc)
    (rowf rowf' : ao_log F → list F → Z → list F) h ao L0 (v : ao_log F) :
  solver = Heap.ao_log_hartree_lap ∧ rowf = lap_row ∨
  solver = Heap.ao_log_hartree_sbt ∧ rowf = sbt_row →
  solver' = Heap.ao_log_hartree_lap ∧ rowf' = lap_row ∨
  solver' = Heap.ao_log_hartree_sbt ∧ rowf' = sbt_row →
  (∀ e ff am d, length (sbt e ff am d) = length ff) →
  holds h ao L0 v → NoDup (layout_locs ao L0) → wf_ao v = true →
  let v1 := potential_set (rowf v) v in
  let v2 := potential_set (rowf' v1) v1 in
  ∃ p L h1 p' L' h2,
    solver ao h = (Ok p, h1) ∧ solver' p h1 = (Ok p', h2) ∧
    holds h2 ao L0 v ∧ holds h2 p L v1 ∧ holds h2 p' L' v2 ∧
    ∀ l, l ∈ layout_locs p' L' →
      (l ∉ layout_locs p L) ∧ (l ∉ layout_locs ao L0).
Proof.
  intros Hs Hs' Hsbt Hin Hnd Hwf v1 v2.
  destruct (stored_solver_returns solver rowf h ao L0 v Hs Hsbt Hin Hnd Hwf)
    as (Hwf1 & p & L & h1 & Hrun & Hpre & Hao1 & Hp1 & Hnd1 & Hfresh1).
  destruct (stored_solver_returns solver' rowf' h1 p L v1 Hs' Hsbt Hp1 Hnd1 Hwf1)
    as (_ & p' & L' & h2 & Hrun' & Hpre' & Hp2 & Hp' & _ & Hfresh2).
  exists p, L, h1, p', L', h2.
  split; [done|]. split; [done|].
  split; [by apply (holds_prefix h1 h2)|]. split; [done|]. split; [done|].
  intros l Hl. specialize (Hfresh2 l Hl). split; intros Hold.
  - apply (layout_locs_valid _ _ _ _ _ Hp1) in Hold. lia.
  - apply (layout_locs_valid _ _ _ _ _ Hao1) in Hold. lia.
Qed.

End StoreChain.

(** * The statements on the four-point grid *)

Section LibraryInstance.
#[local] Existing Instance unit_engine.
#[local] Existing Instance quadrature_libnao.

Lemma quadrature_libnao_shape (rr : list R) nmult (mu2ff : list (list R)) n
    mu2j (mu2vh : list (list R)) :
  length <$> @ao_hartree_lap R quadrature_libnao rr nmult mu2ff n mu2j mu2vh =
  length <$> mu2vh.
Proof. simpl. by case_decide. Qed.

Lemma libnao_agrees_4pt :
  @ao_log_hartree_lap_libnao R R_ops quadrature_libnao ao_4pt =
    ao_log_hartree_lap ao_4pt ∧
  (@ao_log_hartree R R_ops unit_engine quadrature_libnao ascii_only ao_4pt
     (literal "Lap")).2 =
    ao_log_hartree_lap ao_4pt.
Proof.
  apply (@libnao_agrees_with_quadrature R R_ops unit_engine quadrature_libnao
           ascii_only ao_4pt (literal "Lap")).
  - exact quadrature_libnao_shape.
  - reflexivity.
  - intros [|sp] a mu2j nmult Ha Hj Hn; [|discriminate Ha].
    injection Ha as <-. injection Hj as <-. reflexivity.
  - reflexivity.
Defined.

End LibraryInstance.

Section Instances.
#[local] Existing Instance unit_engine.
#[local] Existing Instance unit_libnao.

Lemma solvers_chain_4pt :
  ∃ ao_pot ao_pot',
    ao_log_hartree_lap ao_4pt = Ok ao_pot ∧ wf_ao ao_pot = true ∧
    ao_log_hartree_sbt ao_pot = Ok ao_pot' ∧ wf_ao ao_pot' = true ∧
    sp_mu2rcut ao_pot' = sp_mu2rcut ao_pot ∧
    sp2rcut ao_pot' = sp2rcut ao_pot.
Proof.
  apply (@solvers_chain R R_ops unit_engine unit_libnao ao_4pt
           ao_log_hartree_lap ao_log_hartree_sbt).
  - exact unit_engine_length.
  - exact unit_libnao_shape.
  - reflexivity.
  - left. reflexivity.
  - right. left. reflexivity.
Defined.

Lemma stale_fields_4pt :
  ao_log_hartree_sbt
    (with_sp2rcut [8%R] (with_sp_mu2rcut [[9%R]]
       (with_psi_log_rl [[[7; 7; 7; 7]%R]] ao_4pt))) =
  ao_log_hartree_sbt ao_4pt.
Proof.
  apply (@stale_fields_ignored R R_ops unit_engine unit_libnao ao_4pt
           [[[7; 7; 7; 7]%R]] [[9%R]] [8%R] ao_log_hartree_sbt).
  - exact unit_engine_length.
  - exact unit_libnao_shape.
  - reflexivity.
  - reflexivity.
  - reflexivity.
  - right. left. reflexivity.
Defined.

Lemma libnao_frame_4pt :
  rr (libnao_set ao_4pt) = rr ao_4pt ∧ pp (libnao_set ao_4pt) = pp ao_4pt ∧
  nr (libnao_set ao_4pt) = nr ao_4pt ∧
  nspecies (libnao_set ao_4pt) = nspecies ao_4pt ∧
  jmx (libnao_set ao_4pt) = jmx ao_4pt ∧
  sp2nmult (libnao_set ao_4pt) = sp2nmult ao_4pt ∧
  sp_mu2j (libnao_set ao_4pt) = sp_mu2j ao_4pt ∧
  length (psi_log (libnao_set ao_4pt)) = length (psi_log ao_4pt) ∧
  length (psi_log_rl (libnao_set ao_4pt)) = length (psi_log_rl ao_4pt) ∧
  map length (sp_mu2rcut (libnao_set ao_4pt)) =
    map length (sp_mu2rcut ao_4pt) ∧
  length (sp2rcut (libnao_set ao_4pt)) = length (sp2rcut ao_4pt).
Proof.
  apply (@libnao_frame R R_ops unit_libnao ao_4pt (libnao_set ao_4pt)).
  apply ao_log_hartree_lap_libnao_eq; [exact unit_libnao_shape|reflexivity].
Defined.

End Instances.

Section StoreInstances.
#[local] Existing Instance unit_engine.

Lemma store_chain_4pt :
  let v1 := potential_set (lap_row ao_4pt) ao_4pt in
  let v2 := potential_set (sbt_row v1) v1 in
  ∃ p L h1 p' L' h2,
    Heap.ao_log_hartree_lap 12 store_4pt = (Ok p, h1) ∧
    Heap.ao_log_hartree_sbt p h1 = (Ok p', h2) ∧
    holds h2 12 layout_4pt ao_4pt ∧ holds h2 p L v1 ∧ holds h2 p' L' v2 ∧
    ∀ l, l ∈ layout_locs p' L' →
      (l ∉ layout_locs p L) ∧ (l ∉ layout_locs 12 layout_4pt).
Proof.
  apply (@store_chain R R_ops unit_engine Heap.ao_log_hartree_lap
           Heap.ao_log_hartree_sbt lap_row sbt_row store_4pt 12 layout_4pt
           ao_4pt).
  - left. split; reflexivity.
  - right. split; reflexivity.
  - exact unit_engine_length.
  - exact holds_4pt.
  - apply (bool_decide_unpack _). vm_compute. reflexivity.
  - reflexivity.
Defined.

End StoreInstances.

Section TransformInstance.
Open Scope R_scope.
#[local] Existing Instance quadrature_engine.

Lemma quadrature_engine_length (e : @sbt_c R quadrature_engine) (ff : list R)
    (am d : Z) :
  length (@sbt R quadrature_engine e ff am d) = length ff.
Proof. simpl. case_decide; [done|]. by case_decide. Qed.

Lemma sbt_agrees_4pt :
  @ao_log_hartree_sbt R R_ops quadrature_engine ao_4pt_unit_pp =
  ao_log_hartree_lap ao_4pt_unit_pp.
Proof.
  apply (@sbt_agrees_with_quadrature R R_ops quadrature_engine ao_4pt_unit_pp).
  - exact quadrature_engine_length.
  - reflexivity.
  - intros [|sp] mu mu2ff mu2j ff am Hsp Hj Hff Ham; [|discriminate Hsp].
    injection Hsp as <-. injection Hj as <-.
    destruct mu as [|mu]; [|discriminate Hff].
    injection Hff as <-. injection Ham as <-.
    assert (Hq : zip_with Rdiv [1; 1; 1; 1] (np_pow [1; 1; 1; 1] 2) =
                 [1; 1; 1; 1]).
    { simpl. repeat f_equal; lra. }
    cbn [sbt quadrature_engine sbt_init ao_4pt_unit_pp rr pp jmx fdiv fmul
         of_Z fpi R_ops].
    rewrite (decide_True (P := (1 = 1)%Z)) by done. rewrite Hq.
    rewrite (decide_False (P := (-1 = 1)%Z)) by done.
    rewrite decide_True by reflexivity.
    unfold np_scale. rewrite map_map.
    transitivity (map (λ x : R, x)
      (lap_row (mk_ao_log [1; 2; 4; 8] [] 4 0 0 [] [] [] [] [] [])
         [1; 1; 1; 1] 0)).
    + apply map_ext. intros x. pose proof PI_RGT_0 as Hpi.
      change (4 * PI * (x / (4 * PI)) = x). field. lra.
    + rewrite map_id. reflexivity.
Defined.

End TransformInstance.

(** * The statements in binary64 *)

Section Machine.
#[local] Existing Instance binary64.
Import PrimFloat.

(** Values of the power and of the logarithm: [1.1 ** 3],
    [10.0 ** -2], [log(2.0)] and [log(10.0)], and the powers and
    logarithms of zero. *)
Example pow_values :
  Binary64.pow 0x1.199999999999ap+0 3 = 0x1.54bc6a7ef9db4p+0%float ∧
  Binary64.pow 10 (-2) = 0x1.47ae147ae147bp-7%float ∧
  Binary64.pow 0 (-1) = infinity ∧ Binary64.pow 0 0 = 1%float ∧
  Binary64.pow nan 0 = 1%float ∧ Binary64.pow 0x1p-600 2 = 0%float.
Proof. repeat split; vm_compute; reflexivity. Qed.

Example log_values :
  Binary64.log 2 = 0x1.62e42fefa39efp-1%float ∧
  Binary64.log 10 = 0x1.26bb1bbb55516p+1%float ∧
  Binary64.log 1 = 0%float ∧ Binary64.log 0 = neg_infinity ∧
  Binary64.log (-1) = nan.
Proof. repeat split; vm_compute; reflexivity. Qed.

(** [diagonal_term] in binary64, on the grid [[1, 2, 4, 8]] with
    [j = 1], at [ir = 1]: the step adds [2**1 / 2**2 * (1 * 2**3) = 4]. *)
Lemma diagonal_term_4pt :
  lap_accumulate (rr Binary64.ao_4pt)
    (zip_with mul [1; 1; 1; 1]%float (np_pow (rr Binary64.ao_4pt) 3)) 1 1 1
    [0; 0; 0; 0]%float =
  Ok [0; 4; 0; 0]%float.
Proof.
  refine (eq_trans (proj1 (proj2
    (diagonal_term (rr Binary64.ao_4pt) [1; 1; 1; 1]%float
       [0; 0; 0; 0]%float 1 1 1 _ _ _ _))) _).
  - simpl. lia.
  - simpl. lia.
  - reflexivity.
  - reflexivity.
  - vm_compute. reflexivity.
Defined.

(** C8: positive radii do not keep the diagonal term finite.  The radii
    of [ao_tiny] are strictly positive; with [j = 1] the divisor [max(r, r)**(am+1)] of the
    diagonal step at [ir = 0] is [2^-1200], which binary64 rounds to
    zero, so that the step divides by zero: the quotient is infinite,
    and not [1/rr[0] = 2^600]; [ffrr3[0] = 1 * 2^-1800] is zero as well,
    and their product, the term, is not a number; and so is every entry
    of the potential that [ao_log_hartree_lap] returns. *)
Lemma diagonal_term_underflows :
  let r := at_ (rr Binary64.ao_tiny) 0 in
  forallb (λ r, 0 <? r)%float (rr Binary64.ao_tiny) = true ∧
  py_max r r **. (1 + 1) = 0%float ∧
  py_min r r **. 1 /. py_max r r **. (1 + 1) = infinity ∧
  of_Z 1 /. r = 0x1p+600%float ∧
  is_finite
    (lap_term (rr Binary64.ao_tiny)
       (zip_with mul [1; 1; 1; 1]%float (np_pow (rr Binary64.ao_tiny) 3))
       1 0 0) = false ∧
  ∃ ao_pot, ao_log_hartree_lap Binary64.ao_tiny = Ok ao_pot ∧
    psi_log ao_pot = [[[nan; nan; nan; nan]]].
Proof.
  repeat split; try (vm_compute; reflexivity).
  eexists. split; vm_compute; reflexivity.
Qed.

(** [lap_inner_outer] in binary64, on the grid [[1, 2, 4, 8]] with
    [j = 1] and [ff = [1, 1, 1, 1]], at [ir = 1]: the four terms are
    [1/4 * 1], [2/4 * 8], [2/16 * 64] and [2/64 * 512], and the potential
    is the double [82.02240940143568]. *)
Lemma lap_inner_outer_4pt :
  ∃ ao_pot, ao_log_hartree_lap Binary64.ao_4pt = Ok ao_pot ∧
    get3 (psi_log ao_pot) 0 0 1 =
    Some (of_Z 4 *. fpi *. flog (2 / 1)%float /. (of_Z 2 +. of_Z 1)
          *. (0 + 0.25 * 1 + 0.5 * 8 + 0.125 * 64 + 0.03125 * 512)%float) ∧
    get3 (psi_log ao_pot) 0 0 1 = Some 0x1.4816f27d79282p+6%float.
Proof.
  destruct (lap_inner_outer Binary64.ao_4pt 0 0 1 [[1; 1; 1; 1]%float]
              [1; 1; 1; 1]%float [1%Z] 1%Z) as (ao_pot & Hrun & Hget).
  - reflexivity.
  - intros i j Hij Hj. unfold not_above.
    destruct j as [|[|[|[|j]]]]; [| | | |simpl in Hj; lia];
      destruct i as [|[|[|[|i]]]]; try lia;
      first [by left | by right].
  - reflexivity.
  - reflexivity.
  - reflexivity.
  - reflexivity.
  - simpl. lia.
  - exists ao_pot. split; [exact Hrun|]. rewrite Hget.
    split; vm_compute; reflexivity.
Defined.

End Machine.

